(** * StatGuy: the team / conference-history import

    A shallow embedding of [import/import_team_history.py]: the season
    snapshots fetched from the statistics API, the backward conference
    resolver ([build_conference_history] with its forward scan
    [find_eventual_conference]), the gap-year filler ([fill_gap_years]) and
    the driver [main], together with the properties the design document
    states about them.

    Python values are modelled as follows.
    - A team dictionary returned by the API is a record [team]; a field read
      with [.get] is an [option] ([None] for a missing or null field).
    - [all_seasons_data] (season -> list of teams) is a [gmap Z (list team)]:
      the script only tests membership and reads by key.
    - [team_id_map], [teams_by_source], [id_to_source] and [all_teams_map] are
      iterated, so they are insertion-ordered association lists ([dict]).
    - The logger, the tables of the datastore and the requests sent to the
      API and to the datastore form the [world] threaded through a state and
      exception monad [M].

    What only reaches the terminal is left out: [Logger.info],
    [Logger.print_summary], the traceback printed by [main] and the
    per-season counters [season_processed] and [season_skipped], which are
    only printed. *)

From stdpp Require Import gmap strings list sorting.

Local Open Scope Z_scope.
#[local] Set Warnings "-clear-no-such-hyp".

(** ** Data model *)

(** One element of the list returned by [GET /teams?season=...]. Only the
    fields the script branches on are kept; [school] stands for the
    descriptive columns that [upsert_teams] copies verbatim. *)
Record team := Team {
  sourceId : option string;
  conferenceId : option Z;
  school : option string
}.

(** One element of the list returned by [GET /conferences]. *)
Record conference := Conference {
  conf_id : Z;
  conf_name : string
}.

(** A row of the table [team_conference_history]. *)
Record history_row := HistoryRow {
  h_team_id : Z;
  h_season : Z;
  h_conference_id : option Z;
  h_existed : bool
}.

(** A row of the table [teams]: the generated primary key, the conflict
    target [source_id] and the columns written by [upsert_teams]. *)
Record team_row := TeamRow {
  t_id : Z;
  t_source_id : option string;
  t_school : option string;
  t_last_active_season : Z
}.

Global Instance team_eq_dec : EqDecision team.
Proof. solve_decision. Defined.
Global Instance conference_eq_dec : EqDecision conference.
Proof. solve_decision. Defined.
Global Instance history_row_eq_dec : EqDecision history_row.
Proof. solve_decision. Defined.
Global Instance team_row_eq_dec : EqDecision team_row.
Proof. solve_decision. Defined.

(** ** Python helpers *)

(** [range(start, stop)]. *)
Definition range (start stop : Z) : list Z := seqZ start (stop - start).

(** [range(start, stop, -1)]: from [start] down to [stop + 1]. *)
Definition range_down (start stop : Z) : list Z :=
  reverse (seqZ (stop + 1) (start - stop)).

(** Truthiness of a string read with [.get]: [None] and the empty string
    are falsy. *)
Definition truthy (o : option string) : option string :=
  match o with
  | Some s => if decide (s = "") then None else Some s
  | None => None
  end.

(** Insertion-ordered dictionaries. *)
Definition dict (K V : Type) := list (K * V).

Fixpoint dict_get {K V} `{EqDecision K} (k : K) (d : dict K V) : option V :=
  match d with
  | [] => None
  | (k', v) :: d' => if decide (k' = k) then Some v else dict_get k d'
  end.

(** [d[k] = v]: an existing key keeps its position. *)
Fixpoint dict_set {K V} `{EqDecision K} (k : K) (v : V) (d : dict K V) : dict K V :=
  match d with
  | [] => [(k, v)]
  | (k', v') :: d' =>
      if decide (k' = k) then (k, v) :: d' else (k', v') :: dict_set k v d'
  end.

(** [d[k].append(x)] on a [defaultdict(list)]. *)
Definition dict_append {K A} `{EqDecision K} (k : K) (x : A)
    (d : dict K (list A)) : dict K (list A) :=
  dict_set k (default [] (dict_get k d) ++ [x]) d.

(** [min] and [max] of a list of seasons ([None] on the empty list, where
    Python raises). *)
Definition list_min (l : list Z) : option Z :=
  match l with [] => None | x :: l' => Some (foldr Z.min x l') end.
Definition list_max (l : list Z) : option Z :=
  match l with [] => None | x :: l' => Some (foldr Z.max x l') end.

(** ** The forward scan *)

(** [[t for t in teams if t.get('sourceId') == team_source_id]]. *)
Definition entries_of (team_source_id : string) (teams : list team) : list team :=
  filter (λ t, sourceId t = Some team_source_id) teams.

(** The body of the loop of [find_eventual_conference], over the seasons
    still to visit. *)
Fixpoint scan_future (team_source_id : string) (all_seasons_data : gmap Z (list team))
    (future : list Z) : option Z :=
  match future with
  | [] => None
  | future_season :: later =>
      match all_seasons_data !! future_season with
      | None => scan_future team_source_id all_seasons_data later
      | Some teams =>
          match entries_of team_source_id teams with
          | [t] => conferenceId t
          | [] => None
          | _ => scan_future team_source_id all_seasons_data later
          end
      end
  end.

Definition find_eventual_conference (team_source_id : string) (start_season : Z)
    (all_seasons_data : gmap Z (list team)) : option Z :=
  scan_future team_source_id all_seasons_data (range (start_season + 1) 2026).

(** ** The logger, the requests and the world *)

(** The messages kept by [Logger.warning] and [Logger.error]; the text of
    the caught exception, which the script appends, is left out.
    [Logger.info] only prints and is not modelled. *)
Inductive message :=
| NoTeamId (source_id : string) (season : Z)
| NoEventual (source_id : string) (season : Z)
| AllMatchEventual (source_id : string) (season : Z) (eventual_conf : Z)
| OrphanedConferences (orphaned : gset Z)
| FetchConferencesFailed
| FetchTeamsFailed (season : Z)
| UpsertConferenceFailed (name : string)
| UpsertTeamFailed (school : option string) (source_id : string)
| ClearHistoryFailed
| InsertHistoryFailed (source_id : string) (season : Z)
| InsertGapFailed (team_id : Z) (season : Z)
| FatalError.

Global Instance message_eq_dec : EqDecision message.
Proof. solve_decision. Defined.

Record Logger := MkLogger {
  warnings : list message;
  errors : list message;
  stats : gmap string nat
}.

(** Every call that leaves the process: to the statistics API or to the
    datastore client. *)
Inductive request :=
| GetConferences
| GetTeams (season : Z)
| UpsertConference (conf : conference)
| UpsertTeam (source_id : string) (school : option string) (last_season : Z)
| SelectTeams
| DeleteHistory
| InsertHistory (row : history_row)
| SelectHistory (team_id : Z) (season : Z)
| SelectHistoryConferences
| SelectConferences
| SelectGapRecords
| CountTeams
| CountHistory.

Global Instance request_eq_dec : EqDecision request.
Proof. solve_decision. Defined.

Inductive exn :=
| TypeError
| IndexError
| RequestFailed (r : request)
| UniqueViolation (row : history_row).

(** What lies outside the script. The [nat] is the number of requests
    already sent when the call is made, so an answer may change over time.
    - [conferences_endpoint], [teams_endpoint]: the JSON answer of the API,
      [None] when the request or [raise_for_status] fails;
    - [datastore_down]: the datastore call raises (network, permission, a
      constraint other than the uniqueness of the history keys) and leaves
      the tables as they are;
    - [next_team_id]: the primary key the datastore generates for a new
      row of [teams]. *)
Record environment := Environment {
  conferences_endpoint : nat → option (list conference);
  teams_endpoint : nat → Z → option (list team);
  datastore_down : nat → request → bool;
  next_team_id : list team_row → Z
}.

Record world := World {
  tbl_conferences : list conference;
  tbl_teams : list team_row;
  tbl_history : list history_row;
  sent : list request;
  logger : Logger
}.

Definition set_conferences (f : list conference → list conference) (w : world) : world :=
  World (f (tbl_conferences w)) (tbl_teams w) (tbl_history w) (sent w) (logger w).
Definition set_teams (f : list team_row → list team_row) (w : world) : world :=
  World (tbl_conferences w) (f (tbl_teams w)) (tbl_history w) (sent w) (logger w).
Definition set_history (f : list history_row → list history_row) (w : world) : world :=
  World (tbl_conferences w) (tbl_teams w) (f (tbl_history w)) (sent w) (logger w).
Definition set_sent (f : list request → list request) (w : world) : world :=
  World (tbl_conferences w) (tbl_teams w) (tbl_history w) (f (sent w)) (logger w).
Definition set_logger (f : Logger → Logger) (w : world) : world :=
  World (tbl_conferences w) (tbl_teams w) (tbl_history w) (sent w) (f (logger w)).

(** ** The state and exception monad *)

Inductive result (A : Type) :=
| Ok (a : A)
| Raise (e : exn).
Arguments Ok {A} a.
Arguments Raise {A} e.

Definition M (A : Type) : Type := world → result A * world.

Definition ret {A} (a : A) : M A := λ w, (Ok a, w).

Definition bind {A B} (m : M A) (k : A → M B) : M B := λ w,
  match m w with
  | (Ok a, w') => k a w'
  | (Raise e, w') => (Raise e, w')
  end.

Definition raise {A} (e : exn) : M A := λ w, (Raise e, w).

(** [try: m  except Exception as e: handler e]. *)
Definition try_except {A} (m : M A) (handler : exn → M A) : M A := λ w,
  match m w with
  | (Ok a, w') => (Ok a, w')
  | (Raise e, w') => handler e w'
  end.

Definition lift_result {A} (r : result A) : M A := λ w, (r, w).

Declare Scope py_scope.
Delimit Scope py_scope with py.
Notation "x ← m ; k" := (bind m (λ x, k))
  (at level 20, m at level 100, k at level 200, only parsing) : py_scope.
Notation "' x ← m ; k" := (bind m (λ x, k))
  (at level 20, x pattern, m at level 100, k at level 200, only parsing) : py_scope.
Notation "m ;; k" := (bind m (λ _, k))
  (at level 100, k at level 200, right associativity, only parsing) : py_scope.
Local Open Scope py_scope.

(** A [for] loop that carries the local variables [s] it updates. *)
Fixpoint for_fold {A S} (l : list A) (s : S) (body : A → S → M S) : M S :=
  match l with
  | [] => ret s
  | x :: l' => s' ← body x s ; for_fold l' s' body
  end.

Fixpoint for_each {A} (l : list A) (body : A → M unit) : M unit :=
  match l with
  | [] => ret tt
  | x :: l' => body x ;; for_each l' body
  end.

(** *** Logger methods *)

Definition warning (m : message) : M unit := λ w,
  (Ok tt, set_logger (λ lg, MkLogger (warnings lg ++ [m]) (errors lg) (stats lg)) w).

Definition error (m : message) : M unit := λ w,
  (Ok tt, set_logger (λ lg, MkLogger (warnings lg) (errors lg ++ [m]) (stats lg)) w).

Definition stat (key : string) : M unit := λ w,
  (Ok tt, set_logger (λ lg, MkLogger (warnings lg) (errors lg)
     (<[key := S (default 0%nat (stats lg !! key))]> (stats lg))) w).

(** ** The API and the datastore *)

Section Program.

Variable env : environment.

(** Record a request; the answer is the number of requests sent before. *)
Definition send (r : request) : M nat := λ w,
  (Ok (length (sent w)), set_sent (λ l, l ++ [r]) w).

Definition call_datastore (r : request) : M unit :=
  now ← send r ;
  if datastore_down env now r then raise (RequestFailed r) else ret tt.

(** [requests.get(.../conferences)] followed by [raise_for_status] and
    [json]. *)
Definition get_conferences : M (list conference) :=
  now ← send GetConferences ;
  match conferences_endpoint env now with
  | Some conferences => ret conferences
  | None => raise (RequestFailed GetConferences)
  end.

Definition get_teams (season : Z) : M (list team) :=
  now ← send (GetTeams season) ;
  match teams_endpoint env now season with
  | Some teams => ret teams
  | None => raise (RequestFailed (GetTeams season))
  end.

(** The rows of [team_conference_history] with a given key. *)
Definition rows_for (team_id season : Z) (rows : list history_row) : list history_row :=
  filter (λ r, h_team_id r = team_id ∧ h_season r = season) rows.

(** Modelled from the spec: the table [team_conference_history] and its
    client are not part of the repository. An insert appends a row unless a
    row with the same (team_id, season) exists, which the uniqueness
    constraint of the storage rejects. *)
Definition insert_history (row : history_row) : M unit :=
  call_datastore (InsertHistory row) ;;
  λ w, match rows_for (h_team_id row) (h_season row) (tbl_history w) with
       | [] => (Ok tt, set_history (λ rows, rows ++ [row]) w)
       | _ :: _ => (Raise (UniqueViolation row), w)
       end.

(** Modelled from the spec: the query
    [select('id').eq('team_id', team_id).eq('season', season)] answers with
    the rows stored under that key. *)
Definition select_history (team_id season : Z) : M (list history_row) :=
  call_datastore (SelectHistory team_id season) ;;
  λ w, (Ok (rows_for team_id season (tbl_history w)), w).

(** Modelled from the spec: [delete().neq('id', 0)] deletes the history
    records entirely (generated keys are never 0). *)
Definition delete_history : M unit :=
  call_datastore DeleteHistory ;;
  λ w, (Ok tt, set_history (λ _, []) w).

(** Modelled from the spec: [upsert(..., on_conflict='id')] on
    [conferences] replaces the row with the same id or adds one. *)
Fixpoint upsert_conference_row (conf : conference) (rows : list conference) : list conference :=
  match rows with
  | [] => [conf]
  | c :: rows' =>
      if decide (conf_id c = conf_id conf) then conf :: rows'
      else c :: upsert_conference_row conf rows'
  end.

Definition upsert_conference (conf : conference) : M unit :=
  call_datastore (UpsertConference conf) ;;
  λ w, (Ok tt, set_conferences (upsert_conference_row conf) w).

(** Modelled from the spec: [upsert(team_data, on_conflict='source_id')] on
    [teams]. A row with the same [source_id] is updated and keeps its key,
    otherwise a row is added under a generated key. *)
Fixpoint update_team_row (source_id : string) (school : option string) (last_season : Z)
    (rows : list team_row) : option (list team_row) :=
  match rows with
  | [] => None
  | r :: rows' =>
      if decide (t_source_id r = Some source_id)
      then Some (TeamRow (t_id r) (Some source_id) school last_season :: rows')
      else cons r <$> update_team_row source_id school last_season rows'
  end.

Definition upsert_team_row (source_id : string) (school : option string) (last_season : Z)
    (rows : list team_row) : list team_row :=
  match update_team_row source_id school last_season rows with
  | Some rows' => rows'
  | None => rows ++ [TeamRow (next_team_id env rows) (Some source_id) school last_season]
  end.

Definition upsert_team (source_id : string) (school : option string) (last_season : Z) : M unit :=
  call_datastore (UpsertTeam source_id school last_season) ;;
  λ w, (Ok tt, set_teams (upsert_team_row source_id school last_season) w).

Definition select_teams : M (list team_row) :=
  call_datastore SelectTeams ;;
  λ w, (Ok (tbl_teams w), w).

(** The queries of [validate_data]. *)
Definition select_history_conferences : M (list Z) :=
  call_datastore SelectHistoryConferences ;;
  λ w, (Ok (omap h_conference_id (tbl_history w)), w).

Definition select_conferences : M (list Z) :=
  call_datastore SelectConferences ;;
  λ w, (Ok (conf_id <$> tbl_conferences w), w).

Definition select_gap_records : M (list history_row) :=
  call_datastore SelectGapRecords ;;
  λ w, (Ok (filter (λ r, h_existed r = false) (tbl_history w)), w).

Definition count_teams : M nat :=
  call_datastore CountTeams ;;
  λ w, (Ok (length (tbl_teams w)), w).

Definition count_history : M nat :=
  call_datastore CountHistory ;;
  λ w, (Ok (length (tbl_history w)), w).

(** ** The script *)

Definition fetch_conferences : M (list conference) :=
  try_except get_conferences
    (λ e, error FetchConferencesFailed ;; raise e).

Definition upsert_conferences (conferences : list conference) : M unit :=
  for_each conferences (λ conf,
    try_except
      (upsert_conference conf ;;
       stat "conferences_processed")
      (λ _, error (UpsertConferenceFailed (conf_name conf)))).

Definition fetch_teams_for_season (season : Z) : M (list team) :=
  try_except (get_teams season)
    (λ _, error (FetchTeamsFailed season) ;; ret []).

(** [all_teams_map]: per source id, the last season seen and the team
    dictionary of that season. *)
Definition track_team (season : Z) (all_teams_map : dict string (Z * team)) (team : team) :=
  match truthy (sourceId team) with
  | None => all_teams_map
  | Some source_id =>
      match dict_get source_id all_teams_map with
      | None => dict_set source_id (season, team) all_teams_map
      | Some (last_season, _) =>
          if decide (season > last_season)
          then dict_set source_id (season, team) all_teams_map
          else all_teams_map
      end
  end.

(** The body of the loop of phase 1, carrying [all_seasons_data] and
    [all_teams_map]. The pause between two requests is not modelled. *)
Definition collect_season (season : Z)
    (collected : gmap Z (list team) * dict string (Z * team))
    : M (gmap Z (list team) * dict string (Z * team)) :=
  let '(all_seasons_data, all_teams_map) := collected in
  teams ← fetch_teams_for_season season ;
  match teams with
  | [] => ret (all_seasons_data, all_teams_map)
  | _ :: _ =>
      ret (<[season := teams]> all_seasons_data,
           foldl (track_team season) all_teams_map teams)
  end.

(** Phase 1. *)
Definition collect_all_seasons_data : M (gmap Z (list team) * dict string (Z * team)) :=
  for_fold (range 1925 2026) (∅, []) collect_season.

(** Phase 2. *)
Definition upsert_teams (all_teams_map : dict string (Z * team)) : M unit :=
  for_each all_teams_map (λ '(source_id, (last_season, team)),
    stat "teams_processed" ;;
    try_except
      (upsert_team source_id (school team) last_season ;;
       stat "teams_successful")
      (λ _, error (UpsertTeamFailed (school team) source_id) ;;
            stat "teams_failed")).

(** [{team['source_id']: team['id'] for team in teams if team.get('source_id')}]. *)
Definition team_id_map_of (teams : list team_row) : dict string Z :=
  foldl (λ team_id_map team,
           match truthy (t_source_id team) with
           | Some source_id => dict_set source_id (t_id team) team_id_map
           | None => team_id_map
           end) [] teams.

Definition get_team_id_map : M (dict string Z) :=
  teams ← select_teams ;
  ret (team_id_map_of teams).

(** [team_id_map.get(source_id)] under [if not team_id]: a missing key and
    the key 0 are falsy. *)
Definition truthy_id (o : option Z) : option Z :=
  match o with
  | Some team_id => if decide (team_id = 0) then None else Some team_id
  | None => None
  end.

(** [teams_by_source]: the entries of a season grouped by truthy source
    id, in order of first appearance. *)
Definition group_by_source (teams : list team) : dict string (list team) :=
  foldl (λ teams_by_source team,
           match truthy (sourceId team) with
           | Some source_id => dict_append source_id team teams_by_source
           | None => teams_by_source
           end) [] teams.

(** [conferences_in_season.sort()]: comparing [None] with anything raises
    [TypeError]; a list shorter than two is not compared at all. *)
Definition sort_conferences (conferences_in_season : list (option Z))
    : result (list (option Z)) :=
  if decide (length conferences_in_season < 2)%nat then Ok conferences_in_season
  else match mapM (λ c, c) conferences_in_season with
       | Some ids => Ok (Some <$> merge_sort Z.le ids)
       | None => Raise TypeError
       end.

(** The insert, with its [try] and [except], that each of the three
    branches of the resolver performs. *)
Definition insert_resolved (source_id : string) (team_id season : Z)
    (conference_id : option Z) : M unit :=
  try_except
    (insert_history (HistoryRow team_id season conference_id true) ;;
     stat "history_records_created")
    (λ _, error (InsertHistoryFailed source_id season)).

(** The body of [for source_id, team_entries in teams_by_source.items()];
    it carries the set [teams_without_id]. *)
Definition resolve_team (all_seasons_data : gmap Z (list team)) (team_id_map : dict string Z)
    (season : Z) (item : string * list team) (teams_without_id : gset string)
    : M (gset string) :=
  let '(source_id, team_entries) := item in
  match truthy_id (dict_get source_id team_id_map) with
  | None =>
      if decide (source_id ∈ teams_without_id) then ret teams_without_id
      else
        warning (NoTeamId source_id season) ;;
        ret ({[source_id]} ∪ teams_without_id)
  | Some team_id =>
      match team_entries with
      | [entry] =>
          insert_resolved source_id team_id season (conferenceId entry)
      | _ =>
          stat "duplicates_resolved" ;;
          let conferences_in_season := conferenceId <$> team_entries in
          match find_eventual_conference source_id season all_seasons_data with
          | None =>
              warning (NoEventual source_id season) ;;
              sorted ← lift_result (sort_conferences conferences_in_season) ;
              match sorted with
              | conference_id :: _ =>
                  insert_resolved source_id team_id season conference_id
              | [] => raise IndexError
              end
          | Some eventual_conf =>
              let correct_conferences :=
                filter (λ c, c ≠ Some eventual_conf) conferences_in_season in
              match correct_conferences with
              | [] => warning (AllMatchEventual source_id season eventual_conf)
              | _ :: _ =>
                  for_each correct_conferences
                    (insert_resolved source_id team_id season)
              end
          end
      end ;;
      ret teams_without_id
  end.

(** Phase 3. *)
Definition build_conference_history (all_seasons_data : gmap Z (list team))
    (team_id_map : dict string Z) : M unit :=
  try_except delete_history (λ _, error ClearHistoryFailed) ;;
  for_fold (range_down 2025 1924) (∅ : gset string)
    (λ season teams_without_id,
      match all_seasons_data !! season with
      | None => ret teams_without_id
      | Some teams =>
          for_fold (group_by_source teams) teams_without_id
            (resolve_team all_seasons_data team_id_map season)
      end) ;;
  ret tt.

(** [season in all_seasons_data and
    any(t.get('sourceId') == source_id for t in all_seasons_data[season])]. *)
Definition appears (source_id : string) (all_seasons_data : gmap Z (list team))
    (season : Z) : Prop :=
  match all_seasons_data !! season with
  | Some teams => Exists (λ t, sourceId t = Some source_id) teams
  | None => False
  end.

Global Instance appears_dec source_id all_seasons_data season :
  Decision (appears source_id all_seasons_data season).
Proof. unfold appears. destruct (all_seasons_data !! season); apply _. Defined.

(** [seasons_appeared] of [fill_gap_years]. *)
Definition seasons_appeared (source_id : string) (all_seasons_data : gmap Z (list team))
    : list Z :=
  filter (appears source_id all_seasons_data) (range 1925 2026).

(** The [try] block of [fill_gap_years] for one missing season. *)
Definition fill_gap (team_id season : Z) : M unit :=
  try_except
    (existing ← select_history team_id season ;
     match existing with
     | [] =>
         insert_history (HistoryRow team_id season None false) ;;
         stat "gap_years_filled"
     | _ :: _ => ret tt
     end)
    (λ _, error (InsertGapFailed team_id season)).

(** [{v: k for k, v in team_id_map.items()}]. *)
Definition reverse_map (team_id_map : dict string Z) : dict Z string :=
  foldl (λ id_to_source kv, dict_set kv.2 kv.1 id_to_source) [] team_id_map.

(** Phase 4. *)
Definition fill_gap_years (all_seasons_data : gmap Z (list team))
    (team_id_map : dict string Z) : M unit :=
  let id_to_source := reverse_map team_id_map in
  for_each id_to_source (λ '(team_id, source_id),
    let appeared := seasons_appeared source_id all_seasons_data in
    match list_min appeared, list_max appeared with
    | Some first_season, Some last_season =>
        for_each (range first_season (last_season + 1)) (λ season,
          if decide (season ∈ appeared) then ret tt
          else fill_gap team_id season)
    | _, _ => ret tt
    end).

(** Phase 5: read-only checks; none of its queries is guarded. *)
Definition validate_data : M unit :=
  history_conferences ← select_history_conferences ;
  all_conferences ← select_conferences ;
  let history_conf_ids : gset Z := list_to_set history_conferences in
  let valid_conf_ids : gset Z := list_to_set all_conferences in
  let orphaned := history_conf_ids ∖ valid_conf_ids in
  (if decide (orphaned = ∅) then ret tt
   else warning (OrphanedConferences orphaned)) ;;
  select_gap_records ;;
  count_teams ;;
  count_history ;;
  ret tt.

Definition main : M unit :=
  try_except
    (conferences ← fetch_conferences ;
     upsert_conferences conferences ;;
     '(all_seasons_data, all_teams_map) ← collect_all_seasons_data ;
     upsert_teams all_teams_map ;;
     team_id_map ← get_team_id_map ;
     build_conference_history all_seasons_data team_id_map ;;
     fill_gap_years all_seasons_data team_id_map ;;
     validate_data)
    (λ e, error FatalError ;; raise e).

End Program.

(** * Vocabulary of the properties *)

(** ** What a run did *)

(** The requests sent between two worlds, and the warnings and errors
    logged between them. *)
Definition issued (w w' : world) : list request :=
  drop (length (sent w)) (sent w').
Definition warned (w w' : world) : list message :=
  drop (length (warnings (logger w))) (warnings (logger w')).
Definition failed (w w' : world) : list message :=
  drop (length (errors (logger w))) (errors (logger w')).

(** The history records a list of requests asks to insert for a key. *)
Definition inserted_row (r : request) : option history_row :=
  match r with InsertHistory row => Some row | _ => None end.
Definition inserts_for (team_id season : Z) (requests : list request) : list history_row :=
  rows_for team_id season (omap inserted_row requests).

(** The table after an insert that reaches it: the row is added unless its
    key is taken. *)
Definition add_row (rows : list history_row) (row : history_row) : list history_row :=
  match rows_for (h_team_id row) (h_season row) rows with
  | [] => rows ++ [row]
  | _ :: _ => rows
  end.

(** The datastore answers every call. *)
Definition datastore_up (env : environment) : Prop :=
  ∀ n r, datastore_down env n r = false.

(** [source_id] is mapped to [team_id]: the source id is truthy (the
    resolver groups under [if source_id:]), the key is truthy (it is used
    under [if not team_id]), and no other source id shares the key, as the
    keys of [teams] are unique (see [team_id_map_of_mapped]). *)
Definition mapped (team_id_map : dict string Z) (source_id : string) (team_id : Z) : Prop :=
  source_id ≠ "" ∧ dict_get source_id team_id_map = Some team_id ∧ team_id ≠ 0 ∧
  ∀ source_id', dict_get source_id' team_id_map = Some team_id → source_id' = source_id.

(** The seasons with data that the forward scan passes over: the team has
    several entries there. *)
Definition passed_over (sid : string) (data : gmap Z (list team)) (lo hi : Z) : Prop :=
  ∀ s teams, lo ≤ s < hi → data !! s = Some teams →
    (2 ≤ length (entries_of sid teams))%nat.

(** The entries of a team in a season of the range the script visits. *)
Definition reported (data : gmap Z (list team)) (source_id : string) (season : Z)
    (entries : list team) : Prop :=
  1925 ≤ season ≤ 2025 ∧
  ∃ teams, data !! season = Some teams ∧ entries_of source_id teams = entries.

(** The anomaly the resolver skips: the team reports several entries in
    the season and every one of them is the eventual conference. *)
Definition anomalous (data : gmap Z (list team)) (source_id : string) (season : Z) : Prop :=
  ∃ entries x, reported data source_id season entries ∧ (2 ≤ length entries)%nat ∧
    find_eventual_conference source_id season data = Some x ∧
    ∀ entry, entry ∈ entries → conferenceId entry = Some x.

(** ** The resolver as a list of actions

    The control flow of [build_conference_history] never depends on an
    answer of the datastore, so what it does is a list of actions computed
    from its arguments alone; [run_script] performs them. *)
Inductive action :=
| Warn (m : message)
| Count (key : string)
| Insert (source_id : string) (team_id season : Z) (conference_id : option Z)
| Fail (e : exn).

Definition run_action (env : environment) (a : action) : M unit :=
  match a with
  | Warn m => warning m
  | Count key => stat key
  | Insert source_id team_id season conference_id =>
      insert_resolved env source_id team_id season conference_id
  | Fail e => raise e
  end.

Definition run_script (env : environment) (script : list action) : M unit :=
  for_each script (run_action env).

(** The actions of a loop whose body performs [f x s] and leaves [s']. *)
Fixpoint fold_script {A S} (f : A → S → list action * S) (l : list A) (s : S)
    : list action * S :=
  match l with
  | [] => ([], s)
  | x :: l' =>
      let '(a, s') := f x s in
      let '(b, s'') := fold_script f l' s' in
      (a ++ b, s'')
  end.

Definition duplicate_script (data : gmap Z (list team)) (source_id : string)
    (team_id season : Z) (team_entries : list team) : list action :=
  Count "duplicates_resolved" ::
  let conferences_in_season := conferenceId <$> team_entries in
  match find_eventual_conference source_id season data with
  | None =>
      Warn (NoEventual source_id season) ::
      match sort_conferences conferences_in_season with
      | Ok (conference_id :: _) => [Insert source_id team_id season conference_id]
      | Ok [] => [Fail IndexError]
      | Raise e => [Fail e]
      end
  | Some eventual_conf =>
      match filter (λ c, c ≠ Some eventual_conf) conferences_in_season with
      | [] => [Warn (AllMatchEventual source_id season eventual_conf)]
      | correct_conferences => Insert source_id team_id season <$> correct_conferences
      end
  end.

(** The actions for a team that has a key. *)
Definition resolved_script (data : gmap Z (list team)) (source_id : string)
    (team_id season : Z) (team_entries : list team) : list action :=
  match team_entries with
  | [entry] => [Insert source_id team_id season (conferenceId entry)]
  | _ => duplicate_script data source_id team_id season team_entries
  end.

Definition team_script (data : gmap Z (list team)) (team_id_map : dict string Z)
    (season : Z) (item : string * list team) (teams_without_id : gset string)
    : list action * gset string :=
  let '(source_id, team_entries) := item in
  match truthy_id (dict_get source_id team_id_map) with
  | None =>
      if decide (source_id ∈ teams_without_id) then ([], teams_without_id)
      else ([Warn (NoTeamId source_id season)], {[source_id]} ∪ teams_without_id)
  | Some team_id =>
      (resolved_script data source_id team_id season team_entries, teams_without_id)
  end.

Definition season_script (data : gmap Z (list team)) (team_id_map : dict string Z)
    (season : Z) (teams_without_id : gset string) : list action * gset string :=
  match data !! season with
  | None => ([], teams_without_id)
  | Some teams =>
      fold_script (team_script data team_id_map season) (group_by_source teams)
        teams_without_id
  end.

Definition build_script (data : gmap Z (list team)) (team_id_map : dict string Z)
    : list action :=
  (fold_script (season_script data team_id_map) (range_down 2025 1924) ∅).1.

(** What a script asks to insert, and what it warns about. *)
Definition action_request (a : action) : option request :=
  match a with
  | Insert _ team_id season conference_id =>
      Some (InsertHistory (HistoryRow team_id season conference_id true))
  | _ => None
  end.
Definition action_warning (a : action) : option message :=
  match a with Warn m => Some m | _ => None end.
Definition script_rows (script : list action) : list history_row :=
  omap inserted_row (omap action_request script).

(** The rows the resolver asks to insert for a team with a key in a season
    with data. *)
Definition resolved_rows (data : gmap Z (list team)) (source_id : string)
    (team_id season : Z) : list history_row :=
  match data !! season with
  | Some teams =>
      match entries_of source_id teams with
      | [] => []
      | entries => script_rows (resolved_script data source_id team_id season entries)
      end
  | None => []
  end.
Definition is_fail (a : action) : Prop :=
  match a with Fail _ => True | _ => False end.

Global Instance is_fail_dec a : Decision (is_fail a).
Proof. destruct a; simpl; apply _. Defined.

(** The answer the loop keeps for a season: a failed fetch and an empty
    list both leave the season out. *)
Definition kept (answer : option (list team)) : option (list team) :=
  match answer with
  | Some (t :: teams) => Some (t :: teams)
  | _ => None
  end.

(** The warning logged for a source id without a key. *)
Definition is_no_team_id (source_id : string) (m : message) : Prop :=
  match m with
  | NoTeamId source_id' _ => source_id' = source_id
  | _ => False
  end.

Global Instance is_no_team_id_dec source_id m : Decision (is_no_team_id source_id m).
Proof. destruct m; simpl; apply _. Defined.

(** How often a script warns that [source_id] has no key. *)
Definition no_team_id_count (source_id : string) (script : list action) : nat :=
  length (filter (is_no_team_id source_id) (omap action_warning script)).

(** An action of the team [source_id] with key [team_id] in [season]:
    its inserts carry that key and it never warns about a missing key. *)
Definition resolved_action (source_id : string) (team_id season : Z) (a : action) : Prop :=
  match a with
  | Insert source_id' team_id' season' _ =>
      source_id' = source_id ∧ team_id' = team_id ∧ season' = season
  | Warn (NoTeamId _ _) => False
  | _ => True
  end.

(** An insert of the script is for a source id that has a key and is
    reported in the season of the insert. *)
Definition insert_of_mapped (data : gmap Z (list team)) (team_id_map : dict string Z)
    (a : action) : Prop :=
  match a with
  | Insert source_id team_id season _ =>
      truthy_id (dict_get source_id team_id_map) = Some team_id ∧
      ∃ entries, reported data source_id season entries ∧ entries ≠ []
  | _ => True
  end.

(** ** The gap filler as a list of seasons to fill *)

Definition gaps_of (data : gmap Z (list team)) (item : Z * string) : list (Z * Z) :=
  let '(team_id, source_id) := item in
  let appeared := seasons_appeared source_id data in
  match list_min appeared, list_max appeared with
  | Some first_season, Some last_season =>
      (λ season, (team_id, season)) <$>
        filter (λ season, season ∉ appeared) (range first_season (last_season + 1))
  | _, _ => []
  end.

Definition gap_candidates (data : gmap Z (list team)) (team_id_map : dict string Z)
    : list (Z * Z) :=
  reverse_map team_id_map ≫= gaps_of data.

Definition placeholder (key : Z * Z) : history_row :=
  HistoryRow key.1 key.2 None false.

(** The position of a season in the loop of phase 1, counted from the
    requests already sent. *)
Definition fetch_time (w : world) (season : Z) : nat :=
  (length (sent w) + Z.to_nat (season - 1925))%nat.

(** The run is past startup: the API answered the first request and the
    datastore the call that follows it. *)
Definition past_startup (env : environment) (w : world) : Prop :=
  conferences_endpoint env (length (sent w)) ≠ None ∧
  ∀ r, datastore_down env (S (length (sent w))) r = false.

(** The queries that [get_team_id_map] and [validate_data] send without a
    guard. *)
Definition unguarded_queries : list request :=
  [SelectTeams; SelectHistoryConferences; SelectConferences; SelectGapRecords;
   CountTeams; CountHistory].

(** Every team the API returns carries a conference id. *)
Definition conferences_known (env : environment) : Prop :=
  ∀ n season teams t,
    teams_endpoint env n season = Some teams → t ∈ teams → conferenceId t ≠ None.

(** ** A small run

    Team T (key 10) reports conferences 1 and 2 in 2010 and conference 1
    alone in 2011 and 2012. Team V (key 30) reports conferences 4 and 3 in
    2009 and is gone in 2010. Team D (key 40) reports conference 6 twice in
    2010 and once in 2011. Team G (key 50) plays in 2008 and 2012 only.
    Team U has no key. *)
Definition example_team (source_id : string) (conference_id : Z) : team :=
  Team (Some source_id) (Some conference_id) None.

Definition example_data : gmap Z (list team) :=
  <[2008 := [example_team "G" 7]]>
  (<[2009 := [example_team "V" 4; example_team "V" 3]]>
  (<[2010 := [example_team "T" 1; example_team "D" 6; example_team "T" 2;
              example_team "U" 5; example_team "D" 6]]>
  (<[2011 := [example_team "T" 1; example_team "U" 5; example_team "D" 6]]>
  (<[2012 := [example_team "T" 1; example_team "G" 7]]> ∅)))).

Definition example_map : dict string Z :=
  [("T", 10); ("V", 30); ("D", 40); ("G", 50)].

(** An API that serves [example_data] and a datastore that answers. *)
Definition example_env : environment :=
  Environment (λ _, Some [Conference 1 "One"])
    (λ _ season, Some (default [] (example_data !! season)))
    (λ _ _, false)
    (λ rows, 1 + Z.of_nat (length rows)).

(** The same API, except that the fetch of 2010 fails. *)
Definition example_env_2010_down : environment :=
  Environment (λ _, Some [Conference 1 "One"])
    (λ _ season, if decide (season = 2010) then None
                 else Some (default [] (example_data !! season)))
    (λ _ _, false)
    (λ rows, 1 + Z.of_nat (length rows)).

(** The same API, with a datastore that, once the run has started, rejects
    the query of [get_team_id_map] and answers every other call. *)
Definition example_env_select_down : environment :=
  Environment (λ _, Some [Conference 1 "One"])
    (λ _ season, Some (default [] (example_data !! season)))
    (λ n r, bool_decide (r = SelectTeams ∧ (2 ≤ n)%nat))
    (λ rows, 1 + Z.of_nat (length rows)).

Definition example_world : world :=
  World [] [] [HistoryRow 10 1999 None false] [] (MkLogger [] [] ∅).

Definition example_resolved : world :=
  (build_conference_history example_env example_data example_map example_world).2.

Definition example_filled : world :=
  (fill_gap_years example_env example_data example_map example_resolved).2.

Definition example_aborted : world :=
  (main example_env_select_down example_world).2.

(** * Vocabulary of the further properties *)

(** The value of a counter of the logger ([Logger.stats[key]], 0 when the
    key was never counted). *)
Definition counter (key : string) (w : world) : nat :=
  default 0%nat (stats (logger w) !! key).

(** The table of conferences after the upsert of [conf] has reached
    it. *)
Definition apply_conference (rows : list conference) (conf : conference)
    : list conference :=
  upsert_conference_row conf rows.

(** The identity of a row of [teams]: its key and its source id. *)
Definition row_identity (r : team_row) : Z * option string :=
  (t_id r, t_source_id r).

(** The body of the loop of [upsert_teams]. *)
Definition upsert_one_team (env : environment) (item : string * (Z * team)) : M unit :=
  let '(source_id, (last_season, team)) := item in
  stat "teams_processed" ;;
  try_except
    (upsert_team env source_id (school team) last_season ;;
     stat "teams_successful")
    (λ _, error (UpsertTeamFailed (school team) source_id) ;;
          stat "teams_failed").

(** The request that [upsert_teams] sends for an entry of [all_teams_map]. *)
Definition upsert_request (item : string * (Z * team)) : request :=
  UpsertTeam item.1 (school item.2.2) item.2.1.

(** The table of teams after the upsert of one entry of [all_teams_map]
    has reached it. *)
Definition apply_upsert (env : environment) (rows : list team_row)
    (item : string * (Z * team)) : list team_row :=
  upsert_team_row env item.1 (school item.2.2) item.2.1 rows.

(** The datastore generates keys that are not 0 and not in use. *)
Definition fresh_keys (env : environment) : Prop :=
  ∀ rows, next_team_id env rows ≠ 0 ∧ next_team_id env rows ∉ t_id <$> rows.

(** The rows of [teams] that carry a source id. *)
Definition rows_of_source (source_id : string) (rows : list team_row) : list team_row :=
  filter (λ r, t_source_id r = Some source_id) rows.

(** [t] is the entry of [source_id] that phase 1 keeps: the first entry of
    the team in the latest season [s] in which it has one. *)
Definition latest_entry (data : gmap Z (list team)) (source_id : string)
    (s : Z) (t : team) : Prop :=
  source_id ≠ "" ∧
  (∃ teams, data !! s = Some teams ∧ head (entries_of source_id teams) = Some t) ∧
  ∀ s' teams', data !! s' = Some teams' → entries_of source_id teams' ≠ [] → s' ≤ s.

(** The key of a history record, and the invariant of the table. *)
Definition history_key (r : history_row) : Z * Z := (h_team_id r, h_season r).

Definition unique_keys (rows : list history_row) : Prop :=
  NoDup (history_key <$> rows).

(** The action counts under [key]. *)
Definition is_count (key : string) (a : action) : Prop :=
  match a with Count key' => key' = key | _ => False end.

(** The history the resolver starts from: empty when the clearing went
    through, the stale table when it failed. *)
Definition cleared (env : environment) (w : world) : list history_row :=
  if datastore_down env (length (sent w)) DeleteHistory then tbl_history w else [].

(** The errors logged for an insert of the resolver. *)
Definition is_insert_failure (m : message) : Prop :=
  match m with InsertHistoryFailed _ _ => True | _ => False end.

Global Instance is_insert_failure_dec m : Decision (is_insert_failure m).
Proof. destruct m; simpl; apply _. Defined.

(** An insert of the script carries the key of its source id, for a season
    in which the team is reported, and a conference id that one of the
    entries of the team in that season reports. *)
Definition insert_reported (data : gmap Z (list team)) (team_id_map : dict string Z)
    (a : action) : Prop :=
  match a with
  | Insert source_id team_id season conference_id =>
      truthy_id (dict_get source_id team_id_map) = Some team_id ∧
      ∃ entries, reported data source_id season entries ∧
        conference_id ∈ conferenceId <$> entries
  | _ => True
  end.

(** The query the gap filler sends for a key. *)
Definition gap_query (key : Z * Z) : request := SelectHistory key.1 key.2.

(** The queries of [validate_data], in the order it sends them. *)
Definition validation_queries : list request :=
  [SelectHistoryConferences; SelectConferences; SelectGapRecords; CountTeams;
   CountHistory].

(** A conference id of the history that the table of conferences lacks. *)
Definition orphan (w : world) (c : Z) : Prop :=
  (∃ row, row ∈ tbl_history w ∧ h_conference_id row = Some c) ∧
  ∀ conf, conf ∈ tbl_conferences w → conf_id conf ≠ c.

(** A duplicate that the fallback cannot sort: a team with a key reports
    several entries in a season, no eventual conference is found, and one of
    the entries has no conference id. *)
Definition null_duplicate (data : gmap Z (list team)) (team_id_map : dict string Z) : Prop :=
  ∃ season sid tid entries,
    reported data sid season entries ∧ sid ≠ "" ∧
    truthy_id (dict_get sid team_id_map) = Some tid ∧
    (2 ≤ length entries)%nat ∧
    find_eventual_conference sid season data = None ∧
    None ∈ conferenceId <$> entries.

Definition fail_justified (data : gmap Z (list team)) (team_id_map : dict string Z)
    (a : action) : Prop :=
  match a with
  | Fail e => e = TypeError ∧ null_duplicate data team_id_map
  | _ => True
  end.

(** A warning about a missing key is for a source id that is reported in
    that season and has no usable key. *)
Definition warn_justified (data : gmap Z (list team)) (team_id_map : dict string Z)
    (a : action) : Prop :=
  match a with
  | Warn (NoTeamId sid s) =>
      sid ≠ "" ∧ truthy_id (dict_get sid team_id_map) = None ∧
      ∃ teams, data !! s = Some teams ∧ entries_of sid teams ≠ []
  | _ => True
  end.

(** ** Further small runs *)

(** An API whose conferences endpoint fails. *)
Definition example_env_api_down : environment :=
  Environment (λ _, None)
    (λ _ season, Some (default [] (example_data !! season)))
    (λ _ _, false)
    (λ rows, 1 + Z.of_nat (length rows)).

(** What phase 1 keeps of [example_data] for the teams T and G. *)
Definition example_teams_map : dict string (Z * team) :=
  [("T", (2012, example_team "T" 1)); ("G", (2012, example_team "G" 7))].

(** A datastore that answers every call and numbers the teams serially,
    from the largest key in use. *)
Definition example_env_serial : environment :=
  Environment (λ _, Some [Conference 1 "One"])
    (λ _ season, Some (default [] (example_data !! season)))
    (λ _ _, false)
    (λ rows, 1 + foldr Z.max 0 (t_id <$> rows)).

(** A datastore that rejects the clearing of the history and answers every
    other call. *)
Definition example_env_clear_down : environment :=
  Environment (λ _, Some [Conference 1 "One"])
    (λ _ season, Some (default [] (example_data !! season)))
    (λ _ r, bool_decide (r = DeleteHistory))
    (λ rows, 1 + Z.of_nat (length rows)).

(** A table of teams in which the source id T occurs twice, and a history
    with a stale record for T in 2011. *)
Definition example_teams_world : world :=
  World [] [TeamRow 1 (Some "T") None 2012; TeamRow 2 None None 2000;
            TeamRow 3 (Some "T") None 2011]
    [] [] (MkLogger [] [] ∅).

Definition example_stale_world : world :=
  World [] [] [HistoryRow 10 2011 (Some 9) true] [] (MkLogger [] [] ∅).

Definition example_stale_resolved : world :=
  (build_conference_history example_env_clear_down example_data example_map
     example_stale_world).2.

Definition example_upserted : world :=
  (upsert_teams example_env_serial example_teams_map example_world).2.

Definition example_collected : world :=
  (collect_all_seasons_data example_env example_world).2.

Definition example_collected_data : gmap Z (list team) * dict string (Z * team) :=
  match (collect_all_seasons_data example_env example_world).1 with
  | Ok collected => collected
  | Raise _ => (∅, [])
  end.

Definition example_stored : world :=
  (upsert_teams example_env example_collected_data.2 example_collected).2.

Definition example_healthy : world :=
  (main example_env_serial example_world).2.

(** Team T reports conferences 2 and 1 in the last season. *)
Definition example_data_2025 : gmap Z (list team) :=
  <[2025 := [example_team "T" 2; example_team "T" 1]]> ∅.

Definition example_resolved_2025 : world :=
  (build_conference_history example_env example_data_2025 example_map example_world).2.

(** Team T reports a null conference id among its duplicates of 2010. *)
Definition example_data_null : gmap Z (list team) :=
  <[2010 := [Team (Some "T") None None; example_team "T" 1]]> ∅.

(** * Vocabulary of the failures *)

(** In a script, the inserts of [season] carry the key [team_id] exactly
    when they are for [source_id]. *)
Definition key_source (source_id : string) (team_id season : Z) (a : action) : Prop :=
  match a with
  | Insert source_id' team_id' season' _ =>
      season' = season → (source_id' = source_id ↔ team_id' = team_id)
  | _ => True
  end.

(** The errors that the rejected inserts of a team in a season leave in the
    log. *)
Definition insert_failures (source_id : string) (season : Z) (errs : list message)
    : list message :=
  filter (λ m, m = InsertHistoryFailed source_id season) errs.

(** The API or the datastore rejects the request [r] sent at time [n]. *)
Definition rejected_at (env : environment) (n : nat) (r : request) : bool :=
  match r with
  | GetConferences =>
      match conferences_endpoint env n with None => true | Some _ => false end
  | GetTeams season =>
      match teams_endpoint env n season with None => true | Some _ => false end
  | _ => datastore_down env n r
  end.

(** How many of the requests [l], sent from time [n] on, are rejected. *)
Fixpoint rejected (env : environment) (n : nat) (l : list request) : nat :=
  match l with
  | [] => 0
  | r :: l' => ((if rejected_at env n r then 1 else 0) + rejected env (S n) l')%nat
  end.

(** Between [w] and [w'] every rejected request is answered by an error in
    the log, and the fatal error is not logged. *)
Definition accounted (env : environment) (w w' : world) : Prop :=
  ∃ l errs,
    sent w' = sent w ++ l ∧ errors (logger w') = errors (logger w) ++ errs ∧
    (rejected env (length (sent w)) l ≤ length errs)%nat ∧ FatalError ∉ errs.

(** The run reaches the resolver with snapshots and a mapping that hold a
    duplicate the fallback cannot sort. *)
Definition run_null_duplicate (env : environment) (w : world) : Prop :=
  ∃ conferences w0 w1 data all_teams_map w2 w3 team_id_map w4,
    fetch_conferences env w = (Ok conferences, w0) ∧
    upsert_conferences env conferences w0 = (Ok tt, w1) ∧
    collect_all_seasons_data env w1 = (Ok (data, all_teams_map), w2) ∧
    upsert_teams env all_teams_map w2 = (Ok tt, w3) ∧
    get_team_id_map env w3 = (Ok team_id_map, w4) ∧
    null_duplicate data team_id_map.

(** ** Small runs with failures *)

(** Team T reports conferences 1, 2 and 3 in 2010 and conference 1 alone in
    2011. *)
Definition example_data_three : gmap Z (list team) :=
  <[2010 := [example_team "T" 1; example_team "T" 2; example_team "T" 3]]>
  (<[2011 := [example_team "T" 1]]> ∅).

Definition example_resolved_three : world :=
  (build_conference_history example_env example_data_three example_map example_world).2.

(** The snapshots that matter to the forward scan for T from 2010 are
    those of [example_data]; the other teams, the season 2010 and a season
    after 2025 differ. *)
Definition example_data_others : gmap Z (list team) :=
  <[2010 := [example_team "Z" 9]]>
  (<[2011 := [example_team "Z" 9; example_team "T" 1]]>
  (<[2012 := [example_team "T" 1]]>
  (<[2030 := [example_team "T" 5; example_team "T" 6]]> ∅))).

(** An API that fails the fetch of 2010 and a datastore that rejects every
    guarded call made at an even time and answers the queries sent without
    a guard. *)
Definition example_env_flaky : environment :=
  Environment (λ _, Some [Conference 1 "One"; Conference 2 "Two"])
    (λ _ season, if decide (season = 2010) then None
                 else Some (default [] (example_data !! season)))
    (λ n r, if decide (r ∈ unguarded_queries) then false else Nat.even n)
    (λ rows, 1 + Z.of_nat (length rows)).

Definition example_flaky : world :=
  (main example_env_flaky example_world).2.

(** * Properties *)

(** ** The forward scan *)

Lemma scan_future_seqZ sid data n m c :
  scan_future sid data (seqZ m (Z.of_nat n)) = Some c ↔
  ∃ f teams t, m ≤ f < m + Z.of_nat n ∧ data !! f = Some teams ∧
    entries_of sid teams = [t] ∧ conferenceId t = Some c ∧
    passed_over sid data m f.
Proof.
  revert m. induction n as [|n IH]; intros m.
  - simpl. split; [done|]. intros (f & ? & ? & ? & _). lia.
  - rewrite seqZ_cons by lia.
    replace (Z.pred (Z.of_nat (S n))) with (Z.of_nat n) by lia.
    cbn [scan_future]. split.
    + destruct (data !! m) as [teams|] eqn:Hm.
      * destruct (entries_of sid teams) as [|t [|t' rest]] eqn:He.
        -- done.
        -- intros Hc. exists m, teams, t. repeat split; try done; try lia.
           intros s ? ?. lia.
        -- intros (f & teams' & t0 & Hf & Hd & He' & Hc & Hp)%IH.
           exists f, teams', t0. repeat split; try done; try lia.
           intros s ts Hs Hds. destruct (decide (s = m)) as [->|].
           ++ rewrite Hm in Hds. injection Hds as <-. rewrite He. simpl. lia.
           ++ apply (Hp s ts); [lia|done].
      * intros (f & teams' & t0 & Hf & Hd & He' & Hc & Hp)%IH.
        exists f, teams', t0. repeat split; try done; try lia.
        intros s ts Hs Hds. destruct (decide (s = m)) as [->|].
        ++ congruence.
        ++ apply (Hp s ts); [lia|done].
    + intros (f & teams & t & Hf & Hd & He & Hc & Hp).
      destruct (decide (f = m)) as [->|Hne].
      * rewrite Hd, He. done.
      * assert (Hrest : scan_future sid data (seqZ (Z.succ m) (Z.of_nat n)) = Some c).
        { apply IH. exists f, teams, t. repeat split; try done; try lia.
          intros s ts Hs. apply Hp. lia. }
        destruct (data !! m) as [teams0|] eqn:Hm; [|done].
        specialize (Hp m teams0 ltac:(lia) Hm).
        destruct (entries_of sid teams0) as [|? [|? ?]]; simpl in Hp; [lia|lia|done].
Qed.

(** C3 (as amended). The scan returns conference [c] exactly when some
    season [f] in (start, 2025] has data in which the team has a single
    entry, of conference [c], and in every season with data strictly
    between the team has at least two entries. In every other case (the
    first season with data in which the team is not duplicated lacks the
    team, the duplicates last through 2025, or the single entry has no
    conference id) the scan returns nothing. *)
Theorem find_eventual_conference_first_single sid start data c :
  find_eventual_conference sid start data = Some c ↔
  ∃ f teams t, start < f ≤ 2025 ∧ data !! f = Some teams ∧
    entries_of sid teams = [t] ∧ conferenceId t = Some c ∧
    passed_over sid data (start + 1) f.
Proof.
  unfold find_eventual_conference, range.
  destruct (decide (start < 2025)) as [Hlt|Hge].
  - replace (2026 - (start + 1)) with (Z.of_nat (Z.to_nat (2025 - start))) by lia.
    rewrite scan_future_seqZ. split.
    + intros (f & teams & t & Hf & H). exists f, teams, t. split; [lia|done].
    + intros (f & teams & t & Hf & H). exists f, teams, t. split; [lia|done].
  - rewrite seqZ_nil by lia. simpl. split; [done|].
    intros (f & ? & ? & ? & _). lia.
Qed.

(** C3 (as stated) fails: the team below is duplicated in 2010, absent from
    the data of 2011 and back with a single conference in 2012. The first
    future season with exactly one conference is 2012, yet the scan stops at
    2011 and returns nothing, although the team has not left the data. *)
Lemma find_eventual_conference_stops_at_absence :
  ¬ (∀ sid start data f teams t,
       (∃ teams0, data !! start = Some teams0 ∧
          (2 ≤ length (entries_of sid teams0))%nat) →
       start < f ≤ 2025 → data !! f = Some teams → entries_of sid teams = [t] →
       (∀ s teams', start < s < f → data !! s = Some teams' →
          length (entries_of sid teams') ≠ 1%nat) →
       find_eventual_conference sid start data = conferenceId t).
Proof.
  intros H.
  pose (T c := Team (Some "T") (Some c) None).
  pose (data := (<[2010 := [T 1; T 2]]>
                 (<[2011 := [Team (Some "U") (Some 1) None]]>
                 (<[2012 := [T 7]]> ∅))) : gmap Z (list team)).
  specialize (H "T" 2010 data 2012 [T 7] (T 7)).
  assert (Hres : find_eventual_conference "T" 2010 data = None) by (by vm_compute).
  rewrite Hres in H. discriminate H.
  - exists [T 1; T 2]. split; [by vm_compute | simpl; lia].
  - lia.
  - by vm_compute.
  - by vm_compute.
  - intros s teams' Hs Hd. assert (s = 2011) as -> by lia.
    vm_compute in Hd. injection Hd as <-. vm_compute. lia.
Qed.

(** ** Loops and scripts *)

Lemma bind_assoc {A B C} (m : M A) (k : A → M B) (h : B → M C) w :
  bind (bind m k) h w = bind m (λ a, bind (k a) h) w.
Proof. unfold bind. destruct (m w) as [[a|e] w1]; [|done]. done. Qed.

Lemma bind_ext {A B} (m m' : M A) (k k' : A → M B) w :
  m w = m' w → (∀ a w1, k a w1 = k' a w1) → bind m k w = bind m' k' w.
Proof. intros Hm Hk. unfold bind. rewrite Hm. destruct (m' w) as [[a|e] w1]; auto. Qed.

Lemma for_each_ext {A} (l : list A) (body body' : A → M unit) w :
  (∀ x w1, body x w1 = body' x w1) → for_each l body w = for_each l body' w.
Proof.
  intros Hb. revert w. induction l as [|x l IH]; intros w; [done|].
  simpl. apply bind_ext; auto.
Qed.

Lemma for_each_fmap {A B} (f : A → B) (l : list A) (body : B → M unit) w :
  for_each (f <$> l) body w = for_each l (λ x, body (f x)) w.
Proof.
  revert w. induction l as [|x l IH]; intros w; [done|].
  simpl. apply bind_ext; auto.
Qed.

Lemma for_each_app {A} (l1 l2 : list A) (body : A → M unit) w :
  for_each (l1 ++ l2) body w = bind (for_each l1 body) (λ _, for_each l2 body) w.
Proof.
  revert w. induction l1 as [|x l1 IH]; intros w; simpl.
  - done.
  - rewrite bind_assoc. apply bind_ext; auto.
Qed.

Lemma for_each_bind {A B} (l : list A) (f : A → list B) (body : B → M unit) w :
  for_each (l ≫= f) body w = for_each l (λ x, for_each (f x) body) w.
Proof.
  revert w. induction l as [|x l IH]; intros w; [done|].
  cbn [mbind list_bind for_each]. rewrite for_each_app.
  apply bind_ext; auto.
Qed.

Lemma run_script_app env s1 s2 w :
  run_script env (s1 ++ s2) w = bind (run_script env s1) (λ _, run_script env s2) w.
Proof. apply for_each_app. Qed.

(** A loop whose body is a script is the script of the loop. *)
Lemma for_fold_script {A S} env (body : A → S → M S) (f : A → S → list action * S)
    (l : list A) (s : S) w :
  (∀ x s w, body x s w = bind (run_script env (f x s).1) (λ _, ret (f x s).2) w) →
  for_fold l s body w =
  bind (run_script env (fold_script f l s).1) (λ _, ret (fold_script f l s).2) w.
Proof.
  intros Hbody. revert s w. induction l as [|x l IH]; intros s w; [done|].
  cbn [for_fold fold_script].
  destruct (f x s) as [a s'] eqn:Hf.
  destruct (fold_script f l s') as [b s''] eqn:Hrest. cbn [fst snd].
  transitivity (bind (bind (run_script env a) (λ _, run_script env b)) (λ _, ret s'') w).
  2:{ apply bind_ext; [symmetry; apply run_script_app | done]. }
  rewrite bind_assoc. unfold bind at 1. rewrite Hbody, Hf. cbn [fst snd].
  unfold bind at 1 2.
  destruct (run_script env a w) as [[[]|e] w1]; [|done].
  unfold ret at 1. rewrite IH, Hrest. done.
Qed.

Lemma resolve_team_script env data team_id_map season item without w :
  resolve_team env data team_id_map season item without w =
  bind (run_script env (team_script data team_id_map season item without).1)
       (λ _, ret (team_script data team_id_map season item without).2) w.
Proof.
  destruct item as [source_id team_entries].
  unfold resolve_team, team_script, resolved_script.
  destruct (truthy_id (dict_get source_id team_id_map)) as [team_id|].
  2:{ destruct (decide (source_id ∈ without)); done. }
  cbn [fst snd]. apply bind_ext; [|done].
  assert (Hdup : ∀ w,
    bind (stat "duplicates_resolved") (λ _,
      match find_eventual_conference source_id season data with
      | Some eventual_conf =>
          match filter (λ c, c ≠ Some eventual_conf) (conferenceId <$> team_entries) with
          | [] => warning (AllMatchEventual source_id season eventual_conf)
          | _ :: _ =>
              for_each (filter (λ c, c ≠ Some eventual_conf) (conferenceId <$> team_entries))
                (insert_resolved env source_id team_id season)
          end
      | None =>
          bind (warning (NoEventual source_id season)) (λ _,
            bind (lift_result (sort_conferences (conferenceId <$> team_entries))) (λ sorted,
              match sorted with
              | [] => raise IndexError
              | conference_id :: _ => insert_resolved env source_id team_id season conference_id
              end))
      end) w =
    run_script env (duplicate_script data source_id team_id season team_entries) w).
  { intros w0. unfold duplicate_script, run_script. cbn [for_each run_action].
    apply bind_ext; [done|]. intros _ w1.
    destruct (find_eventual_conference source_id season data) as [ev|].
    - destruct (filter _ _) as [|c cs] eqn:Hflt.
      + simpl. unfold bind. by destruct (warning _ w1) as [[[]|] ?].
      + rewrite for_each_fmap. done.
    - cbn [for_each run_action]. apply bind_ext; [done|]. intros _ w2.
      unfold bind at 1, lift_result.
      destruct (sort_conferences _) as [[|c cs]|e]; simpl.
      + done.
      + unfold bind. by destruct (insert_resolved _ _ _ _ _ w2) as [[[]|] ?].
      + done. }
  destruct team_entries as [|entry [|entry' rest]].
  - apply Hdup.
  - unfold run_script. simpl. unfold bind.
    by destruct (insert_resolved _ _ _ _ _ w) as [[[]|] ?].
  - apply Hdup.
Qed.

Lemma build_conference_history_script env data team_id_map w :
  build_conference_history env data team_id_map w =
  bind (try_except (delete_history env) (λ _, error ClearHistoryFailed))
       (λ _, run_script env (build_script data team_id_map)) w.
Proof.
  unfold build_conference_history, build_script.
  apply bind_ext; [done|]. intros _ w1.
  unfold bind at 1.
  rewrite (for_fold_script env _ (season_script data team_id_map)).
  - unfold bind. by destruct (run_script _ _ w1) as [[[]|] ?].
  - intros season without w2. unfold season_script.
    destruct (data !! season) as [teams|]; [|done].
    apply for_fold_script. intros. apply resolve_team_script.
Qed.

(** ** What one guarded insert does *)

Ltac unfold_prims :=
  unfold insert_resolved, fill_gap, insert_history, select_history, delete_history,
    call_datastore, send, try_except, bind, ret, raise, warning, error, stat,
    set_history, set_sent, set_logger in *; cbn [sent tbl_history tbl_teams
    tbl_conferences logger warnings errors stats] in *.

Lemma insert_resolved_run env source_id team_id season conference_id w :
  let row := HistoryRow team_id season conference_id true in
  ∃ w', insert_resolved env source_id team_id season conference_id w = (Ok tt, w') ∧
    sent w' = sent w ++ [InsertHistory row] ∧
    warnings (logger w') = warnings (logger w) ∧
    tbl_teams w' = tbl_teams w ∧ tbl_conferences w' = tbl_conferences w ∧
    (tbl_history w' = tbl_history w ∨ tbl_history w' = add_row (tbl_history w) row) ∧
    (datastore_down env (length (sent w)) (InsertHistory row) = false →
       tbl_history w' = add_row (tbl_history w) row).
Proof.
  intros row. unfold_prims. unfold add_row, rows_for. cbn [h_team_id h_season row].
  destruct (datastore_down env _ _); cbn.
  - eexists. split; [done|]. cbn. repeat split; auto. intros; done.
  - destruct (filter _ (tbl_history w)) eqn:Hr; cbn;
      (eexists; split; [done|]); cbn; repeat split; auto.
Qed.

(** ** What a script does *)

Lemma run_script_cons env a script w :
  run_script env (a :: script) w = bind (run_action env a) (λ _, run_script env script) w.
Proof. done. Qed.

(** Only [Fail] raises: a run that raises stopped at a [Fail], after
    performing the actions before it. *)
Lemma run_script_raise env script w e w' :
  run_script env script w = (Raise e, w') →
  ∃ done_ rest, script = done_ ++ Fail e :: rest ∧ run_script env done_ w = (Ok tt, w').
Proof.
  revert w. induction script as [|a script IH]; intros w; [done|].
  rewrite run_script_cons. unfold bind at 1.
  destruct (run_action env a w) as [[[]|e0] w1] eqn:Ha.
  - intros (d & r & -> & Hd)%IH. exists (a :: d), r. split; [done|].
    rewrite run_script_cons. unfold bind. by rewrite Ha.
  - intros [= -> ->]. destruct a; cbn in Ha.
    + unfold_prims. done.
    + unfold_prims. done.
    + destruct (insert_resolved_run env source_id team_id season conference_id w)
        as (? & Hrun & _). congruence.
    + unfold raise in Ha. injection Ha as -> ->. by exists [], script.
Qed.

Lemma run_script_ok_no_fail env script w w' :
  run_script env script w = (Ok tt, w') → Forall (λ a, ¬ is_fail a) script.
Proof.
  revert w. induction script as [|a script IH]; intros w; [by constructor|].
  rewrite run_script_cons. unfold bind at 1.
  destruct (run_action env a w) as [[[]|e0] w1] eqn:Ha; [|done].
  intros Hrest. constructor; [|by eapply IH].
  destruct a; cbn; auto. by unfold raise in Ha.
Qed.

Lemma run_script_total env script w :
  Forall (λ a, ¬ is_fail a) script → ∃ w', run_script env script w = (Ok tt, w').
Proof.
  intros Hs. revert w. induction Hs as [|a script Ha _ IH]; intros w.
  - by eexists.
  - rewrite run_script_cons. unfold bind at 1.
    assert (∃ w1, run_action env a w = (Ok tt, w1)) as [w1 ->].
    { destruct a; cbn in *; [by eexists | by eexists | | done].
      destruct (insert_resolved_run env source_id team_id season conference_id w)
        as (? & ? & _). eauto. }
    apply IH.
Qed.

(** The requests and the warnings of a completed run are those of its
    script; the other tables are untouched. *)
Lemma run_script_ok env script w w' :
  run_script env script w = (Ok tt, w') →
  sent w' = sent w ++ omap action_request script ∧
  warnings (logger w') = warnings (logger w) ++ omap action_warning script ∧
  tbl_teams w' = tbl_teams w ∧ tbl_conferences w' = tbl_conferences w.
Proof.
  revert w. induction script as [|a script IH]; intros w.
  - intros [= <-]. by rewrite !app_nil_r.
  - rewrite run_script_cons. unfold bind at 1.
    destruct (run_action env a w) as [[[]|e0] w1] eqn:Ha; [|done].
    intros (Hs & Hw & Ht & Hc)%IH. rewrite Hs, Hw, Ht, Hc. clear IH Hs Hw Ht Hc.
    destruct a; cbn in Ha.
    + unfold_prims. injection Ha as <-. cbn. by rewrite <- app_assoc.
    + unfold_prims. injection Ha as <-. cbn. done.
    + destruct (insert_resolved_run env source_id team_id season conference_id w)
        as (w2 & Hrun & Hs & Hw & Ht & Hc & _).
      rewrite Hrun in Ha. injection Ha as <-. rewrite Hs, Hw, Ht, Hc. cbn.
      by rewrite <- app_assoc.
    + done.
Qed.

(** With the datastore up, the table after a completed run is the table
    before with the rows of the script added in order. *)
Lemma run_script_history env script w w' :
  datastore_up env →
  run_script env script w = (Ok tt, w') →
  tbl_history w' = foldl add_row (tbl_history w) (script_rows script).
Proof.
  intros Hup. revert w. induction script as [|a script IH]; intros w.
  - by intros [= <-].
  - rewrite run_script_cons. unfold bind at 1.
    destruct (run_action env a w) as [[[]|e0] w1] eqn:Ha; [|done].
    intros ->%IH. clear IH.
    destruct a; cbn in Ha.
    + unfold_prims. by injection Ha as <-.
    + unfold_prims. by injection Ha as <-.
    + destruct (insert_resolved_run env source_id team_id season conference_id w)
        as (w2 & Hrun & _ & _ & _ & _ & _ & Hh).
      rewrite Hrun in Ha. injection Ha as <-. rewrite Hh by apply Hup. done.
    + done.
Qed.

(** ** Dictionaries *)

Section dict_facts.
Context {K V : Type} `{EqDecision K}.
Implicit Types (k : K) (v : V) (d : dict K V).

Lemma dict_get_set_eq k v d : dict_get k (dict_set k v d) = Some v.
Proof.
  induction d as [|[k' v'] d IH]; simpl.
  - by rewrite decide_True.
  - destruct (decide (k' = k)); simpl.
    + by rewrite decide_True.
    + by rewrite decide_False.
Qed.

Lemma dict_get_set_ne k k' v d : k ≠ k' → dict_get k' (dict_set k v d) = dict_get k' d.
Proof.
  intros Hne. induction d as [|[k0 v0] d IH]; simpl.
  - by rewrite decide_False.
  - destruct (decide (k0 = k)) as [->|]; simpl.
    + by rewrite !decide_False.
    + destruct (decide (k0 = k')); done.
Qed.

Lemma dict_get_None k d : dict_get k d = None ↔ k ∉ d.*1.
Proof.
  induction d as [|[k0 v0] d IH]; simpl.
  - split; [intros _; apply not_elem_of_nil | done].
  - rewrite not_elem_of_cons. destruct (decide (k0 = k)) as [->|Hne].
    + split; [done | intros [? _]; done].
    + rewrite IH. split; [intros; split; [congruence | done] | intros [_ ?]; done].
Qed.

Lemma dict_get_Some_elem_of k v d : dict_get k d = Some v → (k, v) ∈ d.
Proof.
  induction d as [|[k0 v0] d IH]; simpl; [done|].
  destruct (decide (k0 = k)) as [->|].
  - intros [= ->]. left.
  - intros. right. auto.
Qed.

Lemma dict_elem_of_get k v d : NoDup d.*1 → (k, v) ∈ d → dict_get k d = Some v.
Proof.
  induction d as [|[k0 v0] d IH]; simpl.
  - intros _ []%elem_of_nil.
  - intros [Hk0 Hd]%NoDup_cons [[= -> ->]|Hin]%elem_of_cons.
    + by rewrite decide_True.
    + rewrite decide_False; [auto|].
      intros ->. apply Hk0. apply list_elem_of_fmap. by exists (k, v).
Qed.

Lemma dict_set_keys k v d :
  (dict_set k v d).*1 = if decide (k ∈ d.*1) then d.*1 else d.*1 ++ [k].
Proof.
  induction d as [|[k0 v0] d IH].
  - done.
  - cbn [dict_set]. destruct (decide (k0 = k)) as [->|Hne].
    + rewrite !fmap_cons. cbn [fst]. rewrite decide_True; [done | left].
    + rewrite !fmap_cons. cbn [fst]. rewrite IH.
      destruct (decide (k ∈ d.*1)) as [Hin|Hin].
      * rewrite decide_True; [done | by right].
      * rewrite decide_False; [done|]. rewrite not_elem_of_cons. done.
Qed.

Lemma dict_set_NoDup k v d : NoDup d.*1 → NoDup (dict_set k v d).*1.
Proof.
  intros Hd. rewrite dict_set_keys. destruct (decide (k ∈ d.*1)); [done|].
  apply NoDup_app. split_and!; [done | | apply NoDup_singleton].
  intros x Hx ->%list_elem_of_singleton. done.
Qed.
End dict_facts.

(** ** Grouping a season by source id *)

Lemma truthy_Some o sid : truthy o = Some sid ↔ o = Some sid ∧ sid ≠ "".
Proof.
  unfold truthy. destruct o as [s|]; [|naive_solver].
  destruct (decide (s = "")) as [->|]; naive_solver.
Qed.

Lemma truthy_id_Some o team_id : truthy_id o = Some team_id ↔ o = Some team_id ∧ team_id ≠ 0.
Proof.
  unfold truthy_id. destruct o as [z|]; [|naive_solver].
  destruct (decide (z = 0)) as [->|]; naive_solver.
Qed.

Lemma entries_of_snoc sid teams t :
  entries_of sid (teams ++ [t]) =
  entries_of sid teams ++ (if decide (sourceId t = Some sid) then [t] else []).
Proof.
  unfold entries_of. by rewrite filter_app.
Qed.

Lemma group_by_source_snoc teams t :
  group_by_source (teams ++ [t]) =
  match truthy (sourceId t) with
  | Some source_id => dict_append source_id t (group_by_source teams)
  | None => group_by_source teams
  end.
Proof. unfold group_by_source. by rewrite foldl_snoc. Qed.

Lemma group_by_source_get teams sid :
  dict_get sid (group_by_source teams) =
  if decide (sid ≠ "" ∧ entries_of sid teams ≠ [])
  then Some (entries_of sid teams) else None.
Proof.
  induction teams as [|t teams IH] using rev_ind.
  - simpl. case_decide as H; [|done]. by destruct H as [_ []].
  - rewrite group_by_source_snoc, entries_of_snoc.
    destruct (truthy (sourceId t)) as [s|] eqn:Ht.
    + apply truthy_Some in Ht as [Hs Hne]. unfold dict_append.
      destruct (decide (s = sid)) as [->|Hsid].
      * rewrite dict_get_set_eq, IH, (decide_True _ _ Hs).
        destruct (decide (sid ≠ "" ∧ entries_of sid teams ++ [t] ≠ [])) as [_|Hn].
        2:{ exfalso. apply Hn. split; [done|]. intros [_ ?]%app_nil. done. }
        f_equal. f_equal. case_decide as H; [done|].
        destruct (entries_of sid teams); [done|]. exfalso. apply H. done.
      * rewrite dict_get_set_ne by done. rewrite IH.
        destruct (decide (sourceId t = Some sid)); [congruence|]. by rewrite app_nil_r.
    + rewrite IH. destruct (decide (sourceId t = Some sid)) as [Hs|]; [|by rewrite app_nil_r].
      assert (sid = "") as ->.
      { destruct (decide (sid = "")) as [|Hne]; [done|].
        assert (truthy (sourceId t) = Some sid) by (by apply truthy_Some). congruence. }
      rewrite !decide_False; [done| |]; intros [? _]; done.
Qed.

Lemma group_by_source_NoDup teams : NoDup (group_by_source teams).*1.
Proof.
  induction teams as [|t teams IH] using rev_ind.
  - constructor.
  - rewrite group_by_source_snoc. destruct (truthy (sourceId t)); [|done].
    by apply dict_set_NoDup.
Qed.

(** The items of [teams_by_source] are the truthy source ids of the season
    with their entries in order. *)
Lemma group_by_source_elem_of teams sid entries :
  (sid, entries) ∈ group_by_source teams ↔
  sid ≠ "" ∧ entries = entries_of sid teams ∧ entries ≠ [].
Proof.
  split.
  - intros Hin. apply dict_elem_of_get in Hin; [|apply group_by_source_NoDup].
    rewrite group_by_source_get in Hin. case_decide as H; [|done].
    injection Hin as <-. naive_solver.
  - intros (Hne & -> & Hnil). apply dict_get_Some_elem_of.
    rewrite group_by_source_get. by rewrite decide_True.
Qed.

(** ** The rows a script asks to insert *)

Lemma script_rows_app a b : script_rows (a ++ b) = script_rows a ++ script_rows b.
Proof. unfold script_rows. by rewrite !omap_app. Qed.

Lemma rows_for_app team_id season a b :
  rows_for team_id season (a ++ b) = rows_for team_id season a ++ rows_for team_id season b.
Proof. apply filter_app. Qed.

Lemma script_rows_inserts source_id team_id season cs :
  script_rows (Insert source_id team_id season <$> cs) =
  (λ c, HistoryRow team_id season c true) <$> cs.
Proof. induction cs as [|c cs IH]; [done|]. cbn. by rewrite <- IH. Qed.

(** A loop of scripts, seen through a map [φ] that respects
    concatenation and does not depend on the carried state. *)
Lemma fold_script_flat {A S B} (φ : list action → list B) (ψ : A → list B)
    (f : A → S → list action * S) (l : list A) (s : S) :
  φ [] = [] → (∀ a b, φ (a ++ b) = φ a ++ φ b) →
  (∀ x s, x ∈ l → φ (f x s).1 = ψ x) →
  φ (fold_script f l s).1 = l ≫= ψ.
Proof.
  intros Hnil Happ. revert s. induction l as [|x l IH]; intros s Hf; [done|].
  cbn [fold_script]. specialize (Hf x s) as Hx.
  destruct (f x s) as [a s'] eqn:Hfx.
  specialize (IH s'). destruct (fold_script f l s') as [b s''].
  cbn [fst snd] in *. rewrite Happ, Hx by left. cbn. f_equal.
  apply IH. intros y s0 Hy. apply Hf. by right.
Qed.

Lemma bind_all_nil {A B} (ψ : A → list B) (l : list A) :
  (∀ y, y ∈ l → ψ y = []) → l ≫= ψ = [].
Proof.
  induction l as [|x l IH]; intros H; [done|].
  cbn. rewrite H by left. rewrite IH; [done|]. intros y Hy. apply H. by right.
Qed.

Lemma bind_only_one {A B} (ψ : A → list B) (l : list A) (x : A) :
  NoDup l → x ∈ l → (∀ y, y ∈ l → y ≠ x → ψ y = []) → l ≫= ψ = ψ x.
Proof.
  induction l as [|x0 l IH]; intros Hnd Hin H.
  - by apply elem_of_nil in Hin.
  - apply NoDup_cons in Hnd as [Hx0 Hnd]. cbn.
    apply elem_of_cons in Hin as [->|Hin].
    + rewrite bind_all_nil; [by rewrite app_nil_r|].
      intros y Hy. apply H; [by right|]. intros ->. done.
    + rewrite (H x0); [|left|intros ->; done]. cbn.
      apply IH; [done..|]. intros y Hy. apply H. by right.
Qed.

Lemma range_down_seasons s : s ∈ range_down 2025 1924 ↔ 1925 ≤ s ≤ 2025.
Proof. unfold range_down. rewrite elem_of_reverse, elem_of_seqZ. lia. Qed.

Lemma range_down_NoDup : NoDup (range_down 2025 1924).
Proof. unfold range_down. rewrite reverse_Permutation. apply NoDup_seqZ. Qed.

(** Every row of a resolved team carries its key and [existed = true]. *)
Lemma resolved_script_rows_key data source_id team_id season entries row :
  row ∈ script_rows (resolved_script data source_id team_id season entries) →
  h_team_id row = team_id ∧ h_season row = season ∧ h_existed row = true.
Proof.
  assert (Hins : ∀ cs, row ∈ script_rows (Insert source_id team_id season <$> cs) →
    h_team_id row = team_id ∧ h_season row = season ∧ h_existed row = true).
  { intros cs. rewrite script_rows_inserts.
    intros (c & -> & _)%list_elem_of_fmap. done. }
  unfold resolved_script.
  assert (Hdup : row ∈ script_rows (duplicate_script data source_id team_id season entries) →
    h_team_id row = team_id ∧ h_season row = season ∧ h_existed row = true).
  { unfold duplicate_script.
    destruct (find_eventual_conference source_id season data) as [ev|].
    - destruct (filter _ _) as [|c cs] eqn:Hf.
      + cbn. by intros ?%elem_of_nil.
      + intros Hin. by apply (Hins (c :: cs)).
    - destruct (sort_conferences _) as [[|c cs]|e]; cbn.
      + by intros ?%elem_of_nil.
      + by intros ->%list_elem_of_singleton.
      + by intros ?%elem_of_nil. }
  destruct entries as [|entry [|entry' rest]]; [done| |done].
  cbn. by intros ->%list_elem_of_singleton.
Qed.

Lemma rows_for_all team_id season rows :
  (∀ row, row ∈ rows → h_team_id row = team_id ∧ h_season row = season) →
  rows_for team_id season rows = rows.
Proof.
  intros H. unfold rows_for. induction rows as [|r rows IH]; [done|].
  rewrite filter_cons_True by (apply H; left). f_equal. apply IH.
  intros row Hr. apply H. by right.
Qed.

Lemma rows_for_none team_id season rows :
  (∀ row, row ∈ rows → ¬ (h_team_id row = team_id ∧ h_season row = season)) →
  rows_for team_id season rows = [].
Proof.
  intros H. unfold rows_for. induction rows as [|r rows IH]; [done|].
  rewrite filter_cons_False by (apply H; left). apply IH.
  intros row Hr. apply H. by right.
Qed.

Lemma team_script_rows data team_id_map season item without :
  script_rows (team_script data team_id_map season item without).1 =
  match truthy_id (dict_get item.1 team_id_map) with
  | Some team_id => script_rows (resolved_script data item.1 team_id season item.2)
  | None => []
  end.
Proof.
  destruct item as [source_id entries]. unfold team_script. cbn [fst snd].
  destruct (truthy_id _); [done|]. by destruct (decide _).
Qed.

Lemma mapped_truthy_id team_id_map sid tid sid' :
  mapped team_id_map sid tid →
  truthy_id (dict_get sid' team_id_map) = Some tid → sid' = sid.
Proof. intros (_ & _ & _ & Hinj) [H _]%truthy_id_Some. by apply Hinj. Qed.

Lemma mapped_truthy_id_self team_id_map sid tid :
  mapped team_id_map sid tid → truthy_id (dict_get sid team_id_map) = Some tid.
Proof. intros (_ & Hget & Hnz & _). by apply truthy_id_Some. Qed.

Lemma season_script_rows data team_id_map s s' tid sid without :
  mapped team_id_map sid tid →
  rows_for tid s (script_rows (season_script data team_id_map s' without).1) =
  if decide (s' = s) then resolved_rows data sid tid s else [].
Proof.
  intros Hmap. unfold season_script, resolved_rows.
  destruct (data !! s') as [teams|] eqn:Hd.
  2:{ destruct (decide (s' = s)) as [->|]; [by rewrite Hd | done]. }
  rewrite (fold_script_flat (λ acts, rows_for tid s (script_rows acts))
    (λ item, match truthy_id (dict_get item.1 team_id_map) with
             | Some tid' =>
                 rows_for tid s (script_rows (resolved_script data item.1 tid' s' item.2))
             | None => []
             end)); [| done | | ].
  2:{ intros a b. by rewrite script_rows_app, rows_for_app. }
  2:{ intros item s0 _. rewrite team_script_rows. by destruct (truthy_id _). }
  assert (Hother : ∀ item, item.1 ≠ sid ∨ s' ≠ s →
    match truthy_id (dict_get item.1 team_id_map) with
    | Some tid' =>
        rows_for tid s (script_rows (resolved_script data item.1 tid' s' item.2))
    | None => []
    end = []).
  { intros item Hne. destruct (truthy_id _) as [tid'|] eqn:Hid; [|done].
    apply rows_for_none. intros row (Ht & Hs & _)%resolved_script_rows_key [Ht' Hs'].
    destruct Hne as [Hne|Hne]; [|congruence].
    apply Hne. apply (mapped_truthy_id _ _ _ _ Hmap). congruence. }
  destruct (decide (s' = s)) as [->|Hne].
  2:{ apply bind_all_nil. intros item _. apply Hother. by right. }
  rewrite Hd. destruct (entries_of sid teams) as [|e es] eqn:He.
  { apply bind_all_nil. intros [sid' es'] Hin. apply Hother. left. cbn.
    intros ->. apply group_by_source_elem_of in Hin as (_ & -> & Hnil). done. }
  rewrite (bind_only_one _ _ (sid, e :: es)).
  - cbn [fst snd]. rewrite (mapped_truthy_id_self _ _ _ Hmap).
    apply rows_for_all. intros row (? & ? & _)%resolved_script_rows_key. done.
  - eapply NoDup_fmap_1, group_by_source_NoDup.
  - apply group_by_source_elem_of. destruct Hmap as (? & _). by rewrite He.
  - intros [sid' es'] Hin Hneq. apply Hother. left. cbn. intros ->.
    apply group_by_source_elem_of in Hin as (_ & -> & _). congruence.
Qed.

(** The rows the resolver asks to insert for the key of a mapped team. *)
Lemma build_script_rows data team_id_map tid sid s :
  mapped team_id_map sid tid →
  rows_for tid s (script_rows (build_script data team_id_map)) =
  if decide (1925 ≤ s ≤ 2025) then resolved_rows data sid tid s else [].
Proof.
  intros Hmap. unfold build_script.
  rewrite (fold_script_flat (λ acts, rows_for tid s (script_rows acts))
    (λ s', if decide (s' = s) then resolved_rows data sid tid s else []));
    [| done | | ].
  2:{ intros a b. by rewrite script_rows_app, rows_for_app. }
  2:{ intros s' without _. by apply season_script_rows. }
  destruct (decide (1925 ≤ s ≤ 2025)) as [Hin|Hout].
  - rewrite (bind_only_one _ _ s).
    + by rewrite decide_True.
    + apply range_down_NoDup.
    + by apply range_down_seasons.
    + intros y _ Hy. by rewrite decide_False.
  - apply bind_all_nil. intros y Hy%range_down_seasons.
    rewrite decide_False; [done | lia].
Qed.

(** ** The table under inserts *)

Lemma rows_for_add_row tid s rows row :
  rows_for tid s (add_row rows row) =
  match rows_for tid s rows with
  | [] => rows_for tid s [row]
  | existing => existing
  end.
Proof.
  unfold add_row.
  destruct (decide (h_team_id row = tid ∧ h_season row = s)) as [[<- <-]|Hne].
  - destruct (rows_for (h_team_id row) (h_season row) rows) eqn:Hr; [|by rewrite Hr].
    by rewrite rows_for_app, Hr.
  - assert (rows_for tid s [row] = []) as Hrow.
    { apply rows_for_none. by intros r ->%list_elem_of_singleton. }
    rewrite Hrow.
    destruct (rows_for (h_team_id row) (h_season row) rows).
    + rewrite rows_for_app, Hrow, app_nil_r. by destruct (rows_for tid s rows).
    + by destruct (rows_for tid s rows).
Qed.

(** After a sequence of inserts a key holds what it held before, or else
    the first row offered for it. *)
Lemma rows_for_foldl_add_row tid s rows new :
  rows_for tid s (foldl add_row rows new) =
  match rows_for tid s rows with
  | [] => take 1 (rows_for tid s new)
  | existing => existing
  end.
Proof.
  revert rows. induction new as [|row new IH]; intros rows.
  - simpl. by destruct (rows_for tid s rows).
  - cbn [foldl]. rewrite IH, rows_for_add_row.
    destruct (rows_for tid s rows) as [|r0 rs] eqn:Hr; [|done].
    change (row :: new) with ([row] ++ new). rewrite rows_for_app.
    destruct (rows_for tid s [row]) as [|r1 [|r2 rs1]] eqn:Hrow; [done|done|].
    assert (length (rows_for tid s [row]) ≤ 1)%nat as Hlen
      by (apply (length_filter _ [row])).
    rewrite Hrow in Hlen. simpl in Hlen. lia.
Qed.

(** ** The resolver, run *)

Lemma issued_app w w' l : sent w' = sent w ++ l → issued w w' = l.
Proof. unfold issued. intros ->. by rewrite drop_app_length. Qed.

Lemma warned_app w w' l :
  warnings (logger w') = warnings (logger w) ++ l → warned w w' = l.
Proof. unfold warned. intros ->. by rewrite drop_app_length. Qed.

Lemma clear_history_run env w :
  ∃ w1, try_except (delete_history env) (λ _, error ClearHistoryFailed) w = (Ok tt, w1) ∧
    sent w1 = sent w ++ [DeleteHistory] ∧
    warnings (logger w1) = warnings (logger w) ∧
    tbl_teams w1 = tbl_teams w ∧ tbl_conferences w1 = tbl_conferences w ∧
    (datastore_down env (length (sent w)) DeleteHistory = false → tbl_history w1 = []).
Proof.
  unfold_prims. destruct (datastore_down env _ _); cbn; eexists; (split; [done|]);
    cbn; repeat split; auto; done.
Qed.

Lemma build_conference_history_run env data team_id_map w w' :
  build_conference_history env data team_id_map w = (Ok tt, w') →
  issued w w' = DeleteHistory :: omap action_request (build_script data team_id_map) ∧
  warned w w' = omap action_warning (build_script data team_id_map) ∧
  Forall (λ a, ¬ is_fail a) (build_script data team_id_map) ∧
  tbl_teams w' = tbl_teams w ∧ tbl_conferences w' = tbl_conferences w ∧
  (datastore_up env →
     tbl_history w' = foldl add_row [] (script_rows (build_script data team_id_map))).
Proof.
  rewrite build_conference_history_script. unfold bind.
  destruct (clear_history_run env w) as (w1 & -> & Hs1 & Hw1 & Ht1 & Hc1 & Hh1).
  intros Hrun. pose proof (run_script_ok _ _ _ _ Hrun) as (Hs & Hw & Ht & Hc).
  split_and!.
  - apply issued_app. by rewrite Hs, Hs1, <- app_assoc.
  - apply warned_app. by rewrite Hw, Hw1.
  - by eapply run_script_ok_no_fail.
  - congruence.
  - congruence.
  - intros Hup. rewrite (run_script_history _ _ _ _ Hup Hrun), Hh1; [done | apply Hup].
Qed.

Lemma build_conference_history_total env data team_id_map w :
  Forall (λ a, ¬ is_fail a) (build_script data team_id_map) →
  ∃ w', build_conference_history env data team_id_map w = (Ok tt, w').
Proof.
  intros Hs. rewrite build_conference_history_script. unfold bind.
  destruct (clear_history_run env w) as (w1 & -> & _).
  by apply run_script_total.
Qed.

Lemma inserts_for_build tid s script :
  inserts_for tid s (DeleteHistory :: omap action_request script) =
  rows_for tid s (script_rows script).
Proof. done. Qed.

(** ** Sorting the duplicates *)

Lemma sort_conferences_Ok cs sorted :
  (2 ≤ length cs)%nat → sort_conferences cs = Ok sorted →
  ∃ ids, cs = Some <$> ids ∧ sorted = Some <$> merge_sort Z.le ids.
Proof.
  intros Hlen. unfold sort_conferences. rewrite decide_False by lia.
  destruct (mapM (λ c, c) cs) as [ids|] eqn:Hm; [|done].
  intros [= <-]. exists ids. split; [|done].
  symmetry. by apply (mapM_fmap_Some_inv (λ c, c) Some cs ids).
Qed.

(** The head of the sorted duplicates is their smallest conference id. *)
Lemma sort_conferences_head cs c rest :
  (2 ≤ length cs)%nat → sort_conferences cs = Ok (c :: rest) →
  ∃ m, c = Some m ∧ Some m ∈ cs ∧ ∀ c', c' ∈ cs → ∃ z, c' = Some z ∧ m ≤ z.
Proof.
  intros Hlen (ids & -> & Hsorted)%sort_conferences_Ok; [|done].
  pose proof (StronglySorted_merge_sort Z.le ids) as Hss.
  pose proof (merge_sort_Permutation Z.le ids) as Hperm.
  destruct (merge_sort Z.le ids) as [|m ms]; [done|].
  injection Hsorted as -> ->. exists m. split; [done|].
  apply StronglySorted_cons in Hss as [Hle _]. split.
  - apply list_elem_of_fmap. exists m. split; [done|]. rewrite <- Hperm. left.
  - intros c' (z & -> & Hz)%list_elem_of_fmap. exists z. split; [done|].
    rewrite <- Hperm in Hz. apply elem_of_cons in Hz as [->|Hz]; [lia|].
    by eapply Forall_forall in Hle.
Qed.

Lemma sort_conferences_not_empty cs : cs ≠ [] → sort_conferences cs ≠ Ok [].
Proof.
  intros Hne. unfold sort_conferences. destruct (decide (length cs < 2)%nat).
  - congruence.
  - destruct (mapM (λ c, c) cs) as [ids|] eqn:Hm; [|done].
    intros [= Hs]. apply fmap_nil_inv in Hs.
    pose proof (merge_sort_Permutation Z.le ids) as Hperm. rewrite Hs in Hperm.
    apply Permutation_nil_l in Hperm. subst ids.
    apply length_mapM in Hm. destruct cs; [done | simpl in *; lia].
Qed.

Lemma sort_conferences_total cs :
  Forall (λ c, c ≠ None) cs → ∃ sorted, sort_conferences cs = Ok sorted.
Proof.
  intros Hall. unfold sort_conferences. destruct (decide _); [by eexists|].
  destruct (mapM (λ c, c) cs) eqn:Hm; [by eexists|].
  apply mapM_None in Hm. apply Exists_exists in Hm as (c & Hin & ->).
  by eapply Forall_forall in Hall.
Qed.

(** ** Finding the actions of a team in the script *)

Lemma fold_script_elem_of {A S} (f : A → S → list action * S) (l : list A) (s : S) x a :
  x ∈ l → (∀ s', a ∈ (f x s').1) → a ∈ (fold_script f l s).1.
Proof.
  intros Hin Ha. revert s. induction l as [|y l IH]; intros s.
  - by apply elem_of_nil in Hin.
  - cbn [fold_script]. specialize (Ha s) as Hs.
    destruct (f y s) as [a1 s1] eqn:Hfy. specialize (IH) as IH'.
    destruct (fold_script f l s1) as [b s2] eqn:Hrest. cbn [fst].
    apply elem_of_app. apply elem_of_cons in Hin as [->|Hin].
    + left. specialize (Ha s). by rewrite Hfy in Ha.
    + right. specialize (IH Hin s1). by rewrite Hrest in IH.
Qed.

Lemma build_script_resolved data team_id_map sid tid s entries a :
  mapped team_id_map sid tid → reported data sid s entries → entries ≠ [] →
  a ∈ resolved_script data sid tid s entries → a ∈ build_script data team_id_map.
Proof.
  intros Hmap (Hs & teams & Hd & He) Hne Ha. unfold build_script.
  apply (fold_script_elem_of _ _ _ s); [by apply range_down_seasons|].
  intros without. unfold season_script. rewrite Hd.
  apply (fold_script_elem_of _ _ _ (sid, entries)).
  - apply group_by_source_elem_of. destruct Hmap as (? & _). done.
  - intros without'. unfold team_script.
    by rewrite (mapped_truthy_id_self _ _ _ Hmap).
Qed.

Lemma resolved_rows_reported data sid tid s entries :
  reported data sid s entries → entries ≠ [] →
  resolved_rows data sid tid s = script_rows (resolved_script data sid tid s entries).
Proof.
  intros (_ & teams & Hd & He) Hne. unfold resolved_rows. rewrite Hd, He.
  by destruct entries.
Qed.

(** What the resolver asks to insert, and what the table holds, for the
    key of a mapped team in a season where it is reported. *)
Lemma build_conference_history_key env data team_id_map w w' sid tid s entries :
  build_conference_history env data team_id_map w = (Ok tt, w') →
  mapped team_id_map sid tid → reported data sid s entries → entries ≠ [] →
  let rows := script_rows (resolved_script data sid tid s entries) in
  inserts_for tid s (issued w w') = rows ∧
  (datastore_up env → rows_for tid s (tbl_history w') = take 1 rows).
Proof.
  intros Hrun Hmap Hrep Hne rows.
  apply build_conference_history_run in Hrun as (Hi & _ & _ & _ & _ & Hh).
  assert (rows_for tid s (script_rows (build_script data team_id_map)) = rows) as Hrows.
  { rewrite (build_script_rows _ _ _ sid) by done.
    rewrite decide_True by apply Hrep. by apply resolved_rows_reported. }
  split.
  - by rewrite Hi, inserts_for_build.
  - intros Hup. rewrite (Hh Hup), rows_for_foldl_add_row. cbn. by rewrite Hrows.
Qed.

(** ** The resolver: one report, duplicates, fallback, anomaly *)

Lemma example_resolved_run :
  build_conference_history example_env example_data example_map example_world
  = (Ok tt, example_resolved).
Proof. by vm_compute. Qed.

Lemma example_mapped sid tid :
  (sid, tid) ∈ example_map → mapped example_map sid tid.
Proof.
  intros Hin. unfold example_map in Hin.
  repeat (apply elem_of_cons in Hin as [[= -> ->]|Hin]);
    [..|by apply elem_of_nil in Hin];
    (split; [done|]; split; [done|]; split; [done|]);
    intros sid'; unfold example_map; cbn;
    repeat (case_decide; [subst; intros [=]; try done|]); done.
Qed.

Lemma example_reported sid s entries :
  1925 ≤ s ≤ 2025 →
  entries_of sid <$> example_data !! s = Some entries →
  reported example_data sid s entries.
Proof.
  intros Hs He. split; [done|].
  destruct (example_data !! s) as [teams|]; [|done].
  injection He as <-. by exists teams.
Qed.

Lemma example_datastore_up : datastore_up example_env.
Proof. by intros n r. Qed.

Lemma example_map_NoDup : NoDup example_map.*1.
Proof. vm_compute. repeat constructor; set_solver. Qed.

Lemma example_filled_run :
  fill_gap_years example_env example_data example_map example_resolved
  = (Ok tt, example_filled).
Proof. vm_compute. reflexivity. Qed.

(** C4. A team with a key that reports a single entry in a season gets one
    insert for that (team_id, season), carrying the reported conference id
    and [existed = true]; with the datastore up this row is the one
    stored. *)
Theorem single_report_one_record env data team_id_map w w' sid tid s entry :
  build_conference_history env data team_id_map w = (Ok tt, w') →
  mapped team_id_map sid tid →
  reported data sid s [entry] →
  inserts_for tid s (issued w w') = [HistoryRow tid s (conferenceId entry) true] ∧
  (datastore_up env →
     rows_for tid s (tbl_history w') = [HistoryRow tid s (conferenceId entry) true]).
Proof.
  intros Hrun Hmap Hrep.
  by destruct (build_conference_history_key _ _ _ _ _ _ _ _ _ Hrun Hmap Hrep).
Qed.

Lemma single_report_one_record_witness :
  inserts_for 10 2011 (issued example_world example_resolved)
    = [HistoryRow 10 2011 (Some 1) true] ∧
  (datastore_up example_env →
     rows_for 10 2011 (tbl_history example_resolved) = [HistoryRow 10 2011 (Some 1) true]).
Proof.
  apply (single_report_one_record example_env example_data example_map
           example_world example_resolved "T" 10 2011 (example_team "T" 1)).
  - exact example_resolved_run.
  - apply example_mapped. by vm_compute; left.
  - apply example_reported; [lia | by vm_compute].
Defined.

Lemma resolved_script_rows_duplicates data sid tid s entries x :
  (2 ≤ length entries)%nat → find_eventual_conference sid s data = Some x →
  script_rows (resolved_script data sid tid s entries) =
    (λ c, HistoryRow tid s c true) <$>
      filter (λ c, c ≠ Some x) (conferenceId <$> entries).
Proof.
  intros Hlen Hev. unfold resolved_script.
  destruct entries as [|e1 [|e2 rest]]; [simpl in Hlen; lia.. |].
  unfold duplicate_script. rewrite Hev.
  destruct (filter _ _) as [|c cs] eqn:Hf; [done|].
  change (script_rows (Count "duplicates_resolved" :: ?l)) with (script_rows l).
  apply script_rows_inserts.
Qed.

(** Of several differing reports the table, which holds one row per key,
    keeps the first; the inserts of the others are rejected and logged. *)
Lemma duplicates_store_first_differing env data team_id_map w w' sid tid s entries x :
  datastore_up env →
  build_conference_history env data team_id_map w = (Ok tt, w') →
  mapped team_id_map sid tid →
  reported data sid s entries → (2 ≤ length entries)%nat →
  find_eventual_conference sid s data = Some x →
  rows_for tid s (tbl_history w') =
    take 1 ((λ c, HistoryRow tid s c true) <$>
              filter (λ c, c ≠ Some x) (conferenceId <$> entries)).
Proof.
  intros Hup Hrun Hmap Hrep Hlen Hev.
  assert (entries ≠ []) as Hne by (intros ->; simpl in Hlen; lia).
  destruct (build_conference_history_key _ _ _ _ _ _ _ _ _ Hrun Hmap Hrep Hne) as [_ Hrows].
  rewrite (Hrows Hup). f_equal. by apply resolved_script_rows_duplicates.
Qed.

Lemma filter_none {A} (P : A → Prop) `{∀ x, Decision (P x)} (l : list A) :
  (∀ x, x ∈ l → ¬ P x) → filter P l = [].
Proof.
  induction l as [|x l IH]; intros Hl; [done|].
  rewrite filter_cons_False by (apply Hl; left). apply IH.
  intros y Hy. apply Hl. by right.
Qed.

Lemma build_script_warned env data team_id_map w w' m :
  build_conference_history env data team_id_map w = (Ok tt, w') →
  Warn m ∈ build_script data team_id_map → m ∈ warned w w'.
Proof.
  intros (_ & -> & _)%build_conference_history_run Hin.
  apply list_elem_of_omap. by exists (Warn m).
Qed.

(** The fallback on a completed run: for a team with a key that reports
    several entries in a season and whose forward scan finds no eventual
    conference, there is one insert for that (team_id, season); its
    conference id is the smallest of the reported ones, and the warning for
    the case is logged. With the datastore up this row is the one stored. *)
Lemma fallback_records_smallest env data team_id_map w w' sid tid s entries :
  build_conference_history env data team_id_map w = (Ok tt, w') →
  mapped team_id_map sid tid →
  reported data sid s entries → (2 ≤ length entries)%nat →
  find_eventual_conference sid s data = None →
  ∃ m, Some m ∈ conferenceId <$> entries ∧
    (∀ c, c ∈ conferenceId <$> entries → ∃ z, c = Some z ∧ m ≤ z) ∧
    inserts_for tid s (issued w w') = [HistoryRow tid s (Some m) true] ∧
    NoEventual sid s ∈ warned w w' ∧
    (datastore_up env →
       rows_for tid s (tbl_history w') = [HistoryRow tid s (Some m) true]).
Proof.
  intros Hrun Hmap Hrep Hlen Hev.
  assert (entries ≠ []) as Hne by (intros ->; simpl in Hlen; lia).
  destruct (build_conference_history_key _ _ _ _ _ _ _ _ _ Hrun Hmap Hrep Hne)
    as [Hins Hrows].
  assert (Hin : ∀ a, a ∈ resolved_script data sid tid s entries →
                     a ∈ build_script data team_id_map)
    by (intros a; by apply build_script_resolved).
  pose proof (build_conference_history_run _ _ _ _ _ Hrun) as (_ & _ & Hnofail & _).
  assert (resolved_script data sid tid s entries =
          duplicate_script data sid tid s entries) as Hres.
  { unfold resolved_script. destruct entries as [|e1 [|e2 rest]]; [done| |done].
    simpl in Hlen. lia. }
  rewrite Hres in *. unfold duplicate_script in *. rewrite Hev in *.
  assert (Hcs : (2 ≤ length (conferenceId <$> entries))%nat) by (by rewrite length_fmap).
  destruct (sort_conferences (conferenceId <$> entries)) as [[|c cs]|e] eqn:Hsort.
  - exfalso. eapply Forall_forall in Hnofail; [apply Hnofail|].
    2:{ apply Hin. do 2 right. left. } done.
  - destruct (sort_conferences_head _ _ _ Hcs Hsort) as (m & -> & Hm & Hmin).
    exists m. split_and!; try done.
    eapply build_script_warned; [done|]. apply Hin. right. left.
  - exfalso. eapply Forall_forall in Hnofail; [apply Hnofail|].
    2:{ apply Hin. do 2 right. left. } done.
Qed.

(** C6. For a team with a key that reports several entries in a season,
    all of them equal to the eventual conference found by the forward scan,
    nothing is inserted for that (team_id, season) and the warning for the
    anomaly is logged; with the datastore up the table holds no row for the
    key after the resolver. *)
Theorem all_match_eventual_skipped env data team_id_map w w' sid tid s entries x :
  build_conference_history env data team_id_map w = (Ok tt, w') →
  mapped team_id_map sid tid →
  reported data sid s entries → (2 ≤ length entries)%nat →
  find_eventual_conference sid s data = Some x →
  (∀ entry, entry ∈ entries → conferenceId entry = Some x) →
  inserts_for tid s (issued w w') = [] ∧
  AllMatchEventual sid s x ∈ warned w w' ∧
  (datastore_up env → rows_for tid s (tbl_history w') = []).
Proof.
  intros Hrun Hmap Hrep Hlen Hev Hall.
  assert (entries ≠ []) as Hne by (intros ->; simpl in Hlen; lia).
  destruct (build_conference_history_key _ _ _ _ _ _ _ _ _ Hrun Hmap Hrep Hne)
    as [Hins Hrows].
  assert (Hin : ∀ a, a ∈ resolved_script data sid tid s entries →
                     a ∈ build_script data team_id_map)
    by (intros a; by apply build_script_resolved).
  assert (resolved_script data sid tid s entries =
          [Count "duplicates_resolved"; Warn (AllMatchEventual sid s x)]) as Hres.
  { unfold resolved_script. destruct entries as [|e1 [|e2 rest]]; [done| |].
    { simpl in Hlen. lia. }
    unfold duplicate_script. rewrite Hev.
    assert (filter (λ c, c ≠ Some x) (conferenceId <$> e1 :: e2 :: rest) = []) as ->; [|done].
    apply filter_none.
    intros c (e & -> & He)%list_elem_of_fmap Hc. apply Hc. by apply Hall. }
  rewrite Hres in *. split_and!; try done.
  eapply build_script_warned; [done|]. apply Hin. right. left.
Qed.

Lemma all_match_eventual_skipped_witness :
  inserts_for 40 2010 (issued example_world example_resolved) = [] ∧
  AllMatchEventual "D" 2010 6 ∈ warned example_world example_resolved ∧
  (datastore_up example_env → rows_for 40 2010 (tbl_history example_resolved) = []).
Proof.
  apply (all_match_eventual_skipped example_env example_data example_map
           example_world example_resolved "D" 40 2010
           [example_team "D" 6; example_team "D" 6] 6).
  - exact example_resolved_run.
  - apply example_mapped. by vm_compute; do 2 right; left.
  - apply example_reported; [lia | by vm_compute].
  - simpl. lia.
  - by vm_compute.
  - intros entry [->|[->|[]%elem_of_nil]%elem_of_cons]%elem_of_cons; done.
Defined.

(** ** The gap filler as a loop over the missing seasons *)

Lemma for_each_skip {A} (Q : A → Prop) `{∀ x, Decision (Q x)} (l : list A)
    (body : A → M unit) w :
  for_each l (λ x, if decide (Q x) then ret tt else body x) w =
  for_each (filter (λ x, ¬ Q x) l) body w.
Proof.
  revert w. induction l as [|x l IH]; intros w; [done|].
  cbn [for_each]. destruct (decide (Q x)) as [Hq|Hq].
  - rewrite filter_cons_False by (intros Hn; by apply Hn). apply IH.
  - rewrite filter_cons_True by done. cbn [for_each]. apply bind_ext; auto.
Qed.

Lemma fill_gap_years_script env data team_id_map w :
  fill_gap_years env data team_id_map w =
  for_each (gap_candidates data team_id_map) (λ key, fill_gap env key.1 key.2) w.
Proof.
  unfold fill_gap_years, gap_candidates. rewrite for_each_bind.
  apply for_each_ext. intros [team_id source_id] w1. unfold gaps_of.
  destruct (list_min _) as [first_season|]; [|done].
  destruct (list_max _) as [last_season|]; [|done].
  rewrite for_each_fmap. cbn [fst snd].
  apply (for_each_skip (λ season, season ∈ seasons_appeared source_id data)).
Qed.

Lemma fill_gap_run env tid s w :
  ∃ w', fill_gap env tid s w = (Ok tt, w') ∧
    warnings (logger w') = warnings (logger w) ∧
    tbl_teams w' = tbl_teams w ∧ tbl_conferences w' = tbl_conferences w ∧
    (sent w' = sent w ++ [SelectHistory tid s] ∨
     sent w' = sent w ++ [SelectHistory tid s; InsertHistory (placeholder (tid, s))]) ∧
    (tbl_history w' = tbl_history w ∨
     tbl_history w' = add_row (tbl_history w) (placeholder (tid, s))) ∧
    (datastore_up env → tbl_history w' = add_row (tbl_history w) (placeholder (tid, s))).
Proof.
  unfold_prims. unfold add_row, placeholder, rows_for, datastore_up.
  cbn [h_team_id h_season fst snd].
  destruct (datastore_down env (length (sent w)) _) eqn:Hd1; cbn.
  { eexists. split; [done|]. cbn. split_and!; auto.
    intros Hup. by rewrite Hup in Hd1. }
  destruct (filter _ (tbl_history w)) as [|r rs] eqn:Hr; cbn.
  2:{ eexists. split; [done|]. cbn. split_and!; auto. }
  destruct (datastore_down env _ (InsertHistory _)) eqn:Hd2; cbn.
  { eexists. split; [done|]. cbn. rewrite <- app_assoc. split_and!; auto.
    intros Hup. by rewrite Hup in Hd2. }
  rewrite ?Hr. eexists. split; [done|]. cbn. rewrite <- app_assoc. split_and!; auto.
Qed.

(** The loop of the gap filler never raises; it only sends queries and
    inserts of placeholders for its candidates, and with the datastore up
    it offers a placeholder for each of them. *)
Lemma fill_gaps_run env (keys : list (Z * Z)) w :
  ∃ w', for_each keys (λ key, fill_gap env key.1 key.2) w = (Ok tt, w') ∧
    warnings (logger w') = warnings (logger w) ∧
    tbl_teams w' = tbl_teams w ∧ tbl_conferences w' = tbl_conferences w ∧
    (∃ l, sent w' = sent w ++ l ∧ ∀ r, r ∈ l → ∃ key, key ∈ keys ∧
       (r = SelectHistory key.1 key.2 ∨ r = InsertHistory (placeholder key))) ∧
    (∃ offered, offered ⊆ placeholder <$> keys ∧
       tbl_history w' = foldl add_row (tbl_history w) offered) ∧
    (datastore_up env →
       tbl_history w' = foldl add_row (tbl_history w) (placeholder <$> keys)).
Proof.
  revert w. induction keys as [|[tid s] keys IH]; intros w.
  - exists w. split; [done|]. split_and!; try done.
    + exists []. split; [by rewrite app_nil_r|]. by intros r ?%elem_of_nil.
    + by exists [].
  - cbn [for_each fst snd]. unfold bind.
    destruct (fill_gap_run env tid s w) as (w1 & -> & Hw1 & Ht1 & Hc1 & Hs1 & Hh1 & Hup1).
    destruct (IH w1) as (w' & -> & Hw & Ht & Hc & (l & Hs & Hl) & (offered & Hsub & Hh) & Hup).
    exists w'. split; [done|]. split_and!; try congruence.
    + assert (∀ r, r ∈ l → ∃ key, key ∈ (tid, s) :: keys ∧
        (r = SelectHistory key.1 key.2 ∨ r = InsertHistory (placeholder key))) as Hl'.
      { intros r (key & Hk & Hr)%Hl. exists key. split; [by right | done]. }
      destruct Hs1 as [Hs1|Hs1]; rewrite Hs, Hs1, <- app_assoc; eexists; (split; [done|]).
      * intros r [->|Hr]%elem_of_cons; [|by apply Hl'].
        exists (tid, s). split; [left | by left].
      * intros r [->|[->|Hr]%elem_of_cons]%elem_of_cons; [..|by apply Hl'].
        -- exists (tid, s). split; [left | by left].
        -- exists (tid, s). split; [left | by right].
    + destruct Hh1 as [Hh1|Hh1]; rewrite Hh, Hh1.
      * exists offered. split; [|done]. intros r Hr%Hsub. rewrite fmap_cons. by right.
      * exists (placeholder (tid, s) :: offered). split; [|done].
        rewrite fmap_cons. intros r [->|Hr%Hsub]%elem_of_cons; [left | by right].
    + intros Hup0. rewrite (Hup Hup0), (Hup1 Hup0). done.
Qed.

(** ** The candidates of the gap filler *)

Lemma dict_set_elem_of {K V} `{EqDecision K} (k k' : K) (v v' : V) (d : dict K V) :
  (k', v') ∈ dict_set k v d → (k' = k ∧ v' = v) ∨ (k', v') ∈ d.
Proof.
  induction d as [|[k0 v0] d IH]; cbn [dict_set].
  - intros [= -> ->]%list_elem_of_singleton. by left.
  - destruct (decide (k0 = k)) as [->|Hne].
    + intros [[= -> ->]|Hin]%elem_of_cons; [by left|]. right. by right.
    + intros [[= -> ->]|Hin]%elem_of_cons; [right; left|].
      destruct (IH Hin) as [?|?]; [by left|]. right. by right.
Qed.

Lemma reverse_map_snoc team_id_map kv :
  reverse_map (team_id_map ++ [kv]) = dict_set kv.2 kv.1 (reverse_map team_id_map).
Proof. unfold reverse_map. by rewrite foldl_snoc. Qed.

Lemma reverse_map_NoDup team_id_map : NoDup (reverse_map team_id_map).*1.
Proof.
  induction team_id_map as [|kv m IH] using rev_ind; [constructor|].
  rewrite reverse_map_snoc. by apply dict_set_NoDup.
Qed.

Lemma reverse_map_elem_of team_id_map tid sid :
  (tid, sid) ∈ reverse_map team_id_map → (sid, tid) ∈ team_id_map.
Proof.
  induction team_id_map as [|[k v] m IH] using rev_ind.
  - by intros ?%elem_of_nil.
  - rewrite reverse_map_snoc. cbn [fst snd]. rewrite elem_of_app.
    intros [[-> ->]|Hin]%dict_set_elem_of.
    + right. left.
    + left. auto.
Qed.

Lemma reverse_map_keys team_id_map sid tid :
  (sid, tid) ∈ team_id_map → tid ∈ (reverse_map team_id_map).*1.
Proof.
  induction team_id_map as [|[k v] m IH] using rev_ind.
  - by intros ?%elem_of_nil.
  - rewrite reverse_map_snoc, dict_set_keys. cbn [fst snd].
    intros [Hin|[= -> ->]%list_elem_of_singleton]%elem_of_app.
    + destruct (decide (_ ∈ _)); [auto|]. apply elem_of_app. left. auto.
    + destruct (decide (_ ∈ _)); [done|]. apply elem_of_app. right. left.
Qed.

(** The entry of a mapped team in [id_to_source] is its source id. *)
Lemma reverse_map_mapped team_id_map sid tid sid' :
  NoDup team_id_map.*1 → mapped team_id_map sid tid →
  (tid, sid') ∈ reverse_map team_id_map ↔ sid' = sid.
Proof.
  intros Hnd Hmap. split.
  - intros Hin%reverse_map_elem_of. destruct Hmap as (_ & _ & _ & Hinj).
    apply Hinj. by apply dict_elem_of_get.
  - intros ->. destruct Hmap as (_ & Hget & _ & Hinj).
    pose proof (reverse_map_keys _ _ _ (dict_get_Some_elem_of _ _ _ Hget)) as Hk.
    apply list_elem_of_fmap in Hk as ([tid' sid'] & Heq & Hin). cbn in Heq. subst tid'.
    pose proof (reverse_map_elem_of _ _ _ Hin) as Hin'.
    apply dict_elem_of_get in Hin'; [|done]. by rewrite <- (Hinj _ Hin').
Qed.

Lemma seasons_appeared_elem_of sid data s :
  s ∈ seasons_appeared sid data ↔ 1925 ≤ s ≤ 2025 ∧ appears sid data s.
Proof.
  unfold seasons_appeared, range. rewrite list_elem_of_filter, elem_of_seqZ. 
  split; intros [? ?]; split; auto; lia.
Qed.

Lemma appears_entries sid data s :
  appears sid data s ↔ ∃ teams, data !! s = Some teams ∧ entries_of sid teams ≠ [].
Proof.
  unfold appears, entries_of. destruct (data !! s) as [teams|].
  - rewrite Exists_exists. split.
    + intros (t & Hin & Ht). exists teams. split; [done|].
      intros Hnil. by apply (filter_nil_not_elem_of _ _ t Hnil Ht).
    + intros (? & [= <-] & Hne).
      destruct (filter _ teams) as [|t ts] eqn:Hf; [done|].
      assert (t ∈ filter (λ t, sourceId t = Some sid) teams) as Hin by (rewrite Hf; left).
      apply list_elem_of_filter in Hin as [? ?]. by exists t.
  - split; [done|]. by intros (? & ? & _).
Qed.

Lemma list_min_spec l m : list_min l = Some m → m ∈ l ∧ ∀ x, x ∈ l → m ≤ x.
Proof.
  destruct l as [|x l]; [done|]. intros [= <-].
  induction l as [|y l [IHin IHle]]; cbn [foldr].
  - split; [left|]. intros z ->%list_elem_of_singleton. lia.
  - split.
    + destruct (Z.min_spec y (foldr Z.min x l)) as [[_ ->]|[_ ->]].
      * right. left.
      * apply elem_of_cons in IHin as [Heq|Hin]; [rewrite Heq; left | do 2 right; done].
    + intros z Hz.
      assert (foldr Z.min x l ≤ z ∨ z = y) as [Hle|Heq]; [|lia..].
      apply elem_of_cons in Hz as [Hz|Hz]; [left; apply IHle; rewrite Hz; left|].
      apply elem_of_cons in Hz as [Hz|Hz]; [by right|].
      left. apply IHle. by right.
Qed.

Lemma list_max_spec l m : list_max l = Some m → m ∈ l ∧ ∀ x, x ∈ l → x ≤ m.
Proof.
  destruct l as [|x l]; [done|]. intros [= <-].
  induction l as [|y l [IHin IHle]]; cbn [foldr].
  - split; [left|]. intros z ->%list_elem_of_singleton. lia.
  - split.
    + destruct (Z.max_spec y (foldr Z.max x l)) as [[_ ->]|[_ ->]].
      * apply elem_of_cons in IHin as [Heq|Hin]; [rewrite Heq; left | do 2 right; done].
      * right. left.
    + intros z Hz.
      assert (z ≤ foldr Z.max x l ∨ z = y) as [Hle|Heq]; [|lia..].
      apply elem_of_cons in Hz as [Hz|Hz]; [left; apply IHle; rewrite Hz; left|].
      apply elem_of_cons in Hz as [Hz|Hz]; [by right|].
      left. apply IHle. by right.
Qed.

Lemma gaps_of_elem_of data tid sid key :
  key ∈ gaps_of data (tid, sid) ↔
  key.1 = tid ∧ ∃ first last,
    list_min (seasons_appeared sid data) = Some first ∧
    list_max (seasons_appeared sid data) = Some last ∧
    first ≤ key.2 ≤ last ∧ key.2 ∉ seasons_appeared sid data.
Proof.
  unfold gaps_of.
  destruct (list_min _) as [first|] eqn:Hmin.
  2:{ split; [by intros ?%elem_of_nil | by intros (_ & ? & ? & ? & _)]. }
  destruct (list_max _) as [last|] eqn:Hmax.
  2:{ split; [by intros ?%elem_of_nil | by intros (_ & ? & ? & _ & ? & _)]. }
  rewrite list_elem_of_fmap. split.
  - intros (s & -> & [Hs Hr]%list_elem_of_filter). cbn. split; [done|].
    exists first, last. unfold range in Hr. apply elem_of_seqZ in Hr.
    split_and!; try done; lia.
  - intros (<- & f & l & [= <-] & [= <-] & Hr & Hs).
    exists key.2. split; [by destruct key|].
    apply list_elem_of_filter. split; [done|]. unfold range. apply elem_of_seqZ. lia.
Qed.

(** The seasons the gap filler considers for a mapped team: those between
    its first and last appearance in which it does not appear. *)
Lemma gap_candidates_mapped data team_id_map sid tid s :
  NoDup team_id_map.*1 → mapped team_id_map sid tid →
  (tid, s) ∈ gap_candidates data team_id_map ↔
  ∃ first last,
    list_min (seasons_appeared sid data) = Some first ∧
    list_max (seasons_appeared sid data) = Some last ∧
    first ≤ s ≤ last ∧ s ∉ seasons_appeared sid data.
Proof.
  intros Hnd Hmap. unfold gap_candidates. rewrite list_elem_of_bind. split.
  - intros ([tid' sid'] & Hkey & Hin).
    apply gaps_of_elem_of in Hkey as (Ht & Hrest). cbn in Ht. subst tid'.
    apply (reverse_map_mapped _ _ _ _ Hnd Hmap) in Hin as ->. done.
  - intros Hrest. exists (tid, sid). split.
    + apply gaps_of_elem_of. done.
    + by apply (reverse_map_mapped _ _ _ _ Hnd Hmap).
Qed.

Lemma gap_candidates_elem_of data team_id_map key :
  key ∈ gap_candidates data team_id_map →
  ∃ sid, (sid, key.1) ∈ team_id_map ∧ key.2 ∉ seasons_appeared sid data.
Proof.
  unfold gap_candidates. rewrite list_elem_of_bind.
  intros ([tid sid] & (<- & _ & _ & _ & _ & _ & Hs)%gaps_of_elem_of & Hin).
  exists sid. split; [by apply reverse_map_elem_of | done].
Qed.

(** ** The gap filler, run *)

Lemma foldl_add_row_app rows new :
  ∃ added, foldl add_row rows new = rows ++ added ∧ added ⊆ new.
Proof.
  revert rows. induction new as [|row new IH]; intros rows.
  - exists []. by rewrite app_nil_r.
  - cbn [foldl]. destruct (IH (add_row rows row)) as (added & -> & Hsub).
    unfold add_row. destruct (rows_for _ _ rows).
    + exists (row :: added). rewrite <- app_assoc. split; [done|].
      intros r [->|Hr]%elem_of_cons; [left | right; auto].
    + exists added. split; [done|]. intros r Hr. right. auto.
Qed.

Lemma rows_for_not_nil tid s rows :
  rows_for tid s rows ≠ [] ↔ ∃ row, row ∈ rows ∧ h_team_id row = tid ∧ h_season row = s.
Proof.
  split.
  - intros Hne. destruct (rows_for tid s rows) as [|row l] eqn:Hr; [done|].
    assert (row ∈ rows_for tid s rows) as Hin by (rewrite Hr; left).
    apply list_elem_of_filter in Hin as [[? ?] ?]. by exists row.
  - intros (row & Hin & Ht & Hs) Hnil.
    apply (filter_nil_not_elem_of _ _ row Hnil); done.
Qed.

Lemma rows_for_placeholders tid s (keys : list (Z * Z)) :
  rows_for tid s (placeholder <$> keys) ≠ [] ↔ (tid, s) ∈ keys.
Proof.
  rewrite rows_for_not_nil. split.
  - intros (row & ([t s'] & -> & Hin)%list_elem_of_fmap & Ht & Hs).
    cbn in Ht, Hs. by subst.
  - intros Hin. exists (placeholder (tid, s)). split; [|done].
    apply list_elem_of_fmap. by exists (tid, s).
Qed.

(** In every environment the gap filler completes and only appends
    placeholders of its candidates: no stored row is changed or removed. *)
Lemma fill_gap_years_appends env data team_id_map w :
  ∃ w' added, fill_gap_years env data team_id_map w = (Ok tt, w') ∧
    tbl_history w' = tbl_history w ++ added ∧
    added ⊆ placeholder <$> gap_candidates data team_id_map ∧
    warnings (logger w') = warnings (logger w) ∧
    (∃ l, sent w' = sent w ++ l ∧
       ∀ r, r ∈ l → ∃ key, key ∈ gap_candidates data team_id_map ∧
         (r = SelectHistory key.1 key.2 ∨ r = InsertHistory (placeholder key))) ∧
    (datastore_up env →
       tbl_history w' = foldl add_row (tbl_history w)
                          (placeholder <$> gap_candidates data team_id_map)).
Proof.
  rewrite fill_gap_years_script.
  destruct (fill_gaps_run env (gap_candidates data team_id_map) w)
    as (w' & Hrun & Hw & _ & _ & Hs & (offered & Hsub & Hh) & Hup).
  destruct (foldl_add_row_app (tbl_history w) offered) as (added & Ha & Hsub').
  exists w', added. split_and!; try done.
  - congruence.
  - intros r Hr. auto.
Qed.

(** C7 (as amended). With the datastore up, for a mapped team the gap
    filler adds a placeholder ([existed = false], no conference id) for
    exactly the seasons between the first and the last appearance of the
    team in which the team has no snapshot entry and for which the table
    holds no row; the rows already stored are left as they are. *)
Theorem gap_filler_fills_absent_seasons env data team_id_map w sid tid first last :
  datastore_up env → NoDup team_id_map.*1 → mapped team_id_map sid tid →
  list_min (seasons_appeared sid data) = Some first →
  list_max (seasons_appeared sid data) = Some last →
  ∃ w' added, fill_gap_years env data team_id_map w = (Ok tt, w') ∧
    tbl_history w' = tbl_history w ++ added ∧
    (∀ row, row ∈ added → h_conference_id row = None ∧ h_existed row = false) ∧
    ∀ s, (∃ row, row ∈ added ∧ h_team_id row = tid ∧ h_season row = s) ↔
         first ≤ s ≤ last ∧ ¬ appears sid data s ∧ rows_for tid s (tbl_history w) = [].
Proof.
  intros Hup Hnd Hmap Hmin Hmax.
  destruct (fill_gap_years_appends env data team_id_map w)
    as (w' & added & Hrun & Hh & Hsub & _ & _ & Hfold).
  exists w', added. split_and!; try done.
  { intros row (key & -> & _)%Hsub%list_elem_of_fmap. done. }
  intros s. rewrite <- rows_for_not_nil.
  pose proof (rows_for_foldl_add_row tid s (tbl_history w)
                (placeholder <$> gap_candidates data team_id_map)) as Hkey.
  rewrite <- (Hfold Hup), Hh, rows_for_app in Hkey.
  pose proof (rows_for_placeholders tid s (gap_candidates data team_id_map)) as Hph.
  rewrite (gap_candidates_mapped _ _ _ _ _ Hnd Hmap) in Hph.
  apply list_min_spec in Hmin as Hmin'. apply list_max_spec in Hmax as Hmax'.
  assert (Hrange : first ≤ s ≤ last → 1925 ≤ s ≤ 2025).
  { destruct Hmin' as [[? _]%seasons_appeared_elem_of _].
    destruct Hmax' as [[? _]%seasons_appeared_elem_of _]. lia. }
  destruct (rows_for tid s (tbl_history w)) as [|r0 rs] eqn:Hr.
  - cbn in Hkey. rewrite Hkey. split.
    + intros Hne.
      assert (rows_for tid s (placeholder <$> gap_candidates data team_id_map) ≠ []) as Hne'.
      { intros Hnil. by rewrite Hnil in Hne. }
      apply Hph in Hne' as (f & l & Hf & Hl & Hs & Hnot).
      rewrite Hmin in Hf. rewrite Hmax in Hl. injection Hf as <-. injection Hl as <-.
      split; [done|]. split; [|done]. intros Happ. apply Hnot.
      apply seasons_appeared_elem_of. split; [by apply Hrange | done].
    + intros (Hs & Hnot & _).
      assert (rows_for tid s (placeholder <$> gap_candidates data team_id_map) ≠ []) as Hne'.
      { apply Hph. exists first, last. do 3 (split; [done|]).
        by intros [_ ?]%seasons_appeared_elem_of. }
      by destruct (rows_for tid s (placeholder <$> _)).
  - assert (rows_for tid s added = []) as ->.
    { apply (app_inv_head (r0 :: rs)). by rewrite app_nil_r. }
    split; [done | by intros (_ & _ & ?)].
Qed.

Lemma gap_filler_fills_absent_seasons_witness :
  ∃ w' added,
    fill_gap_years example_env example_data example_map example_resolved = (Ok tt, w') ∧
    tbl_history w' = tbl_history example_resolved ++ added ∧
    (∀ row, row ∈ added → h_conference_id row = None ∧ h_existed row = false) ∧
    ∀ s, (∃ row, row ∈ added ∧ h_team_id row = 50 ∧ h_season row = s) ↔
         2008 ≤ s ≤ 2012 ∧ ¬ appears "G" example_data s ∧
         rows_for 50 s (tbl_history example_resolved) = [].
Proof.
  apply (gap_filler_fills_absent_seasons example_env example_data example_map
           example_resolved "G" 50 2008 2012).
  - exact example_datastore_up.
  - exact example_map_NoDup.
  - apply example_mapped. vm_compute. do 3 right; left.
  - vm_compute. reflexivity.
  - vm_compute. reflexivity.
Defined.

(** C7 (as stated) fails: team D is reported twice in 2010 with its
    eventual conference, so the resolver stores nothing for 2010; the season
    lies between the first (2010) and last (2011) appearance and has no
    row, yet the gap filler adds none, because the team appears in 2010. *)
Lemma gap_filler_skips_unresolved_season :
  ¬ (∀ env data team_id_map w w' sid tid first last s,
       datastore_up env → NoDup team_id_map.*1 → mapped team_id_map sid tid →
       list_min (seasons_appeared sid data) = Some first →
       list_max (seasons_appeared sid data) = Some last →
       fill_gap_years env data team_id_map w = (Ok tt, w') →
       first ≤ s ≤ last → rows_for tid s (tbl_history w) = [] →
       rows_for tid s (tbl_history w') = [HistoryRow tid s None false]).
Proof.
  intros H.
  assert (mapped example_map "D" 40) as Hmap.
  { apply example_mapped. vm_compute. do 2 right; left. }
  assert (list_min (seasons_appeared "D" example_data) = Some 2010) as Hmin
    by (vm_compute; reflexivity).
  assert (list_max (seasons_appeared "D" example_data) = Some 2011) as Hmax
    by (vm_compute; reflexivity).
  assert (rows_for 40 2010 (tbl_history example_resolved) = []) as Hbefore
    by (vm_compute; reflexivity).
  assert (rows_for 40 2010 (tbl_history example_filled) = []) as Hafter
    by (vm_compute; reflexivity).
  specialize (H example_env example_data example_map example_resolved example_filled
                "D" 40 2010 2011 2010 example_datastore_up example_map_NoDup Hmap
                Hmin Hmax example_filled_run ltac:(lia) Hbefore).
  rewrite Hafter in H. discriminate H.
Qed.

(** ** Both passes *)

Lemma build_conference_history_rows env data team_id_map w w' sid tid s :
  datastore_up env →
  build_conference_history env data team_id_map w = (Ok tt, w') →
  mapped team_id_map sid tid →
  rows_for tid s (tbl_history w') =
  take 1 (if decide (1925 ≤ s ≤ 2025) then resolved_rows data sid tid s else []).
Proof.
  intros Hup (_ & _ & _ & _ & _ & Hh)%build_conference_history_run Hmap.
  rewrite (Hh Hup), rows_for_foldl_add_row. cbn.
  by rewrite (build_script_rows _ _ _ sid).
Qed.

(** A resolved team gets no row only in the anomaly. *)
Lemma resolved_script_rows_nil data sid tid s entries :
  Forall (λ a, ¬ is_fail a) (resolved_script data sid tid s entries) → entries ≠ [] →
  script_rows (resolved_script data sid tid s entries) = [] ↔
  (2 ≤ length entries)%nat ∧ ∃ x, find_eventual_conference sid s data = Some x ∧
    ∀ entry, entry ∈ entries → conferenceId entry = Some x.
Proof.
  intros Hnofail Hne. unfold resolved_script in *.
  destruct entries as [|e1 [|e2 rest]]; [done| |].
  { cbn. split; [done|]. intros [Hlen _]. simpl in Hlen. lia. }
  unfold duplicate_script in *.
  destruct (find_eventual_conference sid s data) as [x|].
  - destruct (filter _ _) as [|c cs] eqn:Hf.
    + split; [|done]. intros _. split; [simpl; lia|]. exists x. split; [done|].
      intros entry Hin. destruct (decide (conferenceId entry = Some x)) as [|Hneq]; [done|].
      exfalso. apply (filter_nil_not_elem_of _ _ (conferenceId entry) Hf Hneq).
      apply list_elem_of_fmap. by exists entry.
    + change (script_rows (Count "duplicates_resolved" :: ?l)) with (script_rows l).
      rewrite script_rows_inserts. split; [done|].
      intros (_ & x' & [= <-] & Hall). exfalso.
      assert (c ∈ filter (λ c, c ≠ Some x) (conferenceId <$> e1 :: e2 :: rest)) as Hc
        by (rewrite Hf; left).
      apply list_elem_of_filter in Hc as [Hc (e & -> & He)%list_elem_of_fmap].
      apply Hc. by apply Hall.
  - destruct (sort_conferences _) as [[|c cs]|e].
    + exfalso. apply Forall_cons in Hnofail as [_ Hnofail].
      apply Forall_cons in Hnofail as [_ Hnofail].
      apply Forall_cons in Hnofail as [Hfail _]. by apply Hfail.
    + cbn. split; [done|]. by intros (_ & x & ? & _).
    + exfalso. apply Forall_cons in Hnofail as [_ Hnofail].
      apply Forall_cons in Hnofail as [_ Hnofail].
      apply Forall_cons in Hnofail as [Hfail _]. by apply Hfail.
Qed.

Lemma reported_unique data sid s entries entries' :
  reported data sid s entries → reported data sid s entries' → entries = entries'.
Proof. intros (_ & ? & ? & <-) (_ & ? & ? & <-). congruence. Qed.

Lemma reported_appears data sid s entries :
  reported data sid s entries → entries ≠ [] → s ∈ seasons_appeared sid data.
Proof.
  intros (Hs & teams & Hd & <-) Hne. apply seasons_appeared_elem_of. split; [done|].
  apply appears_entries. by exists teams.
Qed.

(** C1 (as amended). With the datastore up and both passes completed, for
    a mapped team every season between its first and last appearance has at
    most one history record, and exactly one unless the season is the
    anomaly the resolver skips (several reports, all of them the eventual
    conference), which has none. *)
Theorem history_covers_active_range env data team_id_map w w1 w2 sid tid first last s :
  datastore_up env → NoDup team_id_map.*1 → mapped team_id_map sid tid →
  build_conference_history env data team_id_map w = (Ok tt, w1) →
  fill_gap_years env data team_id_map w1 = (Ok tt, w2) →
  list_min (seasons_appeared sid data) = Some first →
  list_max (seasons_appeared sid data) = Some last →
  first ≤ s ≤ last →
  (length (rows_for tid s (tbl_history w2)) ≤ 1)%nat ∧
  (rows_for tid s (tbl_history w2) = [] ↔ anomalous data sid s).
Proof.
  intros Hup Hnd Hmap Hbuild Hfill Hmin Hmax Hs.
  destruct (fill_gap_years_appends env data team_id_map w1)
    as (w2' & _ & Hfill' & _ & _ & _ & _ & Hfold).
  rewrite Hfill in Hfill'. injection Hfill' as <-.
  rewrite (Hfold Hup), rows_for_foldl_add_row.
  rewrite (build_conference_history_rows _ _ _ _ _ sid _ _ Hup Hbuild Hmap).
  assert (1925 ≤ s ≤ 2025) as Hrange.
  { apply list_min_spec in Hmin as [[? _]%seasons_appeared_elem_of _].
    apply list_max_spec in Hmax as [[? _]%seasons_appeared_elem_of _]. lia. }
  rewrite decide_True by done.
  pose proof (rows_for_placeholders tid s (gap_candidates data team_id_map)) as Hph.
  rewrite (gap_candidates_mapped _ _ _ _ _ Hnd Hmap) in Hph.
  destruct (decide (s ∈ seasons_appeared sid data)) as [Happ|Happ].
  - assert (rows_for tid s (placeholder <$> gap_candidates data team_id_map) = []) as ->.
    { destruct (decide (rows_for tid s (placeholder <$> gap_candidates data team_id_map)
                         = [])) as [|Hne]; [done|]. exfalso.
      apply Hph in Hne as (? & ? & _ & _ & _ & Hnot). done. }
    apply seasons_appeared_elem_of in Happ as [_ (teams & Hd & Hne)%appears_entries].
    assert (reported data sid s (entries_of sid teams)) as Hrep by (split; [done | by exists teams]).
    rewrite (resolved_rows_reported _ _ _ _ _ Hrep Hne).
    assert (Forall (λ a, ¬ is_fail a) (resolved_script data sid tid s (entries_of sid teams)))
      as Hnofail.
    { apply build_conference_history_run in Hbuild as (_ & _ & Hnf & _).
      apply Forall_forall. intros a Ha. eapply Forall_forall in Hnf; [done|].
      by eapply build_script_resolved. }
    pose proof (resolved_script_rows_nil _ _ _ _ _ Hnofail Hne) as Hnil.
    destruct (script_rows (resolved_script data sid tid s (entries_of sid teams)))
      as [|row rows] eqn:Hrows; cbn; rewrite ?take_0; cbn.
    + split; [lia|]. split; [|done]. intros _.
      destruct Hnil as [(Hlen & x & Hev & Hall) _]; [done|].
      by exists (entries_of sid teams), x.
    + split; [lia|]. split; [done|].
      intros (entries & x & Hrep' & Hlen & Hev & Hall).
      rewrite (reported_unique _ _ _ _ _ Hrep' Hrep) in *.
      destruct Hnil as [_ Hnil]. discriminate Hnil. split; [done|]. by exists x.
  - assert (resolved_rows data sid tid s = []) as ->.
    { unfold resolved_rows. destruct (data !! s) as [teams|] eqn:Hd; [|done].
      destruct (entries_of sid teams) as [|e es] eqn:He; [done|]. exfalso.
      apply Happ, seasons_appeared_elem_of. split; [done|].
      apply appears_entries. exists teams. by rewrite He. }
    cbn.
    assert (rows_for tid s (placeholder <$> gap_candidates data team_id_map) ≠ []) as Hne.
    { apply Hph. by exists first, last. }
    destruct (rows_for tid s (placeholder <$> _)) as [|row rows]; [done|].
    cbn. rewrite take_0. cbn.
    split; [lia|]. split; [done|].
    intros (entries & x & Hrep & Hlen & _). exfalso. apply Happ.
    apply (reported_appears _ _ _ _ Hrep). intros ->. simpl in Hlen. lia.
Qed.

Lemma history_covers_active_range_witness :
  (length (rows_for 10 2010 (tbl_history example_filled)) ≤ 1)%nat ∧
  (rows_for 10 2010 (tbl_history example_filled) = [] ↔ anomalous example_data "T" 2010).
Proof.
  apply (history_covers_active_range example_env example_data example_map
           example_world example_resolved example_filled "T" 10 2010 2012 2010).
  - exact example_datastore_up.
  - exact example_map_NoDup.
  - apply example_mapped. vm_compute. left.
  - exact example_resolved_run.
  - exact example_filled_run.
  - vm_compute. reflexivity.
  - vm_compute. reflexivity.
  - lia.
Defined.

(** C1 (as stated) fails: team D (key 40) appears from 2010 to 2011; its two
    reports of 2010 both carry the eventual conference, so the resolver
    stores nothing for 2010 and the gap filler, which only considers seasons
    without the team, adds nothing: (40, 2010) has no record. *)
Lemma anomalous_season_has_no_record :
  ¬ (∀ env data team_id_map w w1 w2 sid tid first last s,
       datastore_up env → NoDup team_id_map.*1 → mapped team_id_map sid tid →
       build_conference_history env data team_id_map w = (Ok tt, w1) →
       fill_gap_years env data team_id_map w1 = (Ok tt, w2) →
       list_min (seasons_appeared sid data) = Some first →
       list_max (seasons_appeared sid data) = Some last →
       first ≤ s ≤ last →
       length (rows_for tid s (tbl_history w2)) = 1%nat).
Proof.
  intros H.
  assert (mapped example_map "D" 40) as Hmap.
  { apply example_mapped. vm_compute. do 2 right; left. }
  assert (list_min (seasons_appeared "D" example_data) = Some 2010) as Hmin
    by (vm_compute; reflexivity).
  assert (list_max (seasons_appeared "D" example_data) = Some 2011) as Hmax
    by (vm_compute; reflexivity).
  assert (rows_for 40 2010 (tbl_history example_filled) = []) as Hafter
    by (vm_compute; reflexivity).
  specialize (H example_env example_data example_map example_world example_resolved
                example_filled "D" 40 2010 2011 2010 example_datastore_up
                example_map_NoDup Hmap example_resolved_run example_filled_run
                Hmin Hmax ltac:(lia)).
  rewrite Hafter in H. discriminate H.
Qed.

(** ** Source ids without a key *)

Lemma fold_script_Forall {A S} (P : action → Prop) (f : A → S → list action * S)
    (l : list A) (s : S) :
  (∀ x s, x ∈ l → Forall P (f x s).1) → Forall P (fold_script f l s).1.
Proof.
  revert s. induction l as [|x l IH]; intros s Hf; [constructor|].
  cbn [fold_script]. specialize (Hf x s ltac:(left)) as Hx.
  destruct (f x s) as [a s'] eqn:Hfx. specialize (IH s').
  destruct (fold_script f l s') as [b s'']. cbn [fst] in *.
  apply Forall_app. split; [done|]. apply IH. intros y s0 Hy. apply Hf. by right.
Qed.

(** A loop of scripts never exceeds a budget [Φ] that each body pays for
    what it counts. *)
Lemma fold_script_budget {A S} (c : list action → nat) (Φ : S → nat)
    (f : A → S → list action * S) (l : list A) (s : S) :
  c [] = 0%nat → (∀ a b, c (a ++ b) = (c a + c b)%nat) →
  (∀ x s, (c (f x s).1 + Φ (f x s).2 ≤ Φ s)%nat) →
  (c (fold_script f l s).1 + Φ (fold_script f l s).2 ≤ Φ s)%nat.
Proof.
  intros Hnil Happ Hf. revert s. induction l as [|x l IH]; intros s.
  - cbn. rewrite Hnil. lia.
  - cbn [fold_script]. specialize (Hf x s).
    destruct (f x s) as [a s'] eqn:Hfx. specialize (IH s').
    destruct (fold_script f l s') as [b s'']. cbn [fst snd] in *.
    rewrite Happ. lia.
Qed.

Lemma resolved_script_actions data sid tid s entries :
  Forall (resolved_action sid tid s) (resolved_script data sid tid s entries).
Proof.
  assert (Hins : ∀ cs, Forall (resolved_action sid tid s) (Insert sid tid s <$> cs)).
  { intros cs. apply Forall_fmap, Forall_forall. by intros c _. }
  assert (Hdup : Forall (resolved_action sid tid s) (duplicate_script data sid tid s entries)).
  { unfold duplicate_script. constructor; [done|].
    destruct (find_eventual_conference sid s data) as [ev|].
    - destruct (filter _ _) as [|c cs] eqn:Hf; [by repeat constructor|]. apply Hins.
    - constructor; [done|].
      destruct (sort_conferences _) as [[|c cs]|e]; by repeat constructor. }
  unfold resolved_script. destruct entries as [|e1 [|e2 rest]]; [done| |done].
  by repeat constructor.
Qed.

Lemma no_team_id_count_app sid a b :
  no_team_id_count sid (a ++ b) = (no_team_id_count sid a + no_team_id_count sid b)%nat.
Proof. unfold no_team_id_count. by rewrite omap_app, filter_app, length_app. Qed.

Lemma resolved_script_no_team_id sid' data sid tid s entries :
  no_team_id_count sid' (resolved_script data sid tid s entries) = 0%nat.
Proof.
  unfold no_team_id_count. rewrite filter_none; [done|].
  intros m (a & Ha & Hm)%list_elem_of_omap Hno.
  pose proof (resolved_script_actions data sid tid s entries) as Hall.
  eapply Forall_forall in Hall; [|done].
  destruct a; try done. cbn in Hm. injection Hm as ->. by destruct m.
Qed.

Lemma team_script_budget sid data team_id_map season item without :
  (no_team_id_count sid (team_script data team_id_map season item without).1 +
   (if decide (sid ∈ (team_script data team_id_map season item without).2) then 0 else 1)
   ≤ if decide (sid ∈ without) then 0 else 1)%nat.
Proof.
  destruct item as [source_id entries]. unfold team_script.
  destruct (truthy_id _) as [tid|]; cbn [fst snd].
  - rewrite resolved_script_no_team_id. lia.
  - destruct (decide (source_id ∈ without)) as [Hin|Hin]; cbn [fst snd].
    + cbn. lia.
    + unfold no_team_id_count. cbn.
      destruct (decide (source_id = sid)) as [->|Hne].
      * rewrite decide_True by set_solver.
        rewrite (decide_False _ _ Hin). cbn. lia.
      * cbn. destruct (decide (sid ∈ without)).
        -- rewrite decide_True by set_solver. lia.
        -- rewrite decide_False by set_solver. lia.
Qed.

Lemma season_script_budget sid data team_id_map season without :
  (no_team_id_count sid (season_script data team_id_map season without).1 +
   (if decide (sid ∈ (season_script data team_id_map season without).2) then 0 else 1)
   ≤ if decide (sid ∈ without) then 0 else 1)%nat.
Proof.
  unfold season_script. destruct (data !! season) as [teams|]; [|cbn; lia].
  exact (fold_script_budget (no_team_id_count sid)
           (λ without : gset string, if decide (sid ∈ without) then 0%nat else 1%nat)
           (team_script data team_id_map season) (group_by_source teams) without
           eq_refl (no_team_id_count_app sid)
           (λ item without', team_script_budget sid data team_id_map season item without')).
Qed.

(** The script warns at most once about a source id without a key. *)
Lemma build_script_no_team_id_once data team_id_map sid :
  (no_team_id_count sid (build_script data team_id_map) ≤ 1)%nat.
Proof.
  unfold build_script.
  pose proof (fold_script_budget (no_team_id_count sid)
    (λ without : gset string, if decide (sid ∈ without) then 0%nat else 1%nat)
    (season_script data team_id_map) (range_down 2025 1924) ∅
    eq_refl (no_team_id_count_app sid)
    (λ season without, season_script_budget sid data team_id_map season without)) as H.
  cbv beta in H.
  destruct (decide (sid ∈ (∅ : gset string))) as [Hin|_]; [set_solver|]. lia.
Qed.

(** Every insert of the script is for a source id with a key, reported in
    the season of the insert. *)
Lemma build_script_inserts_mapped data team_id_map :
  Forall (insert_of_mapped data team_id_map) (build_script data team_id_map).
Proof.
  unfold build_script. apply fold_script_Forall.
  intros season without Hs%range_down_seasons. unfold season_script.
  destruct (data !! season) as [teams|] eqn:Hd; [|constructor].
  apply fold_script_Forall.
  intros [sid entries] without' (Hne & -> & Hnil)%group_by_source_elem_of.
  unfold team_script.
  destruct (truthy_id (dict_get sid team_id_map)) as [tid|] eqn:Hid; cbn [fst].
  - eapply Forall_impl; [apply resolved_script_actions|].
    intros [] Ha; try done. destruct Ha as (-> & -> & ->). split; [done|].
    exists (entries_of sid teams). split; [|done]. split; [done|]. by exists teams.
  - destruct (decide _); by repeat constructor.
Qed.

(** C10. A source id without a usable key gets no insert from the
    resolver: every insert the resolver sends is for a source id that has a
    key and is reported in that season, and the missing key of a source id
    is warned about at most once in the whole run. The gap filler only
    queries and fills keys that occur in the mapping, and warns about
    nothing. *)
Theorem unmapped_teams_get_nothing env data team_id_map w w1 w2 :
  build_conference_history env data team_id_map w = (Ok tt, w1) →
  fill_gap_years env data team_id_map w1 = (Ok tt, w2) →
  (∀ sid tid s c, truthy_id (dict_get sid team_id_map) = None →
     Insert sid tid s c ∉ build_script data team_id_map) ∧
  (∀ row, InsertHistory row ∈ issued w w1 →
     ∃ sid entries, truthy_id (dict_get sid team_id_map) = Some (h_team_id row) ∧
       reported data sid (h_season row) entries ∧ entries ≠ []) ∧
  (∀ sid, (length (filter (is_no_team_id sid) (warned w w1)) ≤ 1)%nat) ∧
  (∀ r, r ∈ issued w1 w2 → ∃ sid tid s, (sid, tid) ∈ team_id_map ∧
     (r = SelectHistory tid s ∨ r = InsertHistory (HistoryRow tid s None false))) ∧
  warned w1 w2 = [].
Proof.
  intros Hbuild Hfill.
  pose proof (build_script_inserts_mapped data team_id_map) as Hins.
  apply build_conference_history_run in Hbuild as (Hi & Hw & _).
  split_and!.
  - intros sid tid s c Hnone Hin. eapply Forall_forall in Hins; [|done].
    destruct Hins as [Hsome _]. congruence.
  - intros row. rewrite Hi. intros [[=]|Hin]%elem_of_cons.
    apply list_elem_of_omap in Hin as (a & Ha & Hreq).
    eapply Forall_forall in Hins; [|done].
    destruct a; try done. cbn in Hreq. injection Hreq as <-. cbn.
    destruct Hins as (Hid & entries & Hrep & Hne). by exists source_id, entries.
  - intros sid. rewrite Hw. apply build_script_no_team_id_once.
  - destruct (fill_gap_years_appends env data team_id_map w1)
      as (w2' & _ & Hfill' & _ & _ & _ & (l & Hs & Hl) & _).
    rewrite Hfill in Hfill'. injection Hfill' as <-.
    rewrite (issued_app _ _ _ Hs). intros r (key & Hk & Hr)%Hl.
    apply gap_candidates_elem_of in Hk as (sid & Hin & _).
    exists sid, key.1, key.2. split; [done|].
    destruct Hr as [->| ->]; [by left | by right].
  - destruct (fill_gap_years_appends env data team_id_map w1)
      as (w2' & _ & Hfill' & _ & _ & Hw2 & _).
    rewrite Hfill in Hfill'. injection Hfill' as <-.
    apply warned_app. by rewrite app_nil_r.
Qed.

Lemma unmapped_teams_get_nothing_witness :
  (∀ sid tid s c, truthy_id (dict_get sid example_map) = None →
     Insert sid tid s c ∉ build_script example_data example_map) ∧
  (∀ row, InsertHistory row ∈ issued example_world example_resolved →
     ∃ sid entries, truthy_id (dict_get sid example_map) = Some (h_team_id row) ∧
       reported example_data sid (h_season row) entries ∧ entries ≠ []) ∧
  (∀ sid, (length (filter (is_no_team_id sid)
                     (warned example_world example_resolved)) ≤ 1)%nat) ∧
  (∀ r, r ∈ issued example_resolved example_filled → ∃ sid tid s, (sid, tid) ∈ example_map ∧
     (r = SelectHistory tid s ∨ r = InsertHistory (HistoryRow tid s None false))) ∧
  warned example_resolved example_filled = [].
Proof.
  apply (unmapped_teams_get_nothing example_env example_data example_map
           example_world example_resolved example_filled).
  - exact example_resolved_run.
  - exact example_filled_run.
Defined.

(** ** Collecting the seasons *)

Lemma failed_app w w' l :
  errors (logger w') = errors (logger w) ++ l → failed w w' = l.
Proof. unfold failed. intros ->. by rewrite drop_app_length. Qed.

(** One fetch: one request, never repeated; a failure is logged and
    answered by the empty list. *)
Lemma fetch_teams_for_season_run env season w :
  ∃ w', sent w' = sent w ++ [GetTeams season] ∧
    warnings (logger w') = warnings (logger w) ∧
    tbl_history w' = tbl_history w ∧ tbl_teams w' = tbl_teams w ∧
    tbl_conferences w' = tbl_conferences w ∧
    match teams_endpoint env (length (sent w)) season with
    | Some teams =>
        fetch_teams_for_season env season w = (Ok teams, w') ∧
        errors (logger w') = errors (logger w)
    | None =>
        fetch_teams_for_season env season w = (Ok [], w') ∧
        errors (logger w') = errors (logger w) ++ [FetchTeamsFailed season]
    end.
Proof.
  unfold fetch_teams_for_season, get_teams. unfold_prims.
  destruct (teams_endpoint env (length (sent w)) season); cbn.
  - exists (World (tbl_conferences w) (tbl_teams w) (tbl_history w)
              (sent w ++ [GetTeams season]) (logger w)).
    cbn. split_and!; reflexivity.
  - eexists (World _ _ _ _ (MkLogger _ _ _)); cbn; split_and!; reflexivity.
Qed.

Lemma collect_seasons_run env (seasons : list Z) d m w :
  NoDup seasons →
  ∃ d' m' w' extra,
    for_fold seasons (d, m) (collect_season env) w = (Ok (d', m'), w') ∧
    sent w' = sent w ++ (GetTeams <$> seasons) ∧
    errors (logger w') = errors (logger w) ++ extra ∧
    (∀ s, s ∉ seasons → d' !! s = d !! s) ∧
    (∀ i s, seasons !! i = Some s →
       d' !! s = from_option Some (d !! s)
                   (kept (teams_endpoint env (length (sent w) + i) s)) ∧
       (teams_endpoint env (length (sent w) + i) s = None →
          FetchTeamsFailed s ∈ extra)).
Proof.
  revert d m w. induction seasons as [|season seasons IH]; intros d m w Hnd.
  - exists d, m, w, []. rewrite !app_nil_r. split_and!; try done.
  - apply NoDup_cons in Hnd as [Hfresh Hnd].
    cbn [for_fold]. unfold bind, collect_season at 1. unfold bind.
    destruct (fetch_teams_for_season_run env season w)
      as (w1 & Hs1 & _ & _ & _ & _ & Hfetch).
    set (answer := teams_endpoint env (length (sent w)) season) in *.
    assert (∃ teams errs,
      fetch_teams_for_season env season w = (Ok teams, w1) ∧
      errors (logger w1) = errors (logger w) ++ errs ∧
      (answer = None → errs = [FetchTeamsFailed season]) ∧
      match teams with [] => kept answer = None | _ => kept answer = Some teams end)
      as (teams & errs & -> & He1 & Herr & Hkept).
    { destruct answer as [teams|].
      - destruct Hfetch as [-> He]. exists teams, []. rewrite app_nil_r.
        split_and!; try done. by destruct teams.
      - destruct Hfetch as [-> He]. by exists [], [FetchTeamsFailed season]. }
    set (d1 := match teams with [] => d | _ :: _ => <[season := teams]> d end).
    set (m1 := match teams with
               | [] => m
               | _ :: _ => foldl (track_team season) m teams
               end).
    destruct (IH d1 m1 w1 Hnd) as (d' & m' & w' & extra & Hrun & Hs & He & Hout & Hin).
    exists d', m', w', (errs ++ extra).
    assert (d1 !! season = from_option Some (d !! season) (kept answer)) as Hd1.
    { subst d1. destruct teams; rewrite Hkept; [done|]. by rewrite lookup_insert_eq. }
    assert (∀ s, s ≠ season → d1 !! s = d !! s) as Hd1'.
    { intros s Hne. subst d1. destruct teams; [done|]. by rewrite lookup_insert_ne. }
    split_and!.
    + destruct teams; exact Hrun.
    + rewrite Hs, Hs1, <- app_assoc. done.
    + rewrite He, He1, <- app_assoc. done.
    + intros s [Hne Hs']%not_elem_of_cons. rewrite (Hout s Hs'). by apply Hd1'.
    + intros [|i] s Hi.
      * injection Hi as <-. rewrite Nat.add_0_r. fold answer.
        rewrite (Hout season Hfresh), Hd1. split; [done|].
        intros ->%Herr. apply elem_of_app. left. left.
      * cbn in Hi. destruct (Hin i s Hi) as [Hd Hf].
        rewrite Hs1, length_app in Hd, Hf. cbn in Hd, Hf.
        replace (length (sent w) + S i)%nat with (length (sent w) + 1 + i)%nat by lia.
        rewrite Hd1' in Hd.
        2:{ intros ->. apply Hfresh. by eapply list_elem_of_lookup_2. }
        split; [done|]. intros Hnone. apply elem_of_app. right. auto.
Qed.

Lemma range_lookup_season s :
  1925 ≤ s ≤ 2025 → range 1925 2026 !! Z.to_nat (s - 1925) = Some s.
Proof. intros Hs. unfold range. apply lookup_seqZ. lia. Qed.

(** C9. When the fetch of a season fails, [fetch_teams_for_season] sends
    that one request, logs the error and answers the empty list; the loop
    of phase 1 then leaves the season out of [all_seasons_data], asks for
    every season from 1925 to 2025 once and only once (no retry), and keeps
    every other season whose fetch returns teams. *)
Theorem failed_season_is_skipped env w season :
  1925 ≤ season ≤ 2025 →
  teams_endpoint env (fetch_time w season) season = None →
  (∀ w0, teams_endpoint env (length (sent w0)) season = None →
     ∃ w0', fetch_teams_for_season env season w0 = (Ok [], w0') ∧
       issued w0 w0' = [GetTeams season] ∧
       failed w0 w0' = [FetchTeamsFailed season]) ∧
  ∃ all_seasons_data all_teams_map w',
    collect_all_seasons_data env w = (Ok (all_seasons_data, all_teams_map), w') ∧
    all_seasons_data !! season = None ∧
    FetchTeamsFailed season ∈ failed w w' ∧
    issued w w' = GetTeams <$> range 1925 2026 ∧
    ∀ s teams, 1925 ≤ s ≤ 2025 → teams ≠ [] →
      teams_endpoint env (fetch_time w s) s = Some teams →
      all_seasons_data !! s = Some teams.
Proof.
  intros Hseason Hfail. split.
  - intros w0 Hnone.
    destruct (fetch_teams_for_season_run env season w0) as (w0' & Hs & _ & _ & _ & _ & Hrun).
    rewrite Hnone in Hrun. destruct Hrun as [Hrun He].
    exists w0'. split_and!; [done | by apply issued_app | by apply failed_app].
  - unfold collect_all_seasons_data.
    destruct (collect_seasons_run env (range 1925 2026) ∅ [] w)
      as (d & m & w' & extra & Hrun & Hs & He & _ & Hin); [apply NoDup_seqZ|].
    exists d, m, w'. split_and!.
    + done.
    + destruct (Hin _ _ (range_lookup_season season Hseason)) as [-> _].
      unfold fetch_time in Hfail. by rewrite Hfail.
    + rewrite (failed_app _ _ _ He).
      destruct (Hin _ _ (range_lookup_season season Hseason)) as [_ Hlog]. by apply Hlog.
    + by apply issued_app.
    + intros s teams Hrange Hne Hanswer.
      destruct (Hin _ _ (range_lookup_season s Hrange)) as [-> _].
      unfold fetch_time in Hanswer. rewrite Hanswer. by destruct teams.
Qed.

Lemma failed_season_is_skipped_witness :
  (∀ w0, teams_endpoint example_env_2010_down (length (sent w0)) 2010 = None →
     ∃ w0', fetch_teams_for_season example_env_2010_down 2010 w0 = (Ok [], w0') ∧
       issued w0 w0' = [GetTeams 2010] ∧
       failed w0 w0' = [FetchTeamsFailed 2010]) ∧
  ∃ all_seasons_data all_teams_map w',
    collect_all_seasons_data example_env_2010_down example_world
      = (Ok (all_seasons_data, all_teams_map), w') ∧
    all_seasons_data !! 2010 = None ∧
    FetchTeamsFailed 2010 ∈ failed example_world w' ∧
    issued example_world w' = GetTeams <$> range 1925 2026 ∧
    ∀ s teams, 1925 ≤ s ≤ 2025 → teams ≠ [] →
      teams_endpoint example_env_2010_down (fetch_time example_world s) s = Some teams →
      all_seasons_data !! s = Some teams.
Proof.
  apply (failed_season_is_skipped example_env_2010_down example_world 2010).
  - lia.
  - reflexivity.
Defined.

(** ** The whole run *)

Lemma for_each_total {A} (body : A → M unit) (l : list A) w :
  (∀ x w, ∃ w', body x w = (Ok tt, w')) → ∃ w', for_each l body w = (Ok tt, w').
Proof.
  intros Hbody. revert w. induction l as [|x l IH]; intros w; [by eexists|].
  cbn [for_each]. unfold bind. destruct (Hbody x w) as [w1 ->]. apply IH.
Qed.

Lemma upsert_conferences_total env conferences w :
  ∃ w', upsert_conferences env conferences w = (Ok tt, w').
Proof.
  apply for_each_total. intros conf w0.
  unfold upsert_conference. unfold_prims.
  destruct (datastore_down env _ _); cbn; by eexists.
Qed.

Lemma upsert_teams_total env all_teams_map w :
  ∃ w', upsert_teams env all_teams_map w = (Ok tt, w').
Proof.
  apply for_each_total. intros [source_id [last_season team]] w0.
  unfold upsert_team, set_teams. unfold_prims.
  destruct (datastore_down env _ _); cbn; by eexists.
Qed.

Lemma kept_Some answer teams : kept answer = Some teams → answer = Some teams.
Proof. destruct answer as [[|]|]; cbn; congruence. Qed.

(** Phase 1 always completes, and what it keeps came from the API. *)
Lemma collect_all_seasons_data_total env w :
  ∃ data all_teams_map w',
    collect_all_seasons_data env w = (Ok (data, all_teams_map), w') ∧
    ∀ s teams, data !! s = Some teams → ∃ n, teams_endpoint env n s = Some teams.
Proof.
  unfold collect_all_seasons_data.
  destruct (collect_seasons_run env (range 1925 2026) ∅ [] w)
    as (d & m & w' & extra & Hrun & _ & _ & Hout & Hin); [apply NoDup_seqZ|].
  exists d, m, w'. split; [done|]. intros s teams Hd.
  destruct (decide (s ∈ range 1925 2026)) as [Hs|Hs].
  - apply list_elem_of_lookup in Hs as [i Hi].
    destruct (Hin i s Hi) as [Heq _]. rewrite Hd, lookup_empty in Heq.
    destruct (kept _) as [l|] eqn:Hk; [|done]. cbn in Heq. injection Heq as ->.
    eexists. by apply kept_Some.
  - rewrite (Hout s Hs), lookup_empty in Hd. done.
Qed.

(** With every conference id present the script of the resolver has no
    failing action. *)
Lemma build_script_no_fail data team_id_map :
  (∀ s teams t, data !! s = Some teams → t ∈ teams → conferenceId t ≠ None) →
  Forall (λ a, ¬ is_fail a) (build_script data team_id_map).
Proof.
  intros Hknown. unfold build_script. apply fold_script_Forall.
  intros season without _. unfold season_script.
  destruct (data !! season) as [teams|] eqn:Hd; [|constructor].
  apply fold_script_Forall.
  intros [sid entries] without' (Hne & -> & Hnil)%group_by_source_elem_of.
  unfold team_script.
  destruct (truthy_id (dict_get sid team_id_map)) as [tid|]; cbn [fst].
  2:{ destruct (decide _); repeat constructor; auto. }
  unfold resolved_script.
  assert (Forall (λ a, ¬ is_fail a)
            (duplicate_script data sid tid season (entries_of sid teams))) as Hdup.
  { unfold duplicate_script. constructor; [auto|].
    destruct (find_eventual_conference sid season data) as [ev|].
    - destruct (filter _ _) as [|c cs]; [repeat constructor; auto|].
      apply Forall_fmap, Forall_forall. intros c' _. cbn. auto.
    - constructor; [auto|].
      destruct (sort_conferences_total (conferenceId <$> entries_of sid teams))
        as [sorted Hsorted].
      { apply Forall_fmap, Forall_forall. intros t [_ Ht]%list_elem_of_filter. cbn.
        by eapply Hknown. }
      rewrite Hsorted. destruct sorted as [|c cs]; [|repeat constructor; auto].
      exfalso. eapply sort_conferences_not_empty; [|done].
      intros Hmap. apply fmap_nil_inv in Hmap. done. }
  destruct (entries_of sid teams) as [|e1 [|e2 rest]]; [done| |done].
  repeat constructor. auto.
Qed.

Lemma get_team_id_map_run env w :
  datastore_down env (length (sent w)) SelectTeams = false →
  ∃ w', get_team_id_map env w = (Ok (team_id_map_of (tbl_teams w)), w').
Proof.
  intros Hup. unfold get_team_id_map, select_teams. unfold_prims. rewrite Hup.
  cbn. by eexists.
Qed.

Lemma get_team_id_map_raises env w :
  datastore_down env (length (sent w)) SelectTeams = true →
  ∃ w', get_team_id_map env w = (Raise (RequestFailed SelectTeams), w').
Proof.
  intros Hdown. unfold get_team_id_map, select_teams. unfold_prims. rewrite Hdown.
  cbn. by eexists.
Qed.

Lemma validate_data_total env w :
  (∀ n r, r ∈ unguarded_queries → datastore_down env n r = false) →
  ∃ w', validate_data env w = (Ok tt, w').
Proof.
  intros Hup. unfold validate_data, select_history_conferences, select_conferences,
    select_gap_records, count_teams, count_history. unfold_prims.
  rewrite Hup by (unfold unguarded_queries; set_solver). cbn.
  rewrite Hup by (unfold unguarded_queries; set_solver). cbn.
  destruct (decide _); cbn;
    repeat (rewrite Hup by (unfold unguarded_queries; set_solver); cbn);
    by eexists.
Qed.

Lemma example_data_conferences_known (season : Z) (teams : list team) (t : team) :
  Some (default [] (example_data !! season)) = Some teams → t ∈ teams →
  conferenceId t ≠ None.
Proof.
  assert (map_Forall (λ _ teams, Forall (λ t, conferenceId t ≠ None) teams) example_data)
    as Hall.
  { refine (bool_decide_unpack _ _). vm_compute. exact I. }
  intros [= <-] Ht.
  destruct (example_data !! season) as [teams|] eqn:Hd; cbn in Ht.
  - apply Hall in Hd. by eapply Forall_forall in Hd.
  - by apply elem_of_nil in Ht.
Qed.

Lemma example_conferences_known : conferences_known example_env.
Proof. intros n season teams t. apply example_data_conferences_known. Qed.

Lemma example_select_down_conferences_known : conferences_known example_env_select_down.
Proof. intros n season teams t. apply example_data_conferences_known. Qed.

(** C8 (as stated) fails: with the API and the datastore reached at
    startup and every team carrying a conference id, a datastore that later
    rejects the query of [get_team_id_map] ends the run with that
    exception, which [main] logs and raises again. *)
Lemma select_teams_failure_is_fatal :
  ¬ (∀ env w, past_startup env w → conferences_known env →
       ∃ w', main env w = (Ok tt, w')).
Proof.
  intros H.
  assert (past_startup example_env_select_down example_world) as Hstart.
  { split; [done|]. intros r. cbn. apply bool_decide_eq_false. intros [_ Hn]. lia. }
  assert (main example_env_select_down example_world
          = (Raise (RequestFailed SelectTeams), example_aborted)) as Hrun
    by (vm_compute; reflexivity).
  destruct (H _ _ Hstart example_select_down_conferences_known) as [w' Hw'].
  rewrite Hrun in Hw'. discriminate Hw'.
Qed.

(** ** The mapping read from the table of teams *)

Lemma team_id_map_of_snoc rows row :
  team_id_map_of (rows ++ [row]) =
  match truthy (t_source_id row) with
  | Some source_id => dict_set source_id (t_id row) (team_id_map_of rows)
  | None => team_id_map_of rows
  end.
Proof. unfold team_id_map_of. by rewrite foldl_snoc. Qed.

(** The mapping is a dictionary: its keys are distinct. *)
Lemma team_id_map_of_NoDup rows : NoDup (team_id_map_of rows).*1.
Proof.
  induction rows as [|row rows IH] using rev_ind; [constructor|].
  rewrite team_id_map_of_snoc. destruct (truthy _); [|done]. by apply dict_set_NoDup.
Qed.

Lemma team_id_map_of_get rows sid tid :
  dict_get sid (team_id_map_of rows) = Some tid →
  sid ≠ "" ∧ ∃ row, row ∈ rows ∧ t_source_id row = Some sid ∧ t_id row = tid.
Proof.
  induction rows as [|row rows IH] using rev_ind; [done|].
  rewrite team_id_map_of_snoc.
  destruct (truthy (t_source_id row)) as [s|] eqn:Ht.
  - apply truthy_Some in Ht as [Hs Hne].
    destruct (decide (s = sid)) as [->|Hneq].
    + rewrite dict_get_set_eq. intros [= <-]. split; [done|].
      exists row. split; [|done]. apply elem_of_app. right. left.
    + rewrite dict_get_set_ne by done. intros (? & r & Hin & ?)%IH. split; [done|].
      exists r. split; [|done]. apply elem_of_app. by left.
  - intros (? & r & Hin & ?)%IH. split; [done|].
    exists r. split; [|done]. apply elem_of_app. by left.
Qed.

Lemma NoDup_fmap_elem_inj {A B} (f : A → B) (l : list A) x y :
  NoDup (f <$> l) → x ∈ l → y ∈ l → f x = f y → x = y.
Proof.
  induction l as [|a l IH]; [by intros _ ?%elem_of_nil|].
  rewrite fmap_cons. intros [Ha Hnd]%NoDup_cons Hx Hy Hf.
  apply elem_of_cons in Hx as [->|Hx]; apply elem_of_cons in Hy as [->|Hy]; try done.
  - exfalso. apply Ha. rewrite Hf. apply list_elem_of_fmap. by exists y.
  - exfalso. apply Ha. rewrite <- Hf. apply list_elem_of_fmap. by exists x.
  - by apply IH.
Qed.

(** With distinct primary keys in [teams], every source id that
    [get_team_id_map] maps to a non-zero key is [mapped]. *)
Lemma team_id_map_of_mapped rows sid tid :
  NoDup (t_id <$> rows) → tid ≠ 0 →
  dict_get sid (team_id_map_of rows) = Some tid →
  mapped (team_id_map_of rows) sid tid.
Proof.
  intros Hnd Hnz Hget.
  pose proof (team_id_map_of_get _ _ _ Hget) as (Hne & row & Hin & Hs & Hid).
  split_and!; try done.
  intros sid' (_ & row' & Hin' & Hs' & Hid')%team_id_map_of_get.
  assert (row' = row) as ->.
  { apply (NoDup_fmap_elem_inj t_id rows); try done. congruence. }
  congruence.
Qed.

(** ** Null conference ids *)

(** A duplicate without eventual conference whose reports include a null
    conference id: the sort raises [TypeError] outside any [try], and the
    resolver stops there. *)
Lemma null_conference_duplicates_raise :
  ∃ w', build_conference_history example_env
          (<[2010 := [Team (Some "T") None None; example_team "T" 1]]> ∅)
          example_map example_world
        = (Raise TypeError, w').
Proof. eexists. vm_compute. reflexivity. Qed.

(** ** When the resolver completes *)

(** The resolver completes exactly when its script has no failing action,
    whatever the datastore does. *)
Lemma build_conference_history_completes_iff env data team_id_map w :
  (∃ w', build_conference_history env data team_id_map w = (Ok tt, w')) ↔
  Forall (λ a, ¬ is_fail a) (build_script data team_id_map).
Proof.
  split.
  - intros [w' Hrun]. by apply build_conference_history_run in Hrun as (_ & _ & ? & _).
  - apply build_conference_history_total.
Qed.

(** In particular it completes on snapshots whose teams all carry a
    conference id. *)
Lemma build_conference_history_completes env data team_id_map w :
  (∀ s teams t, data !! s = Some teams → t ∈ teams → conferenceId t ≠ None) →
  ∃ w', build_conference_history env data team_id_map w = (Ok tt, w').
Proof. intros Hknown. by apply build_conference_history_total, build_script_no_fail. Qed.

(** * Further properties of the script *)

Lemma fetch_conferences_raises env w :
  conferences_endpoint env (length (sent w)) = None →
  fetch_conferences env w =
    (Raise (RequestFailed GetConferences),
     World (tbl_conferences w) (tbl_teams w) (tbl_history w) (sent w ++ [GetConferences])
       (MkLogger (warnings (logger w)) (errors (logger w) ++ [FetchConferencesFailed])
          (stats (logger w)))).
Proof.
  intros Hdown. unfold fetch_conferences, get_conferences. unfold_prims.
  rewrite Hdown. done.
Qed.

(** X1. When the request for the conferences fails, [fetch_conferences]
    logs the failure and raises again, and [main] logs a fatal error and
    raises in turn: the run ends after that single request, with the two
    errors logged and no table touched. *)
Theorem conference_fetch_failure_is_fatal env w :
  conferences_endpoint env (length (sent w)) = None →
  ∃ w', main env w = (Raise (RequestFailed GetConferences), w') ∧
    issued w w' = [GetConferences] ∧
    failed w w' = [FetchConferencesFailed; FatalError] ∧
    warned w w' = [] ∧
    tbl_conferences w' = tbl_conferences w ∧ tbl_teams w' = tbl_teams w ∧
    tbl_history w' = tbl_history w.
Proof.
  intros Hdown. unfold main, try_except, bind at 1.
  rewrite (fetch_conferences_raises _ _ Hdown).
  unfold bind, error, raise, set_logger. cbn.
  eexists. split; [done|]. cbn. split_and!; try done.
  - by apply issued_app.
  - apply failed_app. cbn. by rewrite <- app_assoc.
  - apply warned_app. cbn. by rewrite app_nil_r.
Qed.

Lemma conference_fetch_failure_is_fatal_witness :
  ∃ w', main example_env_api_down example_world = (Raise (RequestFailed GetConferences), w') ∧
    issued example_world w' = [GetConferences] ∧
    failed example_world w' = [FetchConferencesFailed; FatalError] ∧
    warned example_world w' = [] ∧
    tbl_conferences w' = tbl_conferences example_world ∧
    tbl_teams w' = tbl_teams example_world ∧
    tbl_history w' = tbl_history example_world.
Proof.
  apply (conference_fetch_failure_is_fatal example_env_api_down example_world).
  reflexivity.
Defined.

(** ** Loops with an invariant *)

Lemma for_each_inv {A} (I : list A → world → Prop) (body : A → M unit) (l : list A) w :
  I [] w →
  (∀ done_ x w0, I done_ w0 → ∃ w1, body x w0 = (Ok tt, w1) ∧ I (done_ ++ [x]) w1) →
  ∃ w', for_each l body w = (Ok tt, w') ∧ I l w'.
Proof.
  revert I w. induction l as [|x l IH]; intros I w H0 Hstep.
  - by exists w.
  - cbn [for_each]. unfold bind.
    destruct (Hstep [] x w H0) as (w1 & -> & H1).
    apply (IH (λ done_, I (x :: done_))); [done|].
    intros done_ y w0 Hd. apply (Hstep (x :: done_) y w0 Hd).
Qed.

Lemma counter_stat key key' w w' :
  stat key w = (Ok tt, w') →
  counter key' w' = if decide (key = key') then S (counter key' w) else counter key' w.
Proof.
  unfold stat, counter, set_logger. intros [= <-]. cbn.
  destruct (decide (key = key')) as [->|Hne].
  - by rewrite lookup_insert_eq.
  - by rewrite lookup_insert_ne.
Qed.

Lemma upsert_conference_step env conf w :
  ∃ w1 errs,
    try_except (upsert_conference env conf ;; stat "conferences_processed")
      (λ _, error (UpsertConferenceFailed (conf_name conf))) w = (Ok tt, w1) ∧
    sent w1 = sent w ++ [UpsertConference conf] ∧
    errors (logger w1) = errors (logger w) ++ errs ∧
    (counter "conferences_processed" w1 + length errs
       = S (counter "conferences_processed" w))%nat ∧
    (∀ m, m ∈ errs → m = UpsertConferenceFailed (conf_name conf)) ∧
    warnings (logger w1) = warnings (logger w) ∧
    tbl_teams w1 = tbl_teams w ∧ tbl_history w1 = tbl_history w ∧
    (tbl_conferences w1 = tbl_conferences w ∧
       datastore_down env (length (sent w)) (UpsertConference conf) ≠ false
     ∨
     tbl_conferences w1 = upsert_conference_row conf (tbl_conferences w) ∧ errs = []).
Proof.
  unfold upsert_conference, set_conferences, counter. unfold_prims.
  destruct (datastore_down env _ _); cbn.
  - eexists _, [_]. split; [done|]. cbn. split_and!; auto; try done.
    + lia.
    + by intros m ->%list_elem_of_singleton.
  - eexists _, []. split; [done|]. cbn. rewrite lookup_insert_eq, app_nil_r. cbn.
    split_and!; auto; try done. by intros m ?%elem_of_nil.
Qed.

Lemma upsert_conferences_run env conferences w :
  ∃ w' errs applied,
    upsert_conferences env conferences w = (Ok tt, w') ∧
    sent w' = sent w ++ (UpsertConference <$> conferences) ∧
    errors (logger w') = errors (logger w) ++ errs ∧
    (counter "conferences_processed" w' + length errs
       = counter "conferences_processed" w + length conferences)%nat ∧
    (∀ m, m ∈ errs →
       ∃ conf, conf ∈ conferences ∧ m = UpsertConferenceFailed (conf_name conf)) ∧
    warnings (logger w') = warnings (logger w) ∧
    tbl_teams w' = tbl_teams w ∧ tbl_history w' = tbl_history w ∧
    applied `sublist_of` conferences ∧
    tbl_conferences w' = foldl apply_conference (tbl_conferences w) applied ∧
    (datastore_up env → applied = conferences ∧ errs = []).
Proof.
  unfold upsert_conferences.
  destruct (for_each_inv (λ done_ w1, ∃ errs applied,
      sent w1 = sent w ++ (UpsertConference <$> done_) ∧
      errors (logger w1) = errors (logger w) ++ errs ∧
      (counter "conferences_processed" w1 + length errs
         = counter "conferences_processed" w + length done_)%nat ∧
      (∀ m, m ∈ errs →
         ∃ conf, conf ∈ done_ ∧ m = UpsertConferenceFailed (conf_name conf)) ∧
      warnings (logger w1) = warnings (logger w) ∧
      tbl_teams w1 = tbl_teams w ∧ tbl_history w1 = tbl_history w ∧
      applied `sublist_of` done_ ∧
      tbl_conferences w1 = foldl apply_conference (tbl_conferences w) applied ∧
      (datastore_up env → applied = done_ ∧ errs = []))
    (λ conf, try_except (upsert_conference env conf ;; stat "conferences_processed")
               (λ _, error (UpsertConferenceFailed (conf_name conf))))
    conferences w) as (w' & Hrun & errs & applied & H).
  - exists [], []. rewrite !app_nil_r. cbn. split_and!; try done.
    by intros m ?%elem_of_nil.
  - intros done_ conf w0 (errs & applied & Hs & He & Hc & Hm & Hw & Ht & Hh & Hsub & Htc & Hup).
    destruct (upsert_conference_step env conf w0)
      as (w1 & errs1 & Hrun & Hs1 & He1 & Hc1 & Hm1 & Hw1 & Ht1 & Hh1 & Hstep).
    exists w1. split; [done|].
    assert (∀ m, m ∈ errs ++ errs1 →
      ∃ conf0, conf0 ∈ done_ ++ [conf] ∧ m = UpsertConferenceFailed (conf_name conf0))
      as Hm'.
    { intros m [Hin|Hin]%elem_of_app.
      - destruct (Hm m Hin) as (c & Hc' & ->). exists c. split; [|done].
        apply elem_of_app. by left.
      - exists conf. split; [|by apply Hm1]. apply elem_of_app. right. left. }
    destruct Hstep as [[Htc1 Herrs]|[Htc1 ->]].
    + exists (errs ++ errs1), applied. rewrite !length_app. cbn [length].
      split_and!; try congruence; try lia; try done;
        try (rewrite Hs1, Hs, fmap_app, <- app_assoc; done);
        try (rewrite He1, He, <- app_assoc; done);
        try (by apply sublist_inserts_r).
    + exists errs, (applied ++ [conf]). rewrite app_nil_r in He1, Hm'.
      rewrite !length_app in *. cbn [length] in *.
      split_and!; try congruence; try lia; try done;
        try (rewrite Hs1, Hs, fmap_app, <- app_assoc; done);
        try (by apply sublist_app);
        try (rewrite foldl_snoc, <- Htc; done).
      intros Hup0. destruct (Hup Hup0) as [-> ->]. done.
  - exists w', errs, applied. split; [done|]. exact H.
Qed.

(** X2. [upsert_conferences] never raises: it sends one upsert per
    conference, in order, and every conference is either counted in
    [conferences_processed] or reported in an error that names it; no
    warning is logged and the teams and the history are left alone. *)
Theorem upsert_conferences_counts_or_reports env conferences w :
  ∃ w', upsert_conferences env conferences w = (Ok tt, w') ∧
    issued w w' = UpsertConference <$> conferences ∧
    (counter "conferences_processed" w' + length (failed w w')
       = counter "conferences_processed" w + length conferences)%nat ∧
    (∀ m, m ∈ failed w w' →
       ∃ conf, conf ∈ conferences ∧ m = UpsertConferenceFailed (conf_name conf)) ∧
    warned w w' = [] ∧ tbl_teams w' = tbl_teams w ∧ tbl_history w' = tbl_history w.
Proof.
  destruct (upsert_conferences_run env conferences w)
    as (w' & errs & applied & Hrun & Hs & He & Hc & Hm & Hw & Ht & Hh & _).
  exists w'. split; [done|].
  rewrite (issued_app _ _ _ Hs), (failed_app _ _ _ He), (warned_app w w' []).
  2:{ by rewrite app_nil_r. }
  split_and!; try done.
Qed.

(** ** Phase 2: the upsert of the teams *)

Lemma upsert_teams_loop env all_teams_map w :
  upsert_teams env all_teams_map w = for_each all_teams_map (upsert_one_team env) w.
Proof.
  unfold upsert_teams. apply for_each_ext. by intros [source_id [last_season team]] w1.
Qed.

Lemma upsert_one_team_run env item w :
  ∃ w1 errs,
    upsert_one_team env item w = (Ok tt, w1) ∧
    sent w1 = sent w ++ [upsert_request item] ∧
    errors (logger w1) = errors (logger w) ++ errs ∧
    counter "teams_processed" w1 = S (counter "teams_processed" w) ∧
    (counter "teams_successful" w1 + length errs = S (counter "teams_successful" w))%nat ∧
    (counter "teams_failed" w1 = counter "teams_failed" w + length errs)%nat ∧
    warnings (logger w1) = warnings (logger w) ∧
    tbl_conferences w1 = tbl_conferences w ∧ tbl_history w1 = tbl_history w ∧
    (if datastore_down env (length (sent w)) (upsert_request item)
     then tbl_teams w1 = tbl_teams w ∧
          errs = [UpsertTeamFailed (school item.2.2) item.1]
     else tbl_teams w1 = apply_upsert env (tbl_teams w) item ∧ errs = []).
Proof.
  destruct item as [source_id [last_season team]].
  unfold upsert_one_team, upsert_team, upsert_request, apply_upsert, set_teams, counter.
  unfold_prims. cbn [fst snd].
  destruct (datastore_down env _ _); cbn.
  - eexists _, [_]. split; [done|]. cbn.
    repeat (rewrite lookup_insert_eq || rewrite lookup_insert_ne by done); cbn.
    split_and!; auto; try done; try lia.
  - eexists _, []. split; [done|]. cbn.
    repeat (rewrite lookup_insert_eq || rewrite lookup_insert_ne by done); cbn.
    rewrite app_nil_r.
    split_and!; auto; try done; try lia.
Qed.

Lemma upsert_teams_run env all_teams_map w :
  ∃ w' errs applied,
    upsert_teams env all_teams_map w = (Ok tt, w') ∧
    sent w' = sent w ++ (upsert_request <$> all_teams_map) ∧
    errors (logger w') = errors (logger w) ++ errs ∧
    (counter "teams_processed" w'
       = counter "teams_processed" w + length all_teams_map)%nat ∧
    (counter "teams_successful" w' + length errs
       = counter "teams_successful" w + length all_teams_map)%nat ∧
    (counter "teams_failed" w' = counter "teams_failed" w + length errs)%nat ∧
    (∀ m, m ∈ errs →
       ∃ item, item ∈ all_teams_map ∧ m = UpsertTeamFailed (school item.2.2) item.1) ∧
    warnings (logger w') = warnings (logger w) ∧
    tbl_conferences w' = tbl_conferences w ∧ tbl_history w' = tbl_history w ∧
    applied `sublist_of` all_teams_map ∧
    tbl_teams w' = foldl (apply_upsert env) (tbl_teams w) applied ∧
    (datastore_up env → applied = all_teams_map ∧ errs = []).
Proof.
  rewrite upsert_teams_loop.
  destruct (for_each_inv (λ done_ w1, ∃ errs applied,
      sent w1 = sent w ++ (upsert_request <$> done_) ∧
      errors (logger w1) = errors (logger w) ++ errs ∧
      (counter "teams_processed" w1 = counter "teams_processed" w + length done_)%nat ∧
      (counter "teams_successful" w1 + length errs
         = counter "teams_successful" w + length done_)%nat ∧
      (counter "teams_failed" w1 = counter "teams_failed" w + length errs)%nat ∧
      (∀ m, m ∈ errs →
         ∃ item, item ∈ done_ ∧ m = UpsertTeamFailed (school item.2.2) item.1) ∧
      warnings (logger w1) = warnings (logger w) ∧
      tbl_conferences w1 = tbl_conferences w ∧ tbl_history w1 = tbl_history w ∧
      applied `sublist_of` done_ ∧
      tbl_teams w1 = foldl (apply_upsert env) (tbl_teams w) applied ∧
      (datastore_up env → applied = done_ ∧ errs = []))
    (upsert_one_team env) all_teams_map w)
    as (w' & Hrun & errs & applied & H).
  - exists [], []. rewrite !app_nil_r. cbn. split_and!; try done; try lia.
    by intros m ?%elem_of_nil.
  - intros done_ item w0
      (errs & applied & Hs & He & Hp & Hok & Hf & Hm & Hw & Hc & Hh & Hsub & Ht & Hup).
    destruct (upsert_one_team_run env item w0)
      as (w1 & errs1 & Hrun & Hs1 & He1 & Hp1 & Hok1 & Hf1 & Hw1 & Hc1 & Hh1 & Ht1).
    exists w1. split; [done|].
    assert (∀ m, m ∈ errs →
      ∃ item0, item0 ∈ done_ ++ [item] ∧ m = UpsertTeamFailed (school item0.2.2) item0.1)
      as Hm'.
    { intros m Hin. destruct (Hm m Hin) as (i & Hi & ->). exists i. split; [|done].
      apply elem_of_app. by left. }
    destruct (datastore_down env (length (sent w0)) (upsert_request item)) eqn:Hd.
    + destruct Ht1 as [Ht1 ->].
      exists (errs ++ [UpsertTeamFailed (school item.2.2) item.1]), applied.
      rewrite !length_app in *. cbn [length] in *.
      split_and!; try congruence; try lia.
      * rewrite Hs1, Hs, fmap_app, <- app_assoc. done.
      * rewrite He1, He, <- app_assoc. done.
      * intros m [Hin|Hin]%elem_of_app; [by apply Hm'|].
        apply list_elem_of_singleton in Hin as ->.
        exists item. split; [|done]. apply elem_of_app. right. left.
      * by apply sublist_inserts_r.
    + destruct Ht1 as [Ht1 ->].
      exists errs, (applied ++ [item]).
      rewrite !length_app in *. cbn [length] in *. rewrite app_nil_r in He1.
      split_and!; try congruence; try lia; try exact Hm'.
      * rewrite Hs1, Hs, fmap_app, <- app_assoc. done.
      * by apply sublist_app.
      * rewrite foldl_snoc, <- Ht. done.
      * intros Hup0. destruct (Hup Hup0) as [-> ->]. done.
  - exists w', errs, applied. split; [done|]. exact H.
Qed.

(** X3. [upsert_teams] never raises: it sends one upsert per team found in
    phase 1, in the order of [all_teams_map]; every team is counted as
    processed, and is either counted as successful or counted as failed
    together with an error that names it. The conferences, the history and
    the warnings are left alone. *)
Theorem upsert_teams_counts_every_team env all_teams_map w :
  ∃ w', upsert_teams env all_teams_map w = (Ok tt, w') ∧
    issued w w' = upsert_request <$> all_teams_map ∧
    (counter "teams_processed" w'
       = counter "teams_processed" w + length all_teams_map)%nat ∧
    (counter "teams_successful" w' + counter "teams_failed" w'
       = counter "teams_successful" w + counter "teams_failed" w
         + length all_teams_map)%nat ∧
    (counter "teams_failed" w'
       = counter "teams_failed" w + length (failed w w'))%nat ∧
    (∀ m, m ∈ failed w w' →
       ∃ item, item ∈ all_teams_map ∧ m = UpsertTeamFailed (school item.2.2) item.1) ∧
    warned w w' = [] ∧
    tbl_conferences w' = tbl_conferences w ∧ tbl_history w' = tbl_history w.
Proof.
  destruct (upsert_teams_run env all_teams_map w)
    as (w' & errs & applied & Hrun & Hs & He & Hp & Hok & Hf & Hm & Hw & Hc & Hh & _).
  exists w'. split; [done|].
  rewrite (issued_app _ _ _ Hs), (failed_app _ _ _ He), (warned_app w w' []).
  2:{ by rewrite app_nil_r. }
  split_and!; try done; lia.
Qed.

(** *** What an upsert does to the rows *)

Lemma update_team_row_None source_id school_ last_season rows :
  update_team_row source_id school_ last_season rows = None ↔
  ∀ r, r ∈ rows → t_source_id r ≠ Some source_id.
Proof.
  induction rows as [|r rows IH]; cbn [update_team_row].
  - split; [|done]. by intros _ r ?%elem_of_nil.
  - destruct (decide (t_source_id r = Some source_id)) as [Heq|Hne].
    + split; [done|]. intros Hall. exfalso. apply (Hall r); [left | done].
    + rewrite fmap_None, IH. split.
      * intros Hall r' [->|Hin]%elem_of_cons; auto.
      * intros Hall r' Hin. apply Hall. by right.
Qed.

Lemma update_team_row_Some source_id school_ last_season rows rows' :
  update_team_row source_id school_ last_season rows = Some rows' →
  ∃ before r after,
    rows = before ++ r :: after ∧
    (∀ r0, r0 ∈ before → t_source_id r0 ≠ Some source_id) ∧
    t_source_id r = Some source_id ∧
    rows' = before ++ TeamRow (t_id r) (Some source_id) school_ last_season :: after.
Proof.
  revert rows'. induction rows as [|r rows IH]; intros rows'; cbn [update_team_row]; [done|].
  destruct (decide (t_source_id r = Some source_id)) as [Heq|Hne].
  - intros [= <-]. exists [], r, rows. split_and!; try done. by intros r0 ?%elem_of_nil.
  - destruct (update_team_row source_id school_ last_season rows) as [rows1|]; [|done].
    cbn. intros [= <-].
    destruct (IH rows1 eq_refl) as (before & r1 & after & -> & Hb & Hs & ->).
    exists (r :: before), r1, after. split_and!; try done.
    intros r0 [->|Hin]%elem_of_cons; auto.
Qed.

(** An upsert keeps the key and the source id of every row and adds at
    most one row, under a generated key. *)
Lemma upsert_team_row_identity env source_id school_ last_season rows :
  row_identity <$> upsert_team_row env source_id school_ last_season rows =
  (row_identity <$> rows) ++
  match update_team_row source_id school_ last_season rows with
  | Some _ => []
  | None => [(next_team_id env rows, Some source_id)]
  end.
Proof.
  unfold upsert_team_row.
  destruct (update_team_row source_id school_ last_season rows) as [rows'|] eqn:Hu.
  - apply update_team_row_Some in Hu as (before & r & after & -> & _ & Hs & ->).
    rewrite app_nil_r, !fmap_app, !fmap_cons. unfold row_identity at 2 5. cbn.
    by rewrite Hs.
  - by rewrite fmap_app.
Qed.

(** After an upsert the table holds a row for the source id, with the
    columns of the upsert. *)
Lemma upsert_team_row_stored env source_id school_ last_season rows :
  ∃ r, r ∈ upsert_team_row env source_id school_ last_season rows ∧
    t_source_id r = Some source_id ∧ t_school r = school_ ∧
    t_last_active_season r = last_season.
Proof.
  unfold upsert_team_row.
  destruct (update_team_row source_id school_ last_season rows) as [rows'|] eqn:Hu.
  - apply update_team_row_Some in Hu as (before & r & after & -> & _ & Hs & ->).
    eexists. split; [apply elem_of_app; right; left|]. done.
  - eexists. split; [apply elem_of_app; right; left|]. done.
Qed.

(** An upsert leaves the rows of the other source ids as they are. *)
Lemma upsert_team_row_others env source_id school_ last_season rows r :
  t_source_id r ≠ Some source_id →
  r ∈ upsert_team_row env source_id school_ last_season rows ↔ r ∈ rows.
Proof.
  intros Hne. unfold upsert_team_row.
  destruct (update_team_row source_id school_ last_season rows) as [rows'|] eqn:Hu.
  - apply update_team_row_Some in Hu as (before & r1 & after & -> & _ & Hs & ->).
    rewrite !elem_of_app, !elem_of_cons. split.
    + intros [?|[->|?]]; auto. done.
    + intros [?|[->|?]]; auto. done.
  - rewrite elem_of_app, list_elem_of_singleton. split; [|auto].
    intros [?| ->]; [done|]. done.
Qed.

Lemma foldl_apply_upsert_identity env items rows :
  ∃ new, row_identity <$> foldl (apply_upsert env) rows items
           = (row_identity <$> rows) ++ new ∧
    ∀ i, i ∈ new → ∃ item, item ∈ items ∧ i.2 = Some item.1.
Proof.
  revert rows. induction items as [|item items IH]; intros rows.
  - exists []. rewrite app_nil_r. split; [done|]. by intros i ?%elem_of_nil.
  - cbn [foldl]. destruct (IH (apply_upsert env rows item)) as (new & Hnew & Hin).
    pose proof (upsert_team_row_identity env item.1 (school item.2.2) item.2.1 rows)
      as Hitem.
    fold (apply_upsert env rows item) in Hitem. rewrite Hitem in Hnew.
    eexists. split; [rewrite Hnew, <- app_assoc; done|].
    intros i [Hi|Hi]%elem_of_app.
    + exists item. split; [left|].
      destruct (update_team_row _ _ _ _); [by apply elem_of_nil in Hi|].
      by apply list_elem_of_singleton in Hi as ->.
    + destruct (Hin i Hi) as (item' & ? & ?). exists item'. split; [by right | done].
Qed.

Lemma foldl_apply_upsert_others env items rows r :
  (∀ item, item ∈ items → t_source_id r ≠ Some item.1) →
  r ∈ foldl (apply_upsert env) rows items ↔ r ∈ rows.
Proof.
  revert rows. induction items as [|item items IH]; intros rows Hne; [done|].
  cbn [foldl]. rewrite IH by (intros; apply Hne; by right).
  apply upsert_team_row_others, Hne. left.
Qed.

Lemma foldl_apply_upsert_stored env items rows sid last t :
  NoDup items.*1 → (sid, (last, t)) ∈ items →
  ∃ r, r ∈ foldl (apply_upsert env) rows items ∧
    t_source_id r = Some sid ∧ t_school r = school t ∧ t_last_active_season r = last.
Proof.
  revert rows. induction items as [|item items IH]; intros rows Hnd Hin.
  - by apply elem_of_nil in Hin.
  - rewrite fmap_cons in Hnd. apply NoDup_cons in Hnd as [Hfresh Hnd]. cbn [foldl].
    apply elem_of_cons in Hin as [<-|Hin]; [|by apply IH].
    destruct (upsert_team_row_stored env sid (school t) last rows) as (r & Hr & Hs & Hrest).
    exists r. split; [|done]. apply foldl_apply_upsert_others; [|exact Hr].
    intros item Hitem Heq. apply Hfresh. cbn. rewrite Hs in Heq. injection Heq as ->.
    apply list_elem_of_fmap. by exists item.
Qed.

(** X4. Whatever the datastore does, [upsert_teams] keeps the key and the
    source id of every row the table of teams holds, in place: it only
    rewrites the other columns and appends rows, each for a source id of
    [all_teams_map]. *)
Theorem upsert_teams_keeps_keys env all_teams_map w :
  ∃ w' new, upsert_teams env all_teams_map w = (Ok tt, w') ∧
    row_identity <$> tbl_teams w' = (row_identity <$> tbl_teams w) ++ new ∧
    ∀ i, i ∈ new → ∃ source_id, source_id ∈ all_teams_map.*1 ∧ i.2 = Some source_id.
Proof.
  destruct (upsert_teams_run env all_teams_map w)
    as (w' & errs & applied & Hrun & _ & _ & _ & _ & _ & _ & _ & _ & _ & Hsub & Ht & _).
  destruct (foldl_apply_upsert_identity env applied (tbl_teams w)) as (new & Hnew & Hin).
  exists w', new. split; [done|]. rewrite Ht. split; [done|].
  intros i (item & Hitem & Hi)%Hin. exists item.1. split; [|done].
  apply list_elem_of_fmap. exists item. split; [done|].
  by eapply elem_of_sublist.
Qed.

(** X5. With the datastore up, after [upsert_teams] the table of teams
    holds, for every entry of [all_teams_map], a row with that source id,
    the last active season of the entry and the columns of its team. *)
Theorem upsert_teams_stores_last_season env all_teams_map w sid last t :
  datastore_up env → NoDup all_teams_map.*1 → (sid, (last, t)) ∈ all_teams_map →
  ∃ w' r, upsert_teams env all_teams_map w = (Ok tt, w') ∧ r ∈ tbl_teams w' ∧
    t_source_id r = Some sid ∧ t_school r = school t ∧ t_last_active_season r = last.
Proof.
  intros Hup Hnd Hin.
  destruct (upsert_teams_run env all_teams_map w)
    as (w' & errs & applied & Hrun & _ & _ & _ & _ & _ & _ & _ & _ & _ & _ & Ht & Hall).
  destruct (Hall Hup) as [-> _].
  destruct (foldl_apply_upsert_stored env all_teams_map (tbl_teams w) sid last t Hnd Hin)
    as (r & Hr & H).
  exists w', r. rewrite Ht. done.
Qed.

(** *** From the table of teams to the mapping *)

Lemma row_identity_ids rows : (row_identity <$> rows).*1 = t_id <$> rows.
Proof. rewrite <- list_fmap_compose. done. Qed.

Lemma apply_upsert_ids env rows item :
  fresh_keys env → NoDup (t_id <$> rows) → 0 ∉ t_id <$> rows →
  NoDup (t_id <$> apply_upsert env rows item) ∧ 0 ∉ t_id <$> apply_upsert env rows item.
Proof.
  intros Hfresh Hnd Hz.
  rewrite <- !row_identity_ids in *. unfold apply_upsert.
  rewrite upsert_team_row_identity.
  destruct (update_team_row _ _ _ _); [by rewrite app_nil_r|].
  rewrite fmap_app. cbn. destruct (Hfresh rows) as [Hnz Hnew].
  rewrite <- row_identity_ids in Hnew. split.
  - apply NoDup_app. split_and!; [done| |apply NoDup_singleton].
    intros x Hx ->%list_elem_of_singleton. done.
  - intros [?|Hin%list_elem_of_singleton]%elem_of_app; [done|]. by rewrite Hin in Hnz.
Qed.

Lemma foldl_apply_upsert_ids env items rows :
  fresh_keys env → NoDup (t_id <$> rows) → 0 ∉ t_id <$> rows →
  NoDup (t_id <$> foldl (apply_upsert env) rows items) ∧
  0 ∉ t_id <$> foldl (apply_upsert env) rows items.
Proof.
  intros Hfresh. revert rows. induction items as [|item items IH]; intros rows Hnd Hz.
  - done.
  - cbn [foldl]. destruct (apply_upsert_ids env rows item Hfresh Hnd Hz). by apply IH.
Qed.

Lemma foldl_apply_upsert_has env items rows sid :
  sid ∈ items.*1 →
  ∃ r, r ∈ foldl (apply_upsert env) rows items ∧ t_source_id r = Some sid.
Proof.
  revert rows. induction items as [|item items IH] using rev_ind; intros rows Hin.
  - by apply elem_of_nil in Hin.
  - rewrite foldl_snoc. rewrite fmap_app in Hin.
    destruct (decide (item.1 = sid)) as [<-|Hne].
    + destruct (upsert_team_row_stored env item.1 (school item.2.2) item.2.1
                  (foldl (apply_upsert env) rows items)) as (r & Hr & Hs & _).
      by exists r.
    + apply elem_of_app in Hin as [Hin|Hin].
      2:{ apply list_elem_of_singleton in Hin. by destruct Hne. }
      destruct (IH rows Hin) as (r & Hr & Hs). exists r. split; [|done].
      apply upsert_team_row_others; [|done]. rewrite Hs. congruence.
Qed.

(** A source id carried by a row is a key of the mapping, unless it is
    empty; the key it maps to is that of a row carrying it. *)
Lemma team_id_map_of_has rows sid :
  sid ≠ "" → (∃ r, r ∈ rows ∧ t_source_id r = Some sid) →
  ∃ r, r ∈ rows ∧ t_source_id r = Some sid ∧
    dict_get sid (team_id_map_of rows) = Some (t_id r).
Proof.
  intros Hne. induction rows as [|row rows IH] using rev_ind.
  - by intros (r & ?%elem_of_nil & _).
  - intros (r & Hin & Hs). rewrite team_id_map_of_snoc.
    destruct (decide (t_source_id row = Some sid)) as [Heq|Hneq].
    + rewrite Heq. cbn. rewrite decide_False by done. rewrite dict_get_set_eq.
      exists row. split; [|done]. apply elem_of_app. right. left.
    + apply elem_of_app in Hin as [Hin|Hin].
      2:{ apply list_elem_of_singleton in Hin as ->. done. }
      destruct IH as (r' & Hin' & Hs' & Hget); [by exists r|].
      exists r'. split; [apply elem_of_app; by left|]. split; [done|].
      destruct (truthy (t_source_id row)) as [s|] eqn:Htr; [|done].
      apply truthy_Some in Htr as [Hrow _].
      rewrite dict_get_set_ne; [done|]. congruence.
Qed.

(** With the datastore up and keys generated fresh and non-zero, the
    mapping read after [upsert_teams] maps every team that was upserted. *)
Lemma upsert_teams_mapped env all_teams_map w w1 sid :
  datastore_up env → fresh_keys env →
  NoDup (t_id <$> tbl_teams w) → 0 ∉ t_id <$> tbl_teams w →
  upsert_teams env all_teams_map w = (Ok tt, w1) →
  sid ∈ all_teams_map.*1 → sid ≠ "" →
  ∃ tid, mapped (team_id_map_of (tbl_teams w1)) sid tid.
Proof.
  intros Hup Hfresh Hnd Hz Hrun Hin Hne.
  destruct (upsert_teams_run env all_teams_map w)
    as (w' & errs & applied & Hrun' & _ & _ & _ & _ & _ & _ & _ & _ & _ & _ & Ht & Hall).
  rewrite Hrun in Hrun'. injection Hrun' as <-.
  destruct (Hall Hup) as [-> _].
  destruct (foldl_apply_upsert_ids env all_teams_map (tbl_teams w) Hfresh Hnd Hz)
    as [Hnd' Hz'].
  rewrite <- Ht in Hnd', Hz'.
  destruct (team_id_map_of_has (tbl_teams w1) sid Hne) as (r & Hr & Hs & Hmap).
  { rewrite Ht. by apply foldl_apply_upsert_has. }
  exists (t_id r). apply team_id_map_of_mapped; [done| |done].
  intros Hzero. apply Hz'. rewrite <- Hzero. apply list_elem_of_fmap. by exists r.
Qed.

(** X6. With the datastore up and keys generated fresh and non-zero, every
    team that [upsert_teams] was given is mapped by the [get_team_id_map]
    that follows: its source id has a non-zero key that no other source id
    shares. *)
Theorem every_upserted_team_is_mapped env all_teams_map w w1 sid :
  datastore_up env → fresh_keys env →
  NoDup (t_id <$> tbl_teams w) → 0 ∉ t_id <$> tbl_teams w →
  upsert_teams env all_teams_map w = (Ok tt, w1) →
  sid ∈ all_teams_map.*1 → sid ≠ "" →
  ∃ team_id_map w2 tid,
    get_team_id_map env w1 = (Ok team_id_map, w2) ∧ mapped team_id_map sid tid.
Proof.
  intros Hup Hfresh Hnd Hz Hrun Hin Hne.
  destruct (get_team_id_map_run env w1 (Hup _ _)) as [w2 Hget].
  destruct (upsert_teams_mapped env all_teams_map w w1 sid) as [tid Hmap]; try done.
  by exists (team_id_map_of (tbl_teams w1)), w2, tid.
Qed.

Lemma team_id_map_of_empty_key rows : dict_get "" (team_id_map_of rows) = None.
Proof.
  induction rows as [|row rows IH] using rev_ind; [done|].
  rewrite team_id_map_of_snoc.
  destruct (truthy (t_source_id row)) as [s|] eqn:Htr; [|done].
  apply truthy_Some in Htr as [_ Hne]. by rewrite dict_get_set_ne.
Qed.

Lemma team_id_map_of_lookup rows sid :
  sid ≠ "" →
  dict_get sid (team_id_map_of rows) = t_id <$> last (rows_of_source sid rows).
Proof.
  intros Hne. unfold rows_of_source.
  induction rows as [|row rows IH] using rev_ind; [done|].
  rewrite team_id_map_of_snoc, filter_app.
  destruct (decide (t_source_id row = Some sid)) as [Heq|Hneq].
  - rewrite filter_cons_True, filter_nil by done. rewrite last_snoc.
    rewrite Heq. cbn. rewrite decide_False by done. by rewrite dict_get_set_eq.
  - rewrite filter_cons_False, filter_nil, app_nil_r by done.
    destruct (truthy (t_source_id row)) as [s|] eqn:Htr; [|done].
    apply truthy_Some in Htr as [Hrow _].
    rewrite dict_get_set_ne; [done|]. congruence.
Qed.

(** X7. When its query is answered, [get_team_id_map] sends that one
    request, changes nothing, and returns a dictionary that maps a source
    id to the key of the last row of [teams] carrying it; rows with a null
    or empty source id are left out. *)
Theorem team_id_map_last_row_wins env w :
  datastore_down env (length (sent w)) SelectTeams = false →
  ∃ team_id_map w',
    get_team_id_map env w = (Ok team_id_map, w') ∧
    issued w w' = [SelectTeams] ∧ tbl_teams w' = tbl_teams w ∧
    tbl_history w' = tbl_history w ∧ tbl_conferences w' = tbl_conferences w ∧
    logger w' = logger w ∧
    NoDup team_id_map.*1 ∧
    ∀ sid tid, dict_get sid team_id_map = Some tid ↔
      sid ≠ "" ∧ t_id <$> last (rows_of_source sid (tbl_teams w)) = Some tid.
Proof.
  intros Hup. unfold get_team_id_map, select_teams. unfold_prims. rewrite Hup. cbn.
  eexists _, _. split; [done|]. cbn. split_and!; try done.
  - by apply issued_app.
  - apply team_id_map_of_NoDup.
  - intros sid tid. destruct (decide (sid = "")) as [->|Hne].
    + rewrite team_id_map_of_empty_key. split; [done|]. by intros [? _].
    + rewrite team_id_map_of_lookup by done. split; [done|]. by intros [_ ?].
Qed.

(** ** Phase 1: the teams of all seasons *)

Lemma for_fold_inv {A S} (I : list A → S → world → Prop) (body : A → S → M S)
    (l : list A) (s : S) w :
  I [] s w →
  (∀ done_ x rest s0 w0, l = done_ ++ x :: rest → I done_ s0 w0 →
     ∃ s1 w1, body x s0 w0 = (Ok s1, w1) ∧ I (done_ ++ [x]) s1 w1) →
  ∃ s' w', for_fold l s body w = (Ok s', w') ∧ I l s' w'.
Proof.
  intros H0 Hstep.
  assert (∀ rest pre s0 w0, l = pre ++ rest → I pre s0 w0 →
            ∃ s' w', for_fold rest s0 body w0 = (Ok s', w') ∧ I l s' w') as Hgen.
  { induction rest as [|x rest IH]; intros pre s0 w0 Hl Hpre.
    - rewrite app_nil_r in Hl. subst pre. by exists s0, w0.
    - cbn [for_fold]. unfold bind.
      destruct (Hstep pre x rest s0 w0 Hl Hpre) as (s1 & w1 & -> & H1).
      apply (IH (pre ++ [x])); [|done]. by rewrite <- app_assoc. }
  by apply (Hgen l []).
Qed.

Lemma seqZ_split_lt m n (done_ : list Z) x rest y :
  seqZ m n = done_ ++ x :: rest → y ∈ done_ → y < x.
Proof.
  intros Hl Hy. apply list_elem_of_lookup in Hy as [i Hi].
  pose proof (lookup_lt_Some _ _ _ Hi) as Hlt.
  assert (seqZ m n !! i = Some y) as H1.
  { rewrite Hl. by apply lookup_app_l_Some. }
  assert (seqZ m n !! length done_ = Some x) as H2.
  { rewrite Hl. by rewrite list_lookup_middle. }
  apply lookup_seqZ in H1 as [-> _]. apply lookup_seqZ in H2 as [-> _]. lia.
Qed.

Lemma track_team_other season m t sid :
  truthy (sourceId t) ≠ Some sid →
  dict_get sid (track_team season m t) = dict_get sid m.
Proof.
  intros Hne. unfold track_team.
  destruct (truthy (sourceId t)) as [sid0|]; [|done].
  assert (sid0 ≠ sid) by congruence.
  destruct (dict_get sid0 m) as [[last t0]|].
  - destruct (decide (season > last)); [|done]. by rewrite dict_get_set_ne.
  - by rewrite dict_get_set_ne.
Qed.

Lemma track_team_NoDup season m t : NoDup m.*1 → NoDup (track_team season m t).*1.
Proof.
  intros Hnd. unfold track_team.
  destruct (truthy (sourceId t)) as [sid0|]; [|done].
  destruct (dict_get sid0 m) as [[last t0]|].
  - destruct (decide (season > last)); [|done]. by apply dict_set_NoDup.
  - by apply dict_set_NoDup.
Qed.

Lemma track_teams_NoDup season teams m :
  NoDup m.*1 → NoDup (foldl (track_team season) m teams).*1.
Proof.
  revert m. induction teams as [|t teams IH]; intros m Hnd; [done|].
  cbn [foldl]. by apply IH, track_team_NoDup.
Qed.

Lemma track_teams_empty_key season teams m :
  dict_get "" (foldl (track_team season) m teams) = dict_get "" m.
Proof.
  revert m. induction teams as [|t teams IH]; intros m; [done|].
  cbn [foldl]. rewrite IH. apply track_team_other.
  intros [_ Hne]%truthy_Some. done.
Qed.

(** What the inner loop of phase 1 leaves for a source id: the first entry
    of the season takes the place of an older one, and of none from the same
    or a later season. *)
Lemma track_teams_get season teams m sid :
  sid ≠ "" →
  dict_get sid (foldl (track_team season) m teams) =
  match head (entries_of sid teams) with
  | None => dict_get sid m
  | Some t =>
      match dict_get sid m with
      | Some (last, t0) => if decide (season > last) then Some (season, t) else Some (last, t0)
      | None => Some (season, t)
      end
  end.
Proof.
  intros Hne. revert m. induction teams as [|t teams IH]; intros m; [done|].
  cbn [foldl]. rewrite IH. unfold entries_of in *. rewrite filter_cons.
  destruct (decide (sourceId t = Some sid)) as [Heq|Hneq].
  - cbn [head].
    unfold track_team. rewrite Heq. cbn [truthy]. rewrite decide_False by done.
    destruct (dict_get sid m) as [[last t0]|] eqn:Hm.
    + destruct (decide (season > last)) as [Hgt|Hle].
      * rewrite dict_get_set_eq. destruct (head _); [|done].
        by rewrite decide_False by lia.
      * rewrite Hm. destruct (head _); [|done]. by rewrite decide_False by done.
    + rewrite dict_get_set_eq. destruct (head _); [|done].
      by rewrite decide_False by lia.
  - rewrite track_team_other; [done|].
    intros [Hs _]%truthy_Some. done.
Qed.

Lemma entries_of_head_nil sid teams :
  head (entries_of sid teams) = None ↔ entries_of sid teams = [].
Proof. by destruct (entries_of sid teams). Qed.

(** Phase 1 always completes; it keeps the seasons from 1925 to 2025 whose
    fetch returned teams, and for every source id the first entry of the
    latest season. *)
Lemma collect_all_seasons_data_run env w :
  ∃ data all_teams_map w',
    collect_all_seasons_data env w = (Ok (data, all_teams_map), w') ∧
    (∀ s teams, data !! s = Some teams → 1925 ≤ s ≤ 2025 ∧ teams ≠ []) ∧
    (∀ sid s t, dict_get sid all_teams_map = Some (s, t) ↔ latest_entry data sid s t) ∧
    (∀ sid s teams, data !! s = Some teams → sid ≠ "" → entries_of sid teams ≠ [] →
       dict_get sid all_teams_map ≠ None) ∧
    NoDup all_teams_map.*1 ∧
    warnings (logger w') = warnings (logger w) ∧
    tbl_teams w' = tbl_teams w ∧ tbl_conferences w' = tbl_conferences w ∧
    tbl_history w' = tbl_history w.
Proof.
  unfold collect_all_seasons_data.
  destruct (for_fold_inv (λ done_ '(d, m) w1,
      (∀ s teams, d !! s = Some teams → s ∈ done_ ∧ teams ≠ []) ∧
      (∀ sid s t, dict_get sid m = Some (s, t) ↔ latest_entry d sid s t) ∧
      (∀ sid s teams, d !! s = Some teams → sid ≠ "" → entries_of sid teams ≠ [] →
         dict_get sid m ≠ None) ∧
      NoDup m.*1 ∧
      warnings (logger w1) = warnings (logger w) ∧
      tbl_teams w1 = tbl_teams w ∧ tbl_conferences w1 = tbl_conferences w ∧
      tbl_history w1 = tbl_history w)
    (collect_season env) (range 1925 2026) (∅, []) w)
    as ([data all_teams_map] & w' & Hrun & Hd & Hm & Hk & Hnd & Hw & Ht & Hc & Hh).
  - split_and!; try done; [|constructor].
    intros sid s t. split; [done|]. intros (_ & (teams & Hl & _) & _).
    by rewrite lookup_empty in Hl.
  - intros done_ x rest [d m] w0 Hl (Hd & Hm & Hk & Hnd & Hw & Ht & Hc & Hh).
    assert (∀ y, y ∈ done_ → y < x) as Hlt.
    { intros y Hy. by eapply seqZ_split_lt. }
    assert (d !! x = None) as Hfresh.
    { destruct (d !! x) as [teams|] eqn:Hx; [|done].
      destruct (Hd x teams Hx) as [Hin%Hlt _]. lia. }
    destruct (fetch_teams_for_season_run env x w0)
      as (w1 & _ & Hw1 & Hh1 & Ht1 & Hc1 & Hfetch).
    assert (∃ teams, fetch_teams_for_season env x w0 = (Ok teams, w1)) as [teams Hrun].
    { destruct (teams_endpoint env _ x) as [teams|]; destruct Hfetch; eauto. }
    unfold collect_season, bind. rewrite Hrun. clear Hrun Hfetch.
    destruct teams as [|t0 teams0].
    { eexists (d, m), w1. split; [done|]. split_and!; try congruence; try done.
      intros s teams' Hs. destruct (Hd s teams' Hs). split; [|done].
      apply elem_of_app. by left. }
    eexists (_, _), w1. unfold ret. split; [done|].
    set (teams1 := t0 :: teams0).
    assert (teams1 ≠ []) as Hne1 by done.
    clearbody teams1. clear t0 teams0.
    split_and!; try congruence.
    + intros s teams' Hs. destruct (decide (s = x)) as [->|Hsx].
      * rewrite lookup_insert_eq in Hs. injection Hs as <-. split; [|done].
        apply elem_of_app. right. left.
      * rewrite lookup_insert_ne in Hs by done. destruct (Hd s teams' Hs).
        split; [|done]. apply elem_of_app. by left.
    + intros sid s t. destruct (decide (sid = "")) as [->|Hsid].
      { rewrite track_teams_empty_key. split.
        - intros Hget%Hm. by destruct Hget.
        - by intros [? _]. }
      rewrite track_teams_get by done.
      destruct (head (entries_of sid teams1)) as [t1|] eqn:Hhead.
      * assert (entries_of sid teams1 ≠ []) as Hne.
        { intros Hnil. by rewrite Hnil in Hhead. }
        assert (match dict_get sid m with
                | Some (last, t0) =>
                    if decide (x > last) then Some (x, t1) else Some (last, t0)
                | None => Some (x, t1)
                end = Some (x, t1)) as ->.
        { destruct (dict_get sid m) as [[last t0]|] eqn:Hget; [|done].
          apply Hm in Hget as (_ & (teams' & Hs & _) & _).
          destruct (Hd last teams' Hs) as [Hin%Hlt _]. by rewrite decide_True by lia. }
        split.
        -- intros [= <- <-]. split; [done|]. split.
           ++ exists teams1. by rewrite lookup_insert_eq.
           ++ intros s' teams' Hs' _. destruct (decide (s' = x)) as [->|Hsx]; [lia|].
              rewrite lookup_insert_ne in Hs' by done.
              destruct (Hd s' teams' Hs') as [Hin%Hlt _]. lia.
        -- intros (_ & (teams' & Hs & Hh') & Hmax).
           assert (x ≤ s) as Hxs.
           { apply (Hmax x teams1); [by rewrite lookup_insert_eq | done]. }
           destruct (decide (s = x)) as [->|Hsx].
           ++ rewrite lookup_insert_eq in Hs. injection Hs as <-. congruence.
           ++ rewrite lookup_insert_ne in Hs by done.
              destruct (Hd s teams' Hs) as [Hin%Hlt _]. lia.
      * apply entries_of_head_nil in Hhead. rewrite Hm. unfold latest_entry.
        split.
        -- intros (? & (teams' & Hs & Hh') & Hmax). split; [done|]. split.
           ++ exists teams'. split; [|done]. rewrite lookup_insert_ne; [done|].
              intros <-. by rewrite Hfresh in Hs.
           ++ intros s' teams2 Hs' Hne'. destruct (decide (s' = x)) as [->|Hsx].
              ** rewrite lookup_insert_eq in Hs'. injection Hs' as <-. done.
              ** rewrite lookup_insert_ne in Hs' by done. by eapply Hmax.
        -- intros (? & (teams' & Hs & Hh') & Hmax). split; [done|].
           assert (s ≠ x) as Hsx.
           { intros ->. rewrite lookup_insert_eq in Hs. injection Hs as <-.
             by rewrite Hhead in Hh'. }
           rewrite lookup_insert_ne in Hs by done. split; [by exists teams'|].
           intros s' teams2 Hs' Hne'. apply (Hmax s' teams2); [|done].
           rewrite lookup_insert_ne; [done|]. intros <-. by rewrite Hfresh in Hs'.
    + intros sid s teams' Hs Hsid Hne. rewrite track_teams_get by done.
      destruct (decide (s = x)) as [->|Hsx].
      * rewrite lookup_insert_eq in Hs. injection Hs as <-.
        destruct (head (entries_of sid teams1)) as [t1|] eqn:Hhead.
        -- destruct (dict_get sid m) as [[last t0]|]; [|done]. by destruct (decide _).
        -- by apply entries_of_head_nil in Hhead.
      * rewrite lookup_insert_ne in Hs by done.
        pose proof (Hk sid s teams' Hs Hsid Hne) as Hget.
        destruct (dict_get sid m) as [[last t0]|]; [|done].
        destruct (head _); [|done]. by destruct (decide _).
    + by apply track_teams_NoDup.
  - exists data, all_teams_map, w'. split; [done|]. split_and!; try done.
    intros s teams Hs. destruct (Hd s teams Hs) as [Hin Hne]. split; [|done].
    unfold range in Hin. apply elem_of_seqZ in Hin. lia.
Qed.

(** X8. Phase 1 always completes, and [all_teams_map] holds, for every
    source id that is not empty and has an entry in a kept season, the
    latest such season together with the first entry of the team in it;
    no other key occurs, and no key occurs twice. *)
Theorem all_teams_map_keeps_latest_entry env w :
  ∃ data all_teams_map w',
    collect_all_seasons_data env w = (Ok (data, all_teams_map), w') ∧
    NoDup all_teams_map.*1 ∧
    (∀ sid s t, dict_get sid all_teams_map = Some (s, t) ↔ latest_entry data sid s t) ∧
    (∀ sid s teams, data !! s = Some teams → sid ≠ "" → entries_of sid teams ≠ [] →
       sid ∈ all_teams_map.*1).
Proof.
  destruct (collect_all_seasons_data_run env w)
    as (data & all_teams_map & w' & Hrun & _ & Hm & Hk & Hnd & _).
  exists data, all_teams_map, w'. split_and!; try done.
  intros sid s teams Hs Hsid Hne.
  destruct (decide (sid ∈ all_teams_map.*1)) as [|Hnot]; [done|].
  apply dict_get_None in Hnot. by destruct (Hk sid s teams Hs Hsid Hne).
Qed.

(** X9. Phase 1 only reads: it writes to no table and logs no warning. The
    snapshots it keeps are seasons from 1925 to 2025, and none of them is
    empty, so a season whose fetch returns the empty list is left out like
    one whose fetch fails. *)
Theorem collected_seasons_in_range_and_not_empty env w :
  ∃ data all_teams_map w',
    collect_all_seasons_data env w = (Ok (data, all_teams_map), w') ∧
    (∀ s teams, data !! s = Some teams → 1925 ≤ s ≤ 2025 ∧ teams ≠ []) ∧
    warned w w' = [] ∧
    tbl_teams w' = tbl_teams w ∧ tbl_conferences w' = tbl_conferences w ∧
    tbl_history w' = tbl_history w.
Proof.
  destruct (collect_all_seasons_data_run env w)
    as (data & all_teams_map & w' & Hrun & Hd & _ & _ & _ & Hw & Ht & Hc & Hh).
  exists data, all_teams_map, w'. split_and!; try done.
  apply warned_app. by rewrite app_nil_r.
Qed.

(** ** The forward scan reads the future only *)

Lemma scan_future_ext sid data data' future :
  (∀ s, s ∈ future → entries_of sid <$> data !! s = entries_of sid <$> data' !! s) →
  scan_future sid data future = scan_future sid data' future.
Proof.
  induction future as [|s future IH]; intros Hagree; [done|].
  cbn [scan_future]. specialize (Hagree s ltac:(left)) as Hs.
  rewrite IH by (intros; apply Hagree; by right).
  destruct (data !! s) as [teams|], (data' !! s) as [teams'|]; cbn in Hs; try done.
  injection Hs as ->. done.
Qed.

(** In the last season there is no future to scan. *)
Lemma find_eventual_conference_last_season sid start data :
  2025 ≤ start → find_eventual_conference sid start data = None.
Proof.
  intros Hs. unfold find_eventual_conference, range.
  replace (2026 - (start + 1)) with (- (start - 2025)) by lia.
  destruct (start - 2025) eqn:Hd; try done; lia.
Qed.

(** ** The history table under failures *)

Lemma rows_for_nil_key tid s rows :
  rows_for tid s rows = [] ↔ (tid, s) ∉ history_key <$> rows.
Proof.
  split.
  - intros Hnil (row & [= Ht Hs] & Hin)%list_elem_of_fmap.
    assert (rows_for tid s rows ≠ []) as Hne; [|done].
    apply rows_for_not_nil. by exists row.
  - intros Hnot. destruct (rows_for tid s rows) as [|r l] eqn:Hr; [done|].
    exfalso. apply Hnot.
    assert (rows_for tid s rows ≠ []) as Hne by (by rewrite Hr).
    apply rows_for_not_nil in Hne as (row & Hin & <- & <-).
    apply list_elem_of_fmap. by exists row.
Qed.

Lemma unique_keys_snoc rows row :
  unique_keys rows → rows_for (h_team_id row) (h_season row) rows = [] →
  unique_keys (rows ++ [row]).
Proof.
  unfold unique_keys. intros Hnd Hfree%rows_for_nil_key.
  rewrite fmap_app. apply NoDup_app. split_and!; [done| |apply NoDup_singleton].
  intros k Hk Hin%list_elem_of_singleton. subst k. done.
Qed.

(** One guarded insert: either the row is stored, under a key that was
    free, and counted; or nothing is stored and an error is logged. *)
Lemma insert_resolved_effect env source_id team_id season conference_id w :
  let row := HistoryRow team_id season conference_id true in
  ∃ w', insert_resolved env source_id team_id season conference_id w = (Ok tt, w') ∧
    ((tbl_history w' = tbl_history w ++ [row] ∧
      rows_for team_id season (tbl_history w) = [] ∧
      errors (logger w') = errors (logger w) ∧
      stats (logger w') =
        <["history_records_created" := S (counter "history_records_created" w)]>
          (stats (logger w)))
     ∨
     (tbl_history w' = tbl_history w ∧
      errors (logger w') = errors (logger w) ++ [InsertHistoryFailed source_id season] ∧
      stats (logger w') = stats (logger w))).
Proof.
  intros row. unfold_prims. unfold rows_for, counter. cbn [h_team_id h_season row].
  destruct (datastore_down env _ _); cbn.
  - eexists. split; [done|]. cbn. right. done.
  - destruct (filter _ (tbl_history w)) eqn:Hr; cbn; (eexists; split; [done|]); cbn.
    + left. done.
    + right. done.
Qed.

Lemma run_script_effect env script w w' :
  run_script env script w = (Ok tt, w') →
  ∃ added errs,
    tbl_history w' = tbl_history w ++ added ∧
    added `sublist_of` script_rows script ∧
    errors (logger w') = errors (logger w) ++ errs ∧
    (length added + length errs = length (script_rows script))%nat ∧
    (∀ m, m ∈ errs → ∃ sid s, m = InsertHistoryFailed sid s) ∧
    (Forall (λ a, ¬ is_count "history_records_created" a) script →
       counter "history_records_created" w'
         = (counter "history_records_created" w + length added)%nat) ∧
    (unique_keys (tbl_history w) → unique_keys (tbl_history w')) ∧
    (∀ row, row ∈ added →
       rows_for (h_team_id row) (h_season row) (tbl_history w) = []).
Proof.
  revert w. induction script as [|a script IH]; intros w.
  - intros [= <-]. exists [], []. rewrite !app_nil_r. cbn. split_and!; try done.
    + by intros m ?%elem_of_nil.
    + by intros row ?%elem_of_nil.
  - rewrite run_script_cons. unfold bind at 1.
    destruct (run_action env a w) as [[[]|e0] w1] eqn:Ha; [|done].
    intros (added & errs & Hh & Hsub & He & Hlen & Hm & Hc & Hu & Hfr)%IH. clear IH.
    destruct a as [m|key|source_id team_id season conference_id|e]; cbn in Ha.
    + unfold_prims. injection Ha as <-. cbn in *.
      exists added, errs. split_and!; try done.
      intros Hall. apply Forall_cons in Hall as [_ Hall]. by apply Hc.
    + unfold_prims. injection Ha as <-. cbn in *.
      exists added, errs. split_and!; try done.
      intros Hall. apply Forall_cons in Hall as [Hkey Hall]. rewrite (Hc Hall).
      unfold counter. cbn. rewrite lookup_insert_ne; [done|]. intros ->. by apply Hkey.
    + destruct (insert_resolved_effect env source_id team_id season conference_id w)
        as (w2 & Hrun & Heff).
      rewrite Hrun in Ha. injection Ha as <-.
      change (script_rows (Insert source_id team_id season conference_id :: script))
        with (HistoryRow team_id season conference_id true :: script_rows script).
      destruct Heff as [(Hh2 & Hfree & He2 & Hs2)|(Hh2 & He2 & Hs2)].
      * exists (HistoryRow team_id season conference_id true :: added), errs.
        split_and!.
        -- rewrite Hh, Hh2, <- app_assoc. done.
        -- by apply sublist_skip.
        -- by rewrite He, He2.
        -- cbn. lia.
        -- done.
        -- intros Hall. apply Forall_cons in Hall as [_ Hall]. rewrite (Hc Hall).
           unfold counter at 1. rewrite Hs2, lookup_insert_eq. cbn. lia.
        -- intros Hu0. apply Hu. rewrite Hh2. by apply unique_keys_snoc.
        -- intros row [->|Hin]%elem_of_cons; [done|].
           specialize (Hfr row Hin). rewrite Hh2, rows_for_app in Hfr.
           by apply app_eq_nil in Hfr as [? _].
      * exists added, (InsertHistoryFailed source_id season :: errs).
        split_and!.
        -- by rewrite Hh, Hh2.
        -- by apply sublist_cons.
        -- rewrite He, He2, <- app_assoc. done.
        -- cbn. lia.
        -- intros m [->|Hin]%elem_of_cons; [by eexists _, _ | by apply Hm].
        -- intros Hall. apply Forall_cons in Hall as [_ Hall]. rewrite (Hc Hall).
           unfold counter. by rewrite Hs2.
        -- intros Hu0. apply Hu. by rewrite Hh2.
        -- intros row Hin. rewrite <- Hh2. by apply Hfr.
    + done.
Qed.

Lemma clear_history_effect env w :
  ∃ w1, try_except (delete_history env) (λ _, error ClearHistoryFailed) w = (Ok tt, w1) ∧
    sent w1 = sent w ++ [DeleteHistory] ∧
    tbl_history w1 = cleared env w ∧
    errors (logger w1) = errors (logger w) ++
      (if datastore_down env (length (sent w)) DeleteHistory
       then [ClearHistoryFailed] else []) ∧
    stats (logger w1) = stats (logger w).
Proof.
  unfold cleared. unfold_prims.
  destruct (datastore_down env _ _); cbn; eexists; (split; [done|]); cbn;
    rewrite ?app_nil_r; done.
Qed.

Lemma build_script_never_counts_rows data team_id_map :
  Forall (λ a, ¬ is_count "history_records_created" a) (build_script data team_id_map).
Proof.
  unfold build_script. apply fold_script_Forall.
  intros season without _. unfold season_script.
  destruct (data !! season) as [teams|]; [|constructor].
  apply fold_script_Forall. intros [sid entries] without' _. unfold team_script.
  destruct (truthy_id (dict_get sid team_id_map)) as [tid|]; cbn [fst].
  2:{ destruct (decide _); repeat constructor; auto. }
  assert (Forall (λ a, ¬ is_count "history_records_created" a)
            (duplicate_script data sid tid season entries)) as Hdup.
  { unfold duplicate_script. constructor; [by intros [=]|].
    destruct (find_eventual_conference sid season data) as [ev|].
    - destruct (filter _ _) as [|c cs]; [repeat constructor; auto|].
      apply Forall_fmap, Forall_forall. intros c' _. cbn. auto.
    - constructor; [auto|].
      destruct (sort_conferences _) as [[|c cs]|e]; repeat constructor; auto. }
  unfold resolved_script. destruct entries as [|e1 [|e2 rest]]; [done| |done].
  repeat constructor. auto.
Qed.

(** What the resolver does to the history, whatever the datastore does. *)
Lemma build_conference_history_effect env data team_id_map w w' :
  build_conference_history env data team_id_map w = (Ok tt, w') →
  ∃ added errs,
    tbl_history w' = cleared env w ++ added ∧
    added `sublist_of` script_rows (build_script data team_id_map) ∧
    failed w w' =
      (if datastore_down env (length (sent w)) DeleteHistory
       then [ClearHistoryFailed] else []) ++ errs ∧
    (length added + length errs
       = length (script_rows (build_script data team_id_map)))%nat ∧
    (∀ m, m ∈ errs → ∃ sid s, m = InsertHistoryFailed sid s) ∧
    counter "history_records_created" w'
      = (counter "history_records_created" w + length added)%nat ∧
    (unique_keys (cleared env w) → unique_keys (tbl_history w')) ∧
    (∀ row, row ∈ added → rows_for (h_team_id row) (h_season row) (cleared env w) = []).
Proof.
  rewrite build_conference_history_script. unfold bind.
  destruct (clear_history_effect env w) as (w1 & -> & Hs1 & Hh1 & He1 & Hst1).
  intros (added & errs & Hh & Hsub & He & Hlen & Hm & Hc & Hu & Hfr)%run_script_effect.
  exists added, errs. rewrite <- Hh1. split_and!; try done.
  - apply failed_app. rewrite He, He1, <- app_assoc. done.
  - rewrite (Hc (build_script_never_counts_rows _ _)). unfold counter. by rewrite Hst1.
Qed.

Lemma build_script_inserts_reported data team_id_map :
  Forall (insert_reported data team_id_map) (build_script data team_id_map).
Proof.
  unfold build_script. apply fold_script_Forall.
  intros season without Hs%range_down_seasons. unfold season_script.
  destruct (data !! season) as [teams|] eqn:Hd; [|constructor].
  apply fold_script_Forall.
  intros [sid entries] without' (Hne & -> & Hnil)%group_by_source_elem_of.
  unfold team_script.
  destruct (truthy_id (dict_get sid team_id_map)) as [tid|] eqn:Hid; cbn [fst].
  2:{ destruct (decide _); by repeat constructor. }
  assert (reported data sid season (entries_of sid teams)) as Hrep.
  { split; [done|]. by exists teams. }
  set (entries := entries_of sid teams) in *.
  assert (∀ c, c ∈ conferenceId <$> entries →
            insert_reported data team_id_map (Insert sid tid season c)) as Hins.
  { intros c Hc. split; [done|]. by exists entries. }
  unfold resolved_script.
  assert ((2 ≤ length entries)%nat →
          Forall (insert_reported data team_id_map)
            (duplicate_script data sid tid season entries)) as Hdup.
  { intros Hlen. unfold duplicate_script. constructor; [done|].
    destruct (find_eventual_conference sid season data) as [ev|].
    - destruct (filter _ _) as [|c cs] eqn:Hf; [by repeat constructor|].
      apply Forall_fmap, Forall_forall. intros c' Hc'. apply Hins.
      rewrite <- Hf in Hc'. by apply list_elem_of_filter in Hc' as [_ ?].
    - constructor; [done|].
      destruct (sort_conferences _) as [[|c cs]|e] eqn:Hsort; try by repeat constructor.
      constructor; [|constructor]. apply Hins.
      apply sort_conferences_head in Hsort as (m & -> & Hin & _); [done|].
      by rewrite length_fmap. }
  destruct entries as [|e1 [|e2 rest]] eqn:He; [done| |apply Hdup; cbn; lia].
  constructor; [|constructor]. apply Hins. cbn. left.
Qed.

Lemma script_rows_elem_of script row :
  row ∈ script_rows script →
  ∃ sid, Insert sid (h_team_id row) (h_season row) (h_conference_id row) ∈ script ∧
    h_existed row = true.
Proof.
  unfold script_rows. intros (r & Hin & Hr)%list_elem_of_omap.
  apply list_elem_of_omap in Hin as (a & Ha & Hreq).
  destruct a; try done. cbn in Hreq. injection Hreq as <-. cbn in Hr. injection Hr as <-.
  cbn. by eexists.
Qed.

(** X11. When the clearing of the history fails, the resolver logs the
    failure and goes on over the stale table: it only appends to it, and a
    key that held a record before the run holds the same record after it,
    the insert of the resolver for that key being rejected. *)
Theorem failed_clear_keeps_stale_history env data team_id_map w w' :
  datastore_down env (length (sent w)) DeleteHistory = true →
  build_conference_history env data team_id_map w = (Ok tt, w') →
  head (failed w w') = Some ClearHistoryFailed ∧
  (∃ added, tbl_history w' = tbl_history w ++ added) ∧
  ∀ tid s, rows_for tid s (tbl_history w) ≠ [] →
    rows_for tid s (tbl_history w') = rows_for tid s (tbl_history w).
Proof.
  intros Hdown (added & errs & Hh & _ & He & _ & _ & _ & _ & Hfr)%build_conference_history_effect.
  unfold cleared in *. rewrite Hdown in *. split_and!.
  - by rewrite He.
  - by exists added.
  - intros tid s Hne. rewrite Hh, rows_for_app.
    rewrite (rows_for_none tid s added); [by rewrite app_nil_r|].
    intros row Hin [<- <-]. by apply Hfr in Hin.
Qed.

(** X12. When the clearing went through, the table the resolver leaves
    holds at most one record per (team_id, season), and every record was
    resolved in this run: it is marked as existing, its season lies between
    1925 and 2025, its key is that of a source id reported in that season,
    and its conference id is one that the API reported for that team in that
    season. *)
Theorem rebuilt_history_holds_reported_conferences env data team_id_map w w' :
  datastore_down env (length (sent w)) DeleteHistory = false →
  build_conference_history env data team_id_map w = (Ok tt, w') →
  unique_keys (tbl_history w') ∧
  ∀ row, row ∈ tbl_history w' →
    h_existed row = true ∧ 1925 ≤ h_season row ≤ 2025 ∧
    ∃ sid entries,
      truthy_id (dict_get sid team_id_map) = Some (h_team_id row) ∧
      reported data sid (h_season row) entries ∧
      h_conference_id row ∈ conferenceId <$> entries.
Proof.
  intros Hup (added & errs & Hh & Hsub & _ & _ & _ & _ & Hu & _)%build_conference_history_effect.
  unfold cleared in *. rewrite Hup in *. cbn in Hh. split.
  - apply Hu. constructor.
  - intros row Hin. rewrite Hh in Hin.
    pose proof (elem_of_sublist _ _ _ Hin Hsub) as Hrow.
    apply script_rows_elem_of in Hrow as (sid & Hins & Hex).
    pose proof (build_script_inserts_reported data team_id_map) as Hall.
    rewrite Forall_forall in Hall. specialize (Hall _ Hins) as [Hid (entries & Hrep & Hc)].
    split; [done|]. split; [by destruct Hrep|]. by exists sid, entries.
Qed.

(** X13. The counter [history_records_created] counts the records the
    resolver stored: it grows by the number of rows appended to the history,
    and every insert the resolver sends is either stored or answered by an
    error in the log. *)
Theorem history_counter_counts_stored_rows env data team_id_map w w' :
  build_conference_history env data team_id_map w = (Ok tt, w') →
  ∃ added, tbl_history w' = cleared env w ++ added ∧
    counter "history_records_created" w'
      = (counter "history_records_created" w + length added)%nat ∧
    (length added + length (filter is_insert_failure (failed w w'))
       = length (omap inserted_row (issued w w')))%nat.
Proof.
  intros Hrun.
  pose proof (build_conference_history_run _ _ _ _ _ Hrun) as (Hi & _).
  apply build_conference_history_effect in Hrun
    as (added & errs & Hh & _ & He & Hlen & Hm & Hc & _).
  exists added. split_and!; try done.
  rewrite Hi, He, filter_app. change (omap inserted_row (DeleteHistory :: ?l))
    with (omap inserted_row l).
  fold (script_rows (build_script data team_id_map)). rewrite <- Hlen, length_app.
  assert (filter is_insert_failure errs = errs) as ->.
  { clear -Hm. induction errs as [|m errs IH]; [done|].
    rewrite filter_cons_True.
    - f_equal. apply IH. intros m' Hin. apply Hm. by right.
    - destruct (Hm m) as (sid & s & ->); [left | done]. }
  by destruct (datastore_down env _ _).
Qed.

(** ** The gap filler under failures *)

(** One pass of the [try] block of the gap filler: either the placeholder
    is stored, under a key that was free, and counted; or nothing is stored,
    and then either the key was taken or an error is logged. *)
Lemma fill_gap_effect env tid s w :
  ∃ w', fill_gap env tid s w = (Ok tt, w') ∧
    ((tbl_history w' = tbl_history w ++ [placeholder (tid, s)] ∧
      rows_for tid s (tbl_history w) = [] ∧
      errors (logger w') = errors (logger w) ∧
      stats (logger w') =
        <["gap_years_filled" := S (counter "gap_years_filled" w)]> (stats (logger w)))
     ∨
     (tbl_history w' = tbl_history w ∧ stats (logger w') = stats (logger w) ∧
      (errors (logger w') = errors (logger w) ∧ rows_for tid s (tbl_history w) ≠ [] ∨
       errors (logger w') = errors (logger w) ++ [InsertGapFailed tid s]))).
Proof.
  unfold_prims. unfold placeholder, rows_for, counter. cbn [h_team_id h_season fst snd].
  destruct (datastore_down env (length (sent w)) _); cbn.
  { eexists. split; [done|]. cbn. right. split_and!; auto. }
  destruct (filter _ (tbl_history w)) as [|r rs] eqn:Hr; cbn.
  2:{ eexists. split; [done|]. cbn. right. split_and!; auto; left; by rewrite ?Hr. }
  destruct (datastore_down env _ (InsertHistory _)); cbn.
  { eexists. split; [done|]. cbn. right. split_and!; auto. }
  rewrite ?Hr. eexists. split; [done|]. cbn. left. by rewrite ?Hr.
Qed.

Lemma fill_gaps_effect env (keys : list (Z * Z)) w :
  ∃ w' added errs,
    for_each keys (λ key, fill_gap env key.1 key.2) w = (Ok tt, w') ∧
    tbl_history w' = tbl_history w ++ added ∧
    added `sublist_of` placeholder <$> keys ∧
    errors (logger w') = errors (logger w) ++ errs ∧
    (∀ m, m ∈ errs → ∃ key, key ∈ keys ∧ m = InsertGapFailed key.1 key.2) ∧
    counter "gap_years_filled" w' = (counter "gap_years_filled" w + length added)%nat ∧
    (unique_keys (tbl_history w) → unique_keys (tbl_history w')) ∧
    (∀ row, row ∈ added →
       rows_for (h_team_id row) (h_season row) (tbl_history w) = []).
Proof.
  revert w. induction keys as [|[tid s] keys IH]; intros w.
  - exists w, [], []. rewrite !app_nil_r. cbn. split_and!; try done.
    + by intros m ?%elem_of_nil.
    + by intros row ?%elem_of_nil.
  - cbn [for_each fst snd]. unfold bind.
    destruct (fill_gap_effect env tid s w) as (w1 & -> & Heff).
    destruct (IH w1) as (w' & added & errs & -> & Hh & Hsub & He & Hm & Hc & Hu & Hfr).
    clear IH.
    assert (∀ m, m ∈ errs →
      ∃ key, key ∈ (tid, s) :: keys ∧ m = InsertGapFailed key.1 key.2) as Hm'.
    { intros m (key & Hk & ->)%Hm. exists key. split; [by right | done]. }
    rewrite fmap_cons.
    destruct Heff as [(Hh1 & Hfree & He1 & Hs1)|(Hh1 & Hs1 & Herr)].
    + exists w', (placeholder (tid, s) :: added), errs. split; [done|]. split_and!.
      * rewrite Hh, Hh1, <- app_assoc. done.
      * by apply sublist_skip.
      * by rewrite He, He1.
      * done.
      * rewrite Hc. unfold counter at 1. rewrite Hs1, lookup_insert_eq. cbn. lia.
      * intros Hu0. apply Hu. rewrite Hh1. by apply unique_keys_snoc.
      * intros row [->|Hin]%elem_of_cons; [done|].
        specialize (Hfr row Hin). rewrite Hh1, rows_for_app in Hfr.
        by apply app_eq_nil in Hfr as [? _].
    + assert (counter "gap_years_filled" w1 = counter "gap_years_filled" w) as Hc1.
      { unfold counter. by rewrite Hs1. }
      destruct Herr as [[He1 _]|He1].
      * exists w', added, errs. split; [done|]. split_and!; try done.
        -- by rewrite Hh, Hh1.
        -- by apply sublist_cons.
        -- by rewrite He, He1.
        -- by rewrite Hc, Hc1.
        -- intros Hu0. apply Hu. by rewrite Hh1.
        -- intros row Hin. rewrite <- Hh1. by apply Hfr.
      * exists w', added, (InsertGapFailed tid s :: errs). split; [done|]. split_and!.
        -- by rewrite Hh, Hh1.
        -- by apply sublist_cons.
        -- rewrite He, He1, <- app_assoc. done.
        -- intros m [->|Hin]%elem_of_cons; [|by apply Hm'].
           exists (tid, s). split; [left | done].
        -- by rewrite Hc, Hc1.
        -- intros Hu0. apply Hu. by rewrite Hh1.
        -- intros row Hin. rewrite <- Hh1. by apply Hfr.
Qed.

(** X14. Whatever the datastore does, the gap filler completes; it leaves
    every stored record as it is and appends placeholders only, each for a
    key that was free; the counter [gap_years_filled] grows by the number of
    placeholders stored, and every error it logs names a key it tried to
    fill. *)
Theorem gap_filler_only_appends_and_counts env data team_id_map w :
  ∃ w' added,
    fill_gap_years env data team_id_map w = (Ok tt, w') ∧
    tbl_history w' = tbl_history w ++ added ∧
    added `sublist_of` placeholder <$> gap_candidates data team_id_map ∧
    (∀ row, row ∈ added →
       rows_for (h_team_id row) (h_season row) (tbl_history w) = []) ∧
    counter "gap_years_filled" w' = (counter "gap_years_filled" w + length added)%nat ∧
    (∀ m, m ∈ failed w w' →
       ∃ key, key ∈ gap_candidates data team_id_map ∧ m = InsertGapFailed key.1 key.2).
Proof.
  rewrite fill_gap_years_script.
  destruct (fill_gaps_effect env (gap_candidates data team_id_map) w)
    as (w' & added & errs & Hrun & Hh & Hsub & He & Hm & Hc & _ & Hfr).
  exists w', added. split_and!; try done.
  by rewrite (failed_app _ _ _ He).
Qed.

(** X15. The uniqueness of the keys of the history is kept by the two
    passes, whatever the datastore does: if no two records of the table
    share a (team_id, season) before the resolver runs, none do after the
    resolver and the gap filler have run. *)
Theorem history_keys_stay_unique env data team_id_map w w1 w2 :
  unique_keys (tbl_history w) →
  build_conference_history env data team_id_map w = (Ok tt, w1) →
  fill_gap_years env data team_id_map w1 = (Ok tt, w2) →
  unique_keys (tbl_history w1) ∧ unique_keys (tbl_history w2).
Proof.
  intros Hu (_ & _ & _ & _ & _ & _ & _ & _ & Hu1 & _)%build_conference_history_effect.
  rewrite fill_gap_years_script.
  destruct (fill_gaps_effect env (gap_candidates data team_id_map) w1)
    as (w' & added & errs & -> & _ & _ & _ & _ & _ & Hu2 & _).
  intros [= <-].
  assert (unique_keys (tbl_history w1)) as H1.
  { apply Hu1. unfold cleared. destruct (datastore_down env _ _); [done | constructor]. }
  auto.
Qed.

Lemma fill_gap_taken env tid s w :
  datastore_down env (length (sent w)) (SelectHistory tid s) = false →
  rows_for tid s (tbl_history w) ≠ [] →
  fill_gap env tid s w = (Ok tt, set_sent (λ l, l ++ [SelectHistory tid s]) w).
Proof.
  intros Hup Hne. unfold_prims. unfold rows_for in *. rewrite Hup. cbn.
  destruct (filter _ (tbl_history w)); [done|]. done.
Qed.

Lemma fill_gaps_taken env (keys : list (Z * Z)) w :
  datastore_up env →
  (∀ key, key ∈ keys → rows_for key.1 key.2 (tbl_history w) ≠ []) →
  for_each keys (λ key, fill_gap env key.1 key.2) w =
    (Ok tt, set_sent (λ l, l ++ (gap_query <$> keys)) w).
Proof.
  intros Hup. revert w. induction keys as [|[tid s] keys IH]; intros w Htaken.
  - cbn. unfold ret, set_sent. rewrite app_nil_r. by destruct w.
  - cbn [for_each fst snd]. unfold bind.
    rewrite fill_gap_taken; [|apply Hup|apply (Htaken (tid, s)); left].
    rewrite IH.
    + unfold set_sent. cbn. by rewrite <- app_assoc.
    + intros key Hin. cbn. apply Htaken. by right.
Qed.

(** X16. With the datastore up the gap filler is idempotent: run again on
    the table it has just filled, it finds every candidate key taken, sends
    its queries and nothing else, and leaves the table and the logger as
    they are. *)
Theorem gap_filler_is_idempotent env data team_id_map w w1 :
  datastore_up env →
  fill_gap_years env data team_id_map w = (Ok tt, w1) →
  ∃ w2, fill_gap_years env data team_id_map w1 = (Ok tt, w2) ∧
    tbl_history w2 = tbl_history w1 ∧ logger w2 = logger w1 ∧
    issued w1 w2 = gap_query <$> gap_candidates data team_id_map.
Proof.
  intros Hup Hrun.
  destruct (fill_gap_years_appends env data team_id_map w)
    as (w' & added & Hrun' & _ & _ & _ & _ & Hh).
  rewrite Hrun in Hrun'. injection Hrun' as <-. specialize (Hh Hup).
  rewrite fill_gap_years_script, fill_gaps_taken; [|done|].
  - eexists. split; [done|]. cbn. split_and!; try done. by apply issued_app.
  - intros [tid s] Hin. cbn. rewrite Hh, rows_for_foldl_add_row.
    destruct (rows_for tid s (tbl_history w)) eqn:Hr; [|done].
    assert (rows_for tid s (placeholder <$> gap_candidates data team_id_map) ≠ []) as Hne.
    { by apply rows_for_placeholders. }
    by destruct (rows_for tid s (placeholder <$> gap_candidates data team_id_map)).
Qed.

(** ** Phase 5: the validation *)

Lemma orphan_elem_of w c :
  c ∈ (list_to_set (omap h_conference_id (tbl_history w)) : gset Z)
        ∖ list_to_set (conf_id <$> tbl_conferences w) ↔ orphan w c.
Proof.
  rewrite elem_of_difference, !elem_of_list_to_set, list_elem_of_omap, list_elem_of_fmap.
  unfold orphan. split.
  - intros [Hrow Hnot]. split; [done|]. intros conf Hin Heq. apply Hnot. by exists conf.
  - intros [Hrow Hnot]. split; [done|]. intros (conf & Heq & Hin). by apply (Hnot conf).
Qed.

(** X17. When its queries are answered, [validate_data] sends them in
    order and changes nothing: no table, no error, no counter. It logs a
    warning exactly when some conference id of the history is missing from
    the table of conferences, and that warning lists exactly the missing
    ids. *)
Theorem validate_data_reports_orphans env w :
  (∀ n r, r ∈ validation_queries → datastore_down env n r = false) →
  ∃ w', validate_data env w = (Ok tt, w') ∧
    issued w w' = validation_queries ∧
    tbl_history w' = tbl_history w ∧ tbl_conferences w' = tbl_conferences w ∧
    tbl_teams w' = tbl_teams w ∧
    errors (logger w') = errors (logger w) ∧ stats (logger w') = stats (logger w) ∧
    (warned w w' = [] ↔ ∀ c, ¬ orphan w c) ∧
    (∀ m, m ∈ warned w w' →
       ∃ orphaned, m = OrphanedConferences orphaned ∧ ∀ c, c ∈ orphaned ↔ orphan w c).
Proof.
  intros Hup. unfold validate_data, select_history_conferences, select_conferences,
    select_gap_records, count_teams, count_history. unfold_prims.
  rewrite Hup by (unfold validation_queries; set_solver). cbn.
  rewrite Hup by (unfold validation_queries; set_solver). cbn.
  set (orphaned := (list_to_set (omap h_conference_id (tbl_history w)) : gset Z)
                     ∖ list_to_set (conf_id <$> tbl_conferences w)).
  assert (∀ c, c ∈ orphaned ↔ orphan w c) as Horphan by apply orphan_elem_of.
  destruct (decide (orphaned = ∅)) as [Hempty|Hsome]; cbn;
    repeat (rewrite Hup by (unfold validation_queries; set_solver); cbn);
    (eexists; split; [done|]); cbn; split_and!; try done.
  - apply issued_app. cbn. by rewrite <- !app_assoc.
  - split; [|intros _; apply warned_app; cbn; by rewrite app_nil_r].
    intros _ c Hc%Horphan. rewrite Hempty in Hc. by apply elem_of_empty in Hc.
  - rewrite (warned_app w _ []); [|cbn; by rewrite app_nil_r].
    by intros m ?%elem_of_nil.
  - apply issued_app. cbn. by rewrite <- !app_assoc.
  - rewrite (warned_app w _ [OrphanedConferences orphaned]); [|done].
    split; [done|]. intros Hnone. exfalso. apply Hsome.
    apply set_eq. intros c. rewrite Horphan. split; [by intros ?%Hnone|].
    by intros ?%elem_of_empty.
  - rewrite (warned_app w _ [OrphanedConferences orphaned]); [|done].
    intros m ->%list_elem_of_singleton. by exists orphaned.
Qed.

(** ** When the resolver raises *)

Lemma sort_conferences_Raise cs e :
  sort_conferences cs = Raise e ↔ e = TypeError ∧ (2 ≤ length cs)%nat ∧ None ∈ cs.
Proof.
  unfold sort_conferences. destruct (decide (length cs < 2)%nat) as [Hlt|Hge].
  - split; [done|]. intros (_ & ? & _). lia.
  - destruct (mapM (λ c, c) cs) as [ids|] eqn:Hm.
    + split; [done|]. intros (_ & _ & Hin). exfalso.
      apply (mapM_fmap_Some_inv (λ c, c) Some cs ids) in Hm; [|done].
      rewrite <- Hm in Hin. by apply list_elem_of_fmap in Hin as (? & ? & _).
    + apply mapM_None in Hm. apply Exists_exists in Hm as (c & Hin & ->).
      split.
      * intros [= <-]. split_and!; [done | lia | done].
      * by intros (-> & _).
Qed.

Lemma build_script_fails_justified data team_id_map :
  Forall (fail_justified data team_id_map) (build_script data team_id_map).
Proof.
  unfold build_script. apply fold_script_Forall.
  intros season without Hs%range_down_seasons. unfold season_script.
  destruct (data !! season) as [teams|] eqn:Hd; [|constructor].
  apply fold_script_Forall.
  intros [sid entries] without' (Hne & -> & Hnil)%group_by_source_elem_of.
  unfold team_script.
  destruct (truthy_id (dict_get sid team_id_map)) as [tid|] eqn:Hid; cbn [fst].
  2:{ destruct (decide _); by repeat constructor. }
  assert (reported data sid season (entries_of sid teams)) as Hrep.
  { split; [done|]. by exists teams. }
  set (entries := entries_of sid teams) in *.
  unfold resolved_script.
  assert (Forall (fail_justified data team_id_map)
            (duplicate_script data sid tid season entries)) as Hdup.
  { unfold duplicate_script. constructor; [done|].
    destruct (find_eventual_conference sid season data) as [ev|] eqn:Hev.
    - destruct (filter _ _) as [|c cs] eqn:Hf; [by repeat constructor|].
      apply Forall_fmap, Forall_forall. by intros c' _.
    - constructor; [done|].
      destruct (sort_conferences _) as [[|c cs]|e] eqn:Hsort.
      + exfalso. eapply sort_conferences_not_empty; [|done].
        intros Hmap. by apply fmap_nil_inv in Hmap.
      + by repeat constructor.
      + apply sort_conferences_Raise in Hsort as (-> & Hlen & Hnone).
        rewrite length_fmap in Hlen.
        constructor; [|constructor]. split; [done|].
        by exists season, sid, tid, entries. }
  destruct entries as [|e1 [|e2 rest]]; [done| |done].
  by repeat constructor.
Qed.

Lemma build_script_null_duplicate data team_id_map :
  null_duplicate data team_id_map → Fail TypeError ∈ build_script data team_id_map.
Proof.
  intros (season & sid & tid & entries & (Hs & teams & Hd & He) & Hne & Hid & Hlen & Hev
          & Hnone).
  unfold build_script.
  apply (fold_script_elem_of _ _ _ season); [by apply range_down_seasons|].
  intros without. unfold season_script. rewrite Hd.
  apply (fold_script_elem_of _ _ _ (sid, entries)).
  - apply group_by_source_elem_of. split_and!; try done.
    intros ->. cbn in Hlen. lia.
  - intros without'. unfold team_script. rewrite Hid. cbn [fst].
    unfold resolved_script.
    assert (Fail TypeError ∈ duplicate_script data sid tid season entries) as Hdup.
    { unfold duplicate_script. rewrite Hev.
      assert (sort_conferences (conferenceId <$> entries) = Raise TypeError) as ->.
      { apply sort_conferences_Raise. by rewrite length_fmap. }
      right. right. left. }
    destruct entries as [|e1 [|e2 rest]]; [done| |done]. cbn in Hlen. lia.
Qed.

(** X18. The only exception that escapes the resolver is the [TypeError]
    of sorting conference ids of which one is null, and it escapes exactly
    when the snapshots hold a duplicate without eventual conference that
    includes a null conference id, whatever the datastore does. *)
Theorem resolver_raises_exactly_on_null_duplicates env data team_id_map w :
  (null_duplicate data team_id_map →
     ∃ w', build_conference_history env data team_id_map w = (Raise TypeError, w')) ∧
  (∀ e w', build_conference_history env data team_id_map w = (Raise e, w') →
     e = TypeError ∧ null_duplicate data team_id_map).
Proof.
  assert (∀ e w', build_conference_history env data team_id_map w = (Raise e, w') →
            e = TypeError ∧ null_duplicate data team_id_map) as Hraise.
  { intros e w'. rewrite build_conference_history_script. unfold bind.
    destruct (clear_history_run env w) as (w1 & -> & _).
    intros (done_ & rest & Hscript & _)%run_script_raise.
    pose proof (build_script_fails_justified data team_id_map) as Hall.
    rewrite Forall_forall in Hall. apply (Hall (Fail e)).
    rewrite Hscript. apply elem_of_app. right. left. }
  split; [|done].
  intros Hnull%build_script_null_duplicate.
  destruct (build_conference_history env data team_id_map w) as [[[]|e] w'] eqn:Hrun.
  - apply build_conference_history_run in Hrun as (_ & _ & Hok & _).
    rewrite Forall_forall in Hok. by destruct (Hok _ Hnull).
  - destruct (Hraise e w' eq_refl) as [-> _]. by exists w'.
Qed.

(** ** The whole run, phase by phase *)

(** A completed run went through every phase. *)
Lemma main_phases env w w' :
  main env w = (Ok tt, w') →
  ∃ conferences w0 w1 data all_teams_map w2 w3 team_id_map w4 w5 w6,
    fetch_conferences env w = (Ok conferences, w0) ∧
    upsert_conferences env conferences w0 = (Ok tt, w1) ∧
    collect_all_seasons_data env w1 = (Ok (data, all_teams_map), w2) ∧
    upsert_teams env all_teams_map w2 = (Ok tt, w3) ∧
    get_team_id_map env w3 = (Ok team_id_map, w4) ∧
    build_conference_history env data team_id_map w4 = (Ok tt, w5) ∧
    fill_gap_years env data team_id_map w5 = (Ok tt, w6) ∧
    validate_data env w6 = (Ok tt, w').
Proof.
  unfold main, try_except.
  destruct (bind (fetch_conferences env) _ w) as [[[]|e] wf] eqn:Hinner.
  2:{ unfold bind, error, raise. done. }
  intros [= <-]. revert Hinner. unfold bind.
  destruct (fetch_conferences env w) as [[conferences|?] w0] eqn:H0; [|done].
  destruct (upsert_conferences env conferences w0) as [[[]|?] w1] eqn:H1; [|done].
  destruct (collect_all_seasons_data env w1) as [[[data all_teams_map]|?] w2] eqn:H2;
    [|done].
  destruct (upsert_teams env all_teams_map w2) as [[[]|?] w3] eqn:H3; [|done].
  destruct (get_team_id_map env w3) as [[team_id_map|?] w4] eqn:H4; [|done].
  destruct (build_conference_history env data team_id_map w4) as [[[]|?] w5] eqn:H5;
    [|done].
  destruct (fill_gap_years env data team_id_map w5) as [[[]|?] w6] eqn:H6; [|done].
  intros H7.
  exists conferences, w0, w1, data, all_teams_map, w2, w3, team_id_map, w4, w5, w6.
  by rewrite H1, H2, H3, H4, H5, H6.
Qed.

Lemma fetch_conferences_ok env w conferences w0 :
  fetch_conferences env w = (Ok conferences, w0) →
  w0 = set_sent (λ l, l ++ [GetConferences]) w ∧
  conferences_endpoint env (length (sent w)) = Some conferences.
Proof.
  unfold fetch_conferences, get_conferences. unfold_prims.
  destruct (conferences_endpoint env _); [|done]. by intros [= <- <-].
Qed.

Lemma get_team_id_map_ok env w team_id_map w' :
  get_team_id_map env w = (Ok team_id_map, w') →
  team_id_map = team_id_map_of (tbl_teams w) ∧
  w' = set_sent (λ l, l ++ [SelectTeams]) w.
Proof.
  unfold get_team_id_map, select_teams. unfold_prims.
  destruct (datastore_down env _ _); [done|]. cbn. by intros [= <- <-].
Qed.

(** The validation changes no table, and warns about orphans only. *)
Lemma validate_data_ok env w w' :
  validate_data env w = (Ok tt, w') →
  tbl_history w' = tbl_history w ∧ tbl_conferences w' = tbl_conferences w ∧
  tbl_teams w' = tbl_teams w ∧ errors (logger w') = errors (logger w) ∧
  ∃ orphans, warnings (logger w') = warnings (logger w) ++ orphans ∧
    ∀ m, m ∈ orphans → ∃ orphaned, m = OrphanedConferences orphaned.
Proof.
  unfold validate_data, select_history_conferences, select_conferences,
    select_gap_records, count_teams, count_history. unfold_prims.
  repeat (match goal with
          | |- context [datastore_down ?e ?n ?r] =>
              destruct (datastore_down e n r); cbn; [done|]
          | |- context [decide (?x = ∅)] => destruct (decide (x = ∅)); cbn
          end).
  - intros [= <-]. cbn. split_and!; try done.
    exists []. rewrite app_nil_r. split; [done|]. by intros m ?%elem_of_nil.
  - intros [= <-]. cbn. split_and!; try done.
    eexists. split; [done|]. intros m ->%list_elem_of_singleton. by eexists.
Qed.

Lemma build_conference_history_warnings env data team_id_map w w' :
  build_conference_history env data team_id_map w = (Ok tt, w') →
  warnings (logger w') =
    warnings (logger w) ++ omap action_warning (build_script data team_id_map).
Proof.
  rewrite build_conference_history_script. unfold bind.
  destruct (clear_history_run env w) as (w1 & -> & _ & Hw1 & _).
  intros (_ & Hw & _)%run_script_ok. by rewrite Hw, Hw1.
Qed.

Lemma build_script_warns_justified data team_id_map :
  Forall (warn_justified data team_id_map) (build_script data team_id_map).
Proof.
  unfold build_script. apply fold_script_Forall.
  intros season without Hs%range_down_seasons. unfold season_script.
  destruct (data !! season) as [teams|] eqn:Hd; [|constructor].
  apply fold_script_Forall.
  intros [sid entries] without' (Hne & -> & Hnil)%group_by_source_elem_of.
  unfold team_script.
  destruct (truthy_id (dict_get sid team_id_map)) as [tid|] eqn:Hid; cbn [fst].
  - eapply Forall_impl; [apply resolved_script_actions|].
    intros a Ha. destruct a as [m| | |]; cbn in *; try done. destruct m; cbn in *; done.
  - destruct (decide _); [constructor|]. constructor; [|constructor].
    split_and!; try done. by exists teams.
Qed.

(** X19. In a completed run with the datastore up and keys generated fresh
    and non-zero, no team is left without a key: every source id that the
    resolver meets was upserted in phase 2 and is mapped, so the warning
    about a missing key is never logged. *)
Theorem healthy_run_leaves_no_team_unmapped env w w' sid s :
  datastore_up env → fresh_keys env →
  NoDup (t_id <$> tbl_teams w) → 0 ∉ t_id <$> tbl_teams w →
  main env w = (Ok tt, w') →
  NoTeamId sid s ∉ warned w w'.
Proof.
  intros Hup Hfresh Hnd Hz
    (cs & w0 & w1 & data & atm & w2 & w3 & team_id_map & w4 & w5 & w6
     & H0 & H1 & H2 & H3 & H4 & H5 & H6 & H7)%main_phases.
  apply fetch_conferences_ok in H0 as [-> _].
  destruct (upsert_conferences_run env cs (set_sent (λ l, l ++ [GetConferences]) w))
    as (w1' & ? & ? & H1' & _ & _ & _ & _ & Hw1 & Ht1 & _).
  rewrite H1 in H1'. injection H1' as <-. cbn in Hw1, Ht1.
  destruct (collect_all_seasons_data_run env w1)
    as (data' & atm' & w2' & H2' & _ & _ & Hk & _ & Hw2 & Ht2 & _).
  rewrite H2 in H2'. injection H2' as <- <- <-.
  destruct (upsert_teams_run env atm w2)
    as (w3' & ? & ? & H3' & _ & _ & _ & _ & _ & _ & Hw3 & _).
  rewrite H3 in H3'. injection H3' as <-.
  apply get_team_id_map_ok in H4 as [-> ->].
  apply build_conference_history_warnings in H5 as Hw5. cbn in Hw5.
  destruct (fill_gap_years_appends env data (team_id_map_of (tbl_teams w3)) w5)
    as (w6' & ? & H6' & _ & _ & Hw6 & _).
  rewrite H6 in H6'. injection H6' as <-.
  apply validate_data_ok in H7 as (_ & _ & _ & _ & orphans & Hw7 & Horphans).
  unfold warned. rewrite Hw7, Hw6, Hw5, Hw3, Hw2, Hw1, <- app_assoc, drop_app_length.
  intros [Hin|Hin]%elem_of_app.
  - apply list_elem_of_omap in Hin as (a & Ha & Hwarn).
    destruct a as [m| | |]; try done. cbn in Hwarn. injection Hwarn as ->.
    pose proof (build_script_warns_justified data (team_id_map_of (tbl_teams w3))) as Hall.
    rewrite Forall_forall in Hall.
    specialize (Hall _ Ha) as (Hne & Hnone & teams & Hd & Hent).
    destruct (upsert_teams_mapped env atm w2 w3 sid) as [tid Hmap]; try done.
    + by rewrite Ht2, Ht1.
    + by rewrite Ht2, Ht1.
    + destruct (decide (sid ∈ atm.*1)) as [|Hnot]; [done|].
      apply dict_get_None in Hnot. by destruct (Hk sid s teams Hd Hne Hent).
    + rewrite (mapped_truthy_id_self _ _ _ Hmap) in Hnone. done.
  - by destruct (Horphans _ Hin) as [? ?].
Qed.

(** ** Phase 0: the table of conferences *)

Lemma upsert_conference_row_ids conf rows :
  conf_id <$> upsert_conference_row conf rows =
  if decide (conf_id conf ∈ conf_id <$> rows) then conf_id <$> rows
  else (conf_id <$> rows) ++ [conf_id conf].
Proof.
  induction rows as [|c rows IH]; cbn [upsert_conference_row].
  - rewrite decide_False; [done|]. by intros ?%elem_of_nil.
  - destruct (decide (conf_id c = conf_id conf)) as [Heq|Hne].
    + rewrite !fmap_cons, Heq. rewrite decide_True; [done|left].
    + rewrite !fmap_cons, IH. destruct (decide (conf_id conf ∈ conf_id <$> rows)) as [Hin|Hnot].
      * rewrite decide_True; [done|by right].
      * rewrite decide_False; [done|]. intros [?|?]%elem_of_cons; [congruence|done].
Qed.

Lemma upsert_conference_row_NoDup conf rows :
  NoDup (conf_id <$> rows) → NoDup (conf_id <$> upsert_conference_row conf rows).
Proof.
  intros Hnd. rewrite upsert_conference_row_ids. destruct (decide _) as [|Hnot]; [done|].
  apply NoDup_app. split_and!; [done| |apply NoDup_singleton].
  intros x Hx Hin%list_elem_of_singleton. by subst x.
Qed.

Lemma upsert_conference_row_elem_of conf rows c :
  NoDup (conf_id <$> rows) →
  c ∈ upsert_conference_row conf rows ↔
  c = conf ∨ (c ∈ rows ∧ conf_id c ≠ conf_id conf).
Proof.
  induction rows as [|r rows IH]; cbn [upsert_conference_row].
  - intros _. rewrite list_elem_of_singleton. split; [auto|].
    intros [?|[?%elem_of_nil _]]; done.
  - rewrite fmap_cons. intros [Hfresh Hnd]%NoDup_cons.
    destruct (decide (conf_id r = conf_id conf)) as [Heq|Hne].
    + rewrite !elem_of_cons. split.
      * intros [->|Hin]; [by left|]. right. split; [by right|].
        intros Hc. apply Hfresh. rewrite Heq, <- Hc. apply list_elem_of_fmap. by exists c.
      * intros [->|[[->|Hin] Hc]]; [by left|done|by right].
    + rewrite !elem_of_cons, (IH Hnd). split.
      * intros [->|[->|[Hin Hc]]]; [right; split; [by left|done] | by left |].
        right. split; [by right|done].
      * intros [->|[[->|Hin] Hc]]; [right; by left | by left |].
        right. right. done.
Qed.

Lemma foldl_apply_conference_NoDup conferences rows :
  NoDup (conf_id <$> rows) → NoDup (conf_id <$> foldl apply_conference rows conferences).
Proof.
  revert rows. induction conferences as [|conf conferences IH]; intros rows Hnd; [done|].
  cbn [foldl]. by apply IH, upsert_conference_row_NoDup.
Qed.

Lemma foldl_apply_conference_elem_of conferences rows c :
  NoDup (conf_id <$> rows) →
  c ∈ foldl apply_conference rows conferences ↔
  last (filter (λ conf, conf_id conf = conf_id c) conferences) = Some c ∨
  (c ∈ rows ∧ conf_id c ∉ conf_id <$> conferences).
Proof.
  intros Hnd. induction conferences as [|conf conferences IH] using rev_ind.
  - cbn. split; [intros Hin; right; split; [done|by intros ?%elem_of_nil]|].
    by intros [?|[? _]].
  - rewrite foldl_snoc. unfold apply_conference at 1.
    rewrite upsert_conference_row_elem_of by (by apply foldl_apply_conference_NoDup).
    rewrite IH. rewrite filter_app, fmap_app.
    destruct (decide (conf_id conf = conf_id c)) as [Heq|Hne].
    + rewrite filter_cons_True, filter_nil by done. rewrite last_snoc. split.
      * intros [->|[_ Hc]]; [by left | congruence].
      * intros [[= ->]|[_ Hnot]]; [by left|]. exfalso. apply Hnot.
        apply elem_of_app. right. cbn. rewrite Heq. left.
    + rewrite filter_cons_False, filter_nil, app_nil_r by done. split.
      * intros [->|[[Hlast|[Hin Hnot]] _]]; [done | by left |].
        right. split; [done|]. intros [?|Hin']%elem_of_app; [done|].
        cbn in Hin'. apply list_elem_of_singleton in Hin'. congruence.
      * intros [Hlast|[Hin Hnot]]; right.
        -- split; [by left | congruence].
        -- split; [|congruence]. right. split; [done|].
           intros Hin'. apply Hnot. apply elem_of_app. by left.
Qed.

(** X20. With the datastore up, after [upsert_conferences] the table of
    conferences holds, for each id of the list, the last conference of the
    list with that id, and keeps the rows whose id the list does not
    mention; ids that were distinct stay distinct. *)
Theorem upsert_conferences_last_wins env conferences w :
  datastore_up env → NoDup (conf_id <$> tbl_conferences w) →
  ∃ w', upsert_conferences env conferences w = (Ok tt, w') ∧
    NoDup (conf_id <$> tbl_conferences w') ∧
    ∀ c, c ∈ tbl_conferences w' ↔
      last (filter (λ conf, conf_id conf = conf_id c) conferences) = Some c ∨
      (c ∈ tbl_conferences w ∧ conf_id c ∉ conf_id <$> conferences).
Proof.
  intros Hup Hnd.
  destruct (upsert_conferences_run env conferences w)
    as (w' & errs & applied & Hrun & _ & _ & _ & _ & _ & _ & _ & _ & Ht & Hall).
  destruct (Hall Hup) as [-> _]. exists w'. rewrite Ht. split_and!; [done| |].
  - by apply foldl_apply_conference_NoDup.
  - intros c. by apply foldl_apply_conference_elem_of.
Qed.

(** ** Grouping and reversing *)

(** X21. [teams_by_source] groups a season by source id: its keys are
    distinct, and its items are exactly the source ids that are not empty
    and have an entry in the season, each with all the entries of that team
    in the order of the snapshot. Entries without a source id belong to no
    group. *)
Theorem teams_by_source_groups_each_team_once teams :
  NoDup (group_by_source teams).*1 ∧
  (∀ sid entries, (sid, entries) ∈ group_by_source teams ↔
     sid ≠ "" ∧ entries ≠ [] ∧ entries = entries_of sid teams) ∧
  (∀ t, (∃ sid entries, (sid, entries) ∈ group_by_source teams ∧ t ∈ entries) ↔
     t ∈ teams ∧ truthy (sourceId t) ≠ None).
Proof.
  split_and!.
  - apply group_by_source_NoDup.
  - intros sid entries. rewrite group_by_source_elem_of. naive_solver.
  - intros t. split.
    + intros (sid & entries & (Hne & -> & _)%group_by_source_elem_of & Hin).
      apply list_elem_of_filter in Hin as [Hs Hin]. split; [done|].
      rewrite Hs. cbn. by rewrite decide_False.
    + intros [Hin Htr]. destruct (truthy (sourceId t)) as [sid|] eqn:Hsid; [|done].
      apply truthy_Some in Hsid as [Hs Hne].
      assert (t ∈ entries_of sid teams) as Hent by (by apply list_elem_of_filter).
      exists sid, (entries_of sid teams). split; [|done].
      apply group_by_source_elem_of. split_and!; try done.
      intros Hnil. rewrite Hnil in Hent. by apply elem_of_nil in Hent.
Qed.

Lemma reverse_map_get (team_id_map : list (string * Z)) tid :
  dict_get tid (reverse_map team_id_map) =
  fst <$> last (filter (λ kv, kv.2 = tid) team_id_map).
Proof.
  induction team_id_map as [|[sid v] m IH] using rev_ind; [done|].
  rewrite reverse_map_snoc, filter_app. cbn [fst snd].
  destruct (decide (v = tid)) as [->|Hne].
  - rewrite filter_cons_True, filter_nil by done. by rewrite last_snoc, dict_get_set_eq.
  - rewrite filter_cons_False, filter_nil, app_nil_r by done.
    by rewrite dict_get_set_ne.
Qed.

(** X22. [id_to_source] sends a key to the last source id of [team_id_map]
    that carries it, so of the source ids that share a key only the last is
    gap-filled; when the keys of the mapping are pairwise distinct, reversing
    loses nothing: a key is sent to a source id exactly when the mapping
    sends that source id to the key. *)
Theorem id_to_source_last_source_wins (team_id_map : list (string * Z)) :
  NoDup (reverse_map team_id_map).*1 ∧
  (∀ tid sid, dict_get tid (reverse_map team_id_map) = Some sid ↔
     last (filter (λ kv, kv.2 = tid) team_id_map) = Some (sid, tid)) ∧
  (NoDup team_id_map.*1 → NoDup team_id_map.*2 →
   ∀ tid sid, dict_get tid (reverse_map team_id_map) = Some sid ↔
     dict_get sid team_id_map = Some tid).
Proof.
  assert (∀ tid sid, dict_get tid (reverse_map team_id_map) = Some sid ↔
     last (filter (λ kv, kv.2 = tid) team_id_map) = Some (sid, tid)) as Hlast.
  { intros tid sid. rewrite reverse_map_get.
    destruct (last (filter (λ kv, kv.2 = tid) team_id_map)) as [[k v]|] eqn:Hl; [|done].
    apply last_Some_elem_of, list_elem_of_filter in Hl as [Hv _]. cbn in *. subst v.
    split; intros [= ->]; done. }
  split_and!; [apply reverse_map_NoDup | done |].
  intros Hk Hv tid sid. rewrite Hlast. split.
  - intros Hl%last_Some_elem_of. apply list_elem_of_filter in Hl as [_ Hin].
    by apply dict_elem_of_get.
  - intros Hin%dict_get_Some_elem_of.
    assert ((sid, tid) ∈ filter (λ kv : string * Z, kv.2 = tid) team_id_map) as Hf.
    { by apply list_elem_of_filter. }
    destruct (last (filter (λ kv : string * Z, kv.2 = tid) team_id_map)) as [kv|] eqn:Hl.
    + apply last_Some_elem_of, list_elem_of_filter in Hl as [Hkv Hin'].
      f_equal. apply (NoDup_fmap_elem_inj snd team_id_map); try done.
    + apply last_None in Hl. rewrite Hl in Hf. by apply elem_of_nil in Hf.
Qed.

(** ** The last season *)

(** ** From the snapshots to the table of teams *)

(** X24. With the datastore up, phases 1 and 2 together store, for every
    team of the snapshots, a row whose last active season is the latest
    season in which the API lists the team and whose columns are those of the
    first entry of the team in that season. *)
Theorem latest_season_reaches_the_table env w data all_teams_map w1 w2 sid s t :
  datastore_up env →
  collect_all_seasons_data env w = (Ok (data, all_teams_map), w1) →
  upsert_teams env all_teams_map w1 = (Ok tt, w2) →
  latest_entry data sid s t →
  ∃ r, r ∈ tbl_teams w2 ∧ t_source_id r = Some sid ∧
    t_last_active_season r = s ∧ t_school r = school t.
Proof.
  intros Hup Hcollect Hupsert Hlatest.
  destruct (collect_all_seasons_data_run env w)
    as (data' & atm' & w1' & Hrun & _ & Hm & _ & Hnd & _).
  rewrite Hcollect in Hrun. injection Hrun as <- <- <-.
  apply Hm, dict_get_Some_elem_of in Hlatest.
  destruct (upsert_teams_run env all_teams_map w1)
    as (w2' & errs & applied & Hrun & _ & _ & _ & _ & _ & _ & _ & _ & _ & _ & Ht & Hall).
  rewrite Hupsert in Hrun. injection Hrun as <-.
  destruct (Hall Hup) as [-> _].
  destruct (foldl_apply_upsert_stored env all_teams_map (tbl_teams w1) sid s t Hnd Hlatest)
    as (r & Hr & Hs & Hsch & Hlast).
  exists r. by rewrite Ht.
Qed.

(** ** The further properties on the small runs *)

Lemma example_env_serial_up : datastore_up example_env_serial.
Proof. by intros n r. Qed.

Lemma foldr_max_bound (ids : list Z) x : x ∈ ids → x ≤ foldr Z.max 0 ids.
Proof.
  induction ids as [|y ids IH]; [by intros ?%elem_of_nil|].
  intros [->|Hin]%elem_of_cons; cbn; [lia|]. specialize (IH Hin). lia.
Qed.

Lemma foldr_max_nonneg (ids : list Z) : 0 ≤ foldr Z.max 0 ids.
Proof. induction ids as [|y ids IH]; cbn; lia. Qed.

Lemma example_env_serial_fresh : fresh_keys example_env_serial.
Proof.
  intros rows. cbn. pose proof (foldr_max_nonneg (t_id <$> rows)). split; [lia|].
  intros Hin%foldr_max_bound. lia.
Qed.

Lemma upsert_teams_stores_last_season_witness :
  ∃ w' r, upsert_teams example_env example_teams_map example_world = (Ok tt, w') ∧
    r ∈ tbl_teams w' ∧ t_source_id r = Some "T" ∧
    t_school r = school (example_team "T" 1) ∧ t_last_active_season r = 2012.
Proof.
  apply (upsert_teams_stores_last_season example_env example_teams_map example_world
           "T" 2012 (example_team "T" 1)).
  - exact example_datastore_up.
  - vm_compute. repeat constructor; set_solver.
  - left.
Defined.

Lemma every_upserted_team_is_mapped_witness :
  ∃ team_id_map w2 tid,
    get_team_id_map example_env_serial example_upserted = (Ok team_id_map, w2) ∧
    mapped team_id_map "T" tid.
Proof.
  apply (every_upserted_team_is_mapped example_env_serial example_teams_map
           example_world example_upserted "T").
  - exact example_env_serial_up.
  - exact example_env_serial_fresh.
  - constructor.
  - by intros ?%elem_of_nil.
  - by vm_compute.
  - left.
  - done.
Defined.

Lemma team_id_map_last_row_wins_witness :
  ∃ team_id_map w',
    get_team_id_map example_env example_teams_world = (Ok team_id_map, w') ∧
    issued example_teams_world w' = [SelectTeams] ∧
    tbl_teams w' = tbl_teams example_teams_world ∧
    tbl_history w' = tbl_history example_teams_world ∧
    tbl_conferences w' = tbl_conferences example_teams_world ∧
    logger w' = logger example_teams_world ∧
    NoDup team_id_map.*1 ∧
    ∀ sid tid, dict_get sid team_id_map = Some tid ↔
      sid ≠ "" ∧
      t_id <$> last (rows_of_source sid (tbl_teams example_teams_world)) = Some tid.
Proof.
  apply (team_id_map_last_row_wins example_env example_teams_world). reflexivity.
Defined.

Lemma example_stale_resolved_run :
  build_conference_history example_env_clear_down example_data example_map
    example_stale_world = (Ok tt, example_stale_resolved).
Proof. by vm_compute. Qed.

Lemma failed_clear_keeps_stale_history_witness :
  head (failed example_stale_world example_stale_resolved) = Some ClearHistoryFailed ∧
  (∃ added, tbl_history example_stale_resolved
              = tbl_history example_stale_world ++ added) ∧
  ∀ tid s, rows_for tid s (tbl_history example_stale_world) ≠ [] →
    rows_for tid s (tbl_history example_stale_resolved)
      = rows_for tid s (tbl_history example_stale_world).
Proof.
  apply (failed_clear_keeps_stale_history example_env_clear_down example_data example_map
           example_stale_world example_stale_resolved).
  - reflexivity.
  - exact example_stale_resolved_run.
Defined.

Lemma rebuilt_history_holds_reported_conferences_witness :
  unique_keys (tbl_history example_resolved) ∧
  ∀ row, row ∈ tbl_history example_resolved →
    h_existed row = true ∧ 1925 ≤ h_season row ≤ 2025 ∧
    ∃ sid entries,
      truthy_id (dict_get sid example_map) = Some (h_team_id row) ∧
      reported example_data sid (h_season row) entries ∧
      h_conference_id row ∈ conferenceId <$> entries.
Proof.
  apply (rebuilt_history_holds_reported_conferences example_env example_data example_map
           example_world example_resolved).
  - reflexivity.
  - exact example_resolved_run.
Defined.

Lemma history_counter_counts_stored_rows_witness :
  ∃ added, tbl_history example_resolved = cleared example_env example_world ++ added ∧
    counter "history_records_created" example_resolved
      = (counter "history_records_created" example_world + length added)%nat ∧
    (length added
       + length (filter is_insert_failure (failed example_world example_resolved))
     = length (omap inserted_row (issued example_world example_resolved)))%nat.
Proof.
  apply (history_counter_counts_stored_rows example_env example_data example_map
           example_world example_resolved).
  exact example_resolved_run.
Defined.

Lemma history_keys_stay_unique_witness :
  unique_keys (tbl_history example_resolved) ∧ unique_keys (tbl_history example_filled).
Proof.
  apply (history_keys_stay_unique example_env example_data example_map
           example_world example_resolved example_filled).
  - vm_compute. repeat constructor; set_solver.
  - exact example_resolved_run.
  - exact example_filled_run.
Defined.

Lemma gap_filler_is_idempotent_witness :
  ∃ w2, fill_gap_years example_env example_data example_map example_filled = (Ok tt, w2) ∧
    tbl_history w2 = tbl_history example_filled ∧ logger w2 = logger example_filled ∧
    issued example_filled w2 = gap_query <$> gap_candidates example_data example_map.
Proof.
  apply (gap_filler_is_idempotent example_env example_data example_map
           example_resolved example_filled).
  - exact example_datastore_up.
  - exact example_filled_run.
Defined.

Lemma validate_data_reports_orphans_witness :
  ∃ w', validate_data example_env example_filled = (Ok tt, w') ∧
    issued example_filled w' = validation_queries ∧
    tbl_history w' = tbl_history example_filled ∧
    tbl_conferences w' = tbl_conferences example_filled ∧
    tbl_teams w' = tbl_teams example_filled ∧
    errors (logger w') = errors (logger example_filled) ∧
    stats (logger w') = stats (logger example_filled) ∧
    (warned example_filled w' = [] ↔ ∀ c, ¬ orphan example_filled c) ∧
    (∀ m, m ∈ warned example_filled w' →
       ∃ orphaned, m = OrphanedConferences orphaned ∧
         ∀ c, c ∈ orphaned ↔ orphan example_filled c).
Proof.
  apply (validate_data_reports_orphans example_env example_filled).
  by intros n r _.
Defined.

Lemma example_null_duplicate : null_duplicate example_data_null example_map.
Proof.
  exists 2010, "T", 10, [Team (Some "T") None None; example_team "T" 1].
  split_and!; try done.
  - split; [lia|]. eexists. split; [by vm_compute|]. by vm_compute.
  - left.
Qed.

Lemma resolver_raises_exactly_on_null_duplicates_witness :
  ∃ w', build_conference_history example_env example_data_null example_map example_world
        = (Raise TypeError, w').
Proof.
  apply (proj1 (resolver_raises_exactly_on_null_duplicates example_env example_data_null
                  example_map example_world)).
  exact example_null_duplicate.
Defined.

Lemma example_healthy_run :
  main example_env_serial example_world = (Ok tt, example_healthy).
Proof. by vm_compute. Qed.

Lemma healthy_run_leaves_no_team_unmapped_witness :
  NoTeamId "U" 2011 ∉ warned example_world example_healthy.
Proof.
  apply (healthy_run_leaves_no_team_unmapped example_env_serial example_world
           example_healthy "U" 2011).
  - exact example_env_serial_up.
  - exact example_env_serial_fresh.
  - constructor.
  - by intros ?%elem_of_nil.
  - exact example_healthy_run.
Defined.

Lemma upsert_conferences_last_wins_witness :
  ∃ w', upsert_conferences example_env [Conference 1 "One"; Conference 1 "Uno"]
          example_world = (Ok tt, w') ∧
    NoDup (conf_id <$> tbl_conferences w') ∧
    ∀ c, c ∈ tbl_conferences w' ↔
      last (filter (λ conf, conf_id conf = conf_id c)
              [Conference 1 "One"; Conference 1 "Uno"]) = Some c ∨
      (c ∈ tbl_conferences example_world ∧
       conf_id c ∉ conf_id <$> [Conference 1 "One"; Conference 1 "Uno"]).
Proof.
  apply (upsert_conferences_last_wins example_env
           [Conference 1 "One"; Conference 1 "Uno"] example_world).
  - exact example_datastore_up.
  - constructor.
Defined.

Lemma example_resolved_2025_run :
  build_conference_history example_env example_data_2025 example_map example_world
  = (Ok tt, example_resolved_2025).
Proof. by vm_compute. Qed.

Lemma example_collected_run :
  collect_all_seasons_data example_env example_world
  = (Ok example_collected_data, example_collected).
Proof. by vm_compute. Qed.

Lemma example_stored_run :
  upsert_teams example_env example_collected_data.2 example_collected
  = (Ok tt, example_stored).
Proof. by vm_compute. Qed.

Lemma example_latest_entry :
  latest_entry example_collected_data.1 "T" 2012 (example_team "T" 1).
Proof.
  destruct (collect_all_seasons_data_run example_env example_world)
    as (data & atm & w' & Hrun & _ & Hm & _).
  assert (example_collected_data = (data, atm)) as Heq.
  { pose proof example_collected_run as H. rewrite Hrun in H. congruence. }
  rewrite Heq. cbn [fst]. apply Hm.
  replace atm with example_collected_data.2 by (by rewrite Heq).
  by vm_compute.
Qed.

Lemma latest_season_reaches_the_table_witness :
  ∃ r, r ∈ tbl_teams example_stored ∧ t_source_id r = Some "T" ∧
    t_last_active_season r = 2012 ∧ t_school r = school (example_team "T" 1).
Proof.
  apply (latest_season_reaches_the_table example_env example_world
           example_collected_data.1 example_collected_data.2
           example_collected example_stored "T" 2012 (example_team "T" 1)).
  - exact example_datastore_up.
  - rewrite example_collected_run. by destruct example_collected_data.
  - exact example_stored_run.
  - exact example_latest_entry.
Defined.

(** * Failures: duplicates, null conference ids, rejected calls *)

(** ** Several inserts for one key *)

Lemma insert_failures_app sid s a b :
  insert_failures sid s (a ++ b) = insert_failures sid s a ++ insert_failures sid s b.
Proof. unfold insert_failures. by rewrite filter_app. Qed.

(** Of the inserts a script sends for a key, each is either stored or
    answered by an error that names the team and the season. *)
Lemma run_script_key env script w w' sid tid s :
  run_script env script w = (Ok tt, w') →
  Forall (key_source sid tid s) script →
  ∃ added errs,
    tbl_history w' = tbl_history w ++ added ∧
    errors (logger w') = errors (logger w) ++ errs ∧
    (length (rows_for tid s added) + length (insert_failures sid s errs)
       = length (rows_for tid s (script_rows script)))%nat.
Proof.
  revert w. induction script as [|a script IH]; intros w.
  - intros [= <-] _. exists [], []. by rewrite !app_nil_r.
  - rewrite run_script_cons. unfold bind at 1.
    destruct (run_action env a w) as [[[]|e0] w1] eqn:Ha; [|done].
    intros Hrest [Hkey Hall]%Forall_cons.
    destruct (IH w1 Hrest Hall) as (added & errs & Hh & He & Hlen). clear IH.
    destruct a as [m|key|source_id team_id season conference_id|e]; cbn in Ha.
    + unfold_prims. injection Ha as <-. cbn in *. by exists added, errs.
    + unfold_prims. injection Ha as <-. cbn in *. by exists added, errs.
    + destruct (insert_resolved_effect env source_id team_id season conference_id w)
        as (w2 & Hrun & Heff).
      rewrite Hrun in Ha. injection Ha as <-.
      change (script_rows (Insert source_id team_id season conference_id :: script))
        with ([HistoryRow team_id season conference_id true] ++ script_rows script).
      rewrite rows_for_app, length_app. cbn in Hkey.
      destruct Heff as [(Hh2 & _ & He2 & _)|(Hh2 & He2 & _)].
      * exists (HistoryRow team_id season conference_id true :: added), errs.
        split_and!.
        -- rewrite Hh, Hh2, <- app_assoc. done.
        -- by rewrite He, He2.
        -- change (HistoryRow team_id season conference_id true :: added)
             with ([HistoryRow team_id season conference_id true] ++ added).
           rewrite rows_for_app, length_app. lia.
      * exists added, (InsertHistoryFailed source_id season :: errs).
        split_and!.
        -- by rewrite Hh, Hh2.
        -- rewrite He, He2, <- app_assoc. done.
        -- change (InsertHistoryFailed source_id season :: errs)
             with ([InsertHistoryFailed source_id season] ++ errs).
           rewrite insert_failures_app, length_app. rewrite <- Hlen.
           assert (length (insert_failures sid s [InsertHistoryFailed source_id season])
                   = length (rows_for tid s [HistoryRow team_id season conference_id true]))
             as ->; [|lia].
           unfold insert_failures, rows_for. rewrite !filter_cons, !filter_nil. cbn.
           destruct (decide (season = s)) as [->|Hs].
           ++ destruct (Hkey eq_refl) as [H1 H2].
              destruct (decide (source_id = sid)) as [->|Hsid].
              ** rewrite decide_True by done. by rewrite decide_True by (by rewrite H1).
              ** rewrite decide_False by congruence.
                 rewrite decide_False; [done|]. intros [Ht _]. by apply Hsid, H2.
           ++ rewrite decide_False by congruence.
              rewrite decide_False; [done|]. by intros [_ ?].
    + done.
Qed.

Lemma build_script_key_source data team_id_map sid tid s :
  mapped team_id_map sid tid →
  Forall (key_source sid tid s) (build_script data team_id_map).
Proof.
  intros Hmap. eapply Forall_impl; [apply build_script_inserts_mapped|].
  intros [| |sid' tid' s' c|] Ha; try done. destruct Ha as [Hid _]. intros _.
  split.
  - intros ->. rewrite (mapped_truthy_id_self _ _ _ Hmap) in Hid. congruence.
  - intros ->. apply truthy_id_Some in Hid as [Hget _].
    destruct Hmap as (_ & _ & _ & Hinj). by apply Hinj.
Qed.

(** Of the inserts the resolver sends for the key of a mapped team, each
    is either stored or answered by an error naming the team and the
    season, whatever the datastore does. *)
Lemma build_conference_history_key_failures env data team_id_map w w' sid tid s :
  build_conference_history env data team_id_map w = (Ok tt, w') →
  mapped team_id_map sid tid →
  ∃ added, tbl_history w' = cleared env w ++ added ∧
    (length (rows_for tid s added) + length (insert_failures sid s (failed w w'))
       = length (rows_for tid s (script_rows (build_script data team_id_map))))%nat.
Proof.
  rewrite build_conference_history_script. unfold bind.
  destruct (clear_history_effect env w) as (w1 & -> & Hs1 & Hh1 & He1 & Hst1).
  intros Hrun Hmap.
  destruct (run_script_key env _ w1 w' sid tid s Hrun
              (build_script_key_source data team_id_map sid tid s Hmap))
    as (added & errs & Hh & He & Hlen).
  exists added. rewrite <- Hh1. split; [done|].
  rewrite (failed_app w w' ((if datastore_down env (length (sent w)) DeleteHistory
                              then [ClearHistoryFailed] else []) ++ errs)).
  2:{ rewrite He, He1, <- app_assoc. done. }
  rewrite insert_failures_app, length_app, <- Hlen.
  by destruct (datastore_down env _ _).
Qed.

(** C2 (as amended). For a team with a key that reports several entries in
    a season and for which the forward scan finds the eventual conference
    [x], the resolver sends one insert per reported conference id that
    differs from [x], in the order of the reports, and none for a report
    equal to [x]. With the datastore up, the history keeps the first of them
    as the record of that (team_id, season); each of the others is rejected
    under the uniqueness of the key, and the rejection is caught and logged
    as a failed insert of that team and season. *)
Theorem duplicates_record_differing env data team_id_map w w' sid tid s entries x :
  build_conference_history env data team_id_map w = (Ok tt, w') →
  mapped team_id_map sid tid →
  reported data sid s entries → (2 ≤ length entries)%nat →
  find_eventual_conference sid s data = Some x →
  let differing :=
    (λ c, HistoryRow tid s c true) <$>
      filter (λ c, c ≠ Some x) (conferenceId <$> entries) in
  inserts_for tid s (issued w w') = differing ∧
  (datastore_up env →
     rows_for tid s (tbl_history w') = take 1 differing ∧
     length (insert_failures sid s (failed w w')) = (length differing - 1)%nat).
Proof.
  intros Hrun Hmap Hrep Hlen Hev differing.
  assert (entries ≠ []) as Hne by (intros ->; simpl in Hlen; lia).
  destruct (build_conference_history_key _ _ _ _ _ _ _ _ _ Hrun Hmap Hrep Hne)
    as [Hins Hrows].
  rewrite (resolved_script_rows_duplicates _ _ _ _ _ _ Hlen Hev) in Hins, Hrows.
  fold differing in Hins, Hrows. split; [done|]. intros Hup. split; [by apply Hrows|].
  destruct (build_conference_history_key_failures _ _ _ _ _ sid tid s Hrun Hmap)
    as (added & Hh & Hcount).
  specialize (Hrows Hup). unfold cleared in Hh. rewrite Hup in Hh. cbn in Hh.
  rewrite Hh in Hrows. rewrite Hrows in Hcount.
  rewrite (build_script_rows _ _ _ sid) in Hcount by done.
  rewrite decide_True in Hcount by apply Hrep.
  rewrite (resolved_rows_reported _ _ _ _ _ Hrep Hne) in Hcount.
  rewrite (resolved_script_rows_duplicates _ _ _ _ _ _ Hlen Hev) in Hcount.
  fold differing in Hcount. rewrite length_take in Hcount. lia.
Qed.

Lemma example_resolved_three_run :
  build_conference_history example_env example_data_three example_map example_world
  = (Ok tt, example_resolved_three).
Proof. by vm_compute. Qed.

Lemma example_three_reported :
  reported example_data_three "T" 2010
    [example_team "T" 1; example_team "T" 2; example_team "T" 3].
Proof. split; [lia|]. eexists. split; by vm_compute. Qed.

Lemma duplicates_record_differing_witness :
  let differing :=
    (λ c, HistoryRow 10 2010 c true) <$>
      filter (λ c, c ≠ Some 1)
        (conferenceId <$> [example_team "T" 1; example_team "T" 2; example_team "T" 3]) in
  inserts_for 10 2010 (issued example_world example_resolved_three) = differing ∧
  (datastore_up example_env →
     rows_for 10 2010 (tbl_history example_resolved_three) = take 1 differing ∧
     length (insert_failures "T" 2010 (failed example_world example_resolved_three))
       = (length differing - 1)%nat).
Proof.
  apply (duplicates_record_differing example_env example_data_three example_map
           example_world example_resolved_three "T" 10 2010
           [example_team "T" 1; example_team "T" 2; example_team "T" 3] 1).
  - exact example_resolved_three_run.
  - apply example_mapped. by vm_compute; left.
  - exact example_three_reported.
  - simpl. lia.
  - by vm_compute.
Defined.

(** C2 (as stated) fails on the records: team T reports the conferences 1,
    2 and 3 in 2010 and the conference 1 alone in 2011. The values 2 and 3
    differ from the eventual conference 1, an insert is sent for each, and
    the history keeps one record for (T, 2010), the first, not one per
    differing value. *)
Lemma duplicates_beyond_first_are_not_stored :
  ¬ (∀ env data team_id_map w w' sid tid s entries x,
       datastore_up env →
       build_conference_history env data team_id_map w = (Ok tt, w') →
       mapped team_id_map sid tid →
       reported data sid s entries → (2 ≤ length entries)%nat →
       find_eventual_conference sid s data = Some x →
       rows_for tid s (tbl_history w') =
         (λ c, HistoryRow tid s c true) <$>
           filter (λ c, c ≠ Some x) (conferenceId <$> entries)).
Proof.
  intros H.
  assert (mapped example_map "T" 10) as Hmap.
  { apply example_mapped. by vm_compute; left. }
  assert ((2 ≤ length [example_team "T" 1; example_team "T" 2; example_team "T" 3])%nat)
    as Hlen by (simpl; lia).
  assert (find_eventual_conference "T" 2010 example_data_three = Some 1) as Hev
    by (by vm_compute).
  pose proof (H example_env example_data_three example_map example_world
                example_resolved_three "T" 10 2010 _ 1 example_datastore_up
                example_resolved_three_run Hmap example_three_reported Hlen Hev) as Hrows.
  clear H. vm_compute in Hrows. discriminate Hrows.
Qed.

(** ** A null conference id among the duplicates *)

Lemma resolved_script_null data sid tid s entries :
  (2 ≤ length entries)%nat → find_eventual_conference sid s data = None →
  None ∈ conferenceId <$> entries →
  resolved_script data sid tid s entries =
    [Count "duplicates_resolved"; Warn (NoEventual sid s); Fail TypeError].
Proof.
  intros Hlen Hev Hnone. unfold resolved_script.
  destruct entries as [|e1 [|e2 rest]]; [simpl in Hlen; lia.. |].
  unfold duplicate_script. rewrite Hev.
  assert (sort_conferences (conferenceId <$> e1 :: e2 :: rest) = Raise TypeError) as ->.
  { apply sort_conferences_Raise. by rewrite length_fmap. }
  done.
Qed.

(** When the resolver raises, it has performed the actions of its script
    that come before the failing one. *)
Lemma build_conference_history_raised env data team_id_map w e w' :
  build_conference_history env data team_id_map w = (Raise e, w') →
  ∃ done_ rest,
    build_script data team_id_map = done_ ++ Fail e :: rest ∧
    issued w w' = DeleteHistory :: omap action_request done_ ∧
    warned w w' = omap action_warning done_ ∧
    ∃ errs, errors (logger w') = errors (logger w) ++ errs ∧ FatalError ∉ errs.
Proof.
  rewrite build_conference_history_script. unfold bind.
  destruct (clear_history_effect env w) as (w1 & Hclear & Hs1 & _ & He1 & _).
  destruct (clear_history_run env w) as (w1' & Hclear' & _ & Hw1 & _).
  rewrite Hclear in Hclear'. injection Hclear' as <-. rewrite Hclear.
  intros (done_ & rest & Hscript & Hrun)%run_script_raise.
  exists done_, rest. split; [done|].
  pose proof (run_script_ok _ _ _ _ Hrun) as (Hs & Hw & _).
  destruct (run_script_effect _ _ _ _ Hrun) as (_ & errs & _ & _ & He & _ & Hm & _).
  split_and!.
  - apply issued_app. by rewrite Hs, Hs1, <- app_assoc.
  - apply warned_app. by rewrite Hw, Hw1.
  - eexists. split; [rewrite He, He1, <- app_assoc; done|].
    intros [Hin|Hin]%elem_of_app.
    + destruct (datastore_down env _ _); [|by apply elem_of_nil in Hin].
      by apply list_elem_of_singleton in Hin.
    + by destruct (Hm _ Hin) as (? & ? & ?).
Qed.

(** The fallback on duplicates that include a null conference id: the sort
    raises [TypeError], the resolver stops, and no insert was sent for the
    team in that season. *)
Lemma null_fallback_raises env data team_id_map w sid tid s entries :
  mapped team_id_map sid tid →
  reported data sid s entries → (2 ≤ length entries)%nat →
  find_eventual_conference sid s data = None →
  None ∈ conferenceId <$> entries →
  ∃ w', build_conference_history env data team_id_map w = (Raise TypeError, w') ∧
    inserts_for tid s (issued w w') = [].
Proof.
  intros Hmap Hrep Hlen Hev Hnone.
  assert (entries ≠ []) as Hne by (intros ->; simpl in Hlen; lia).
  pose proof (resolved_script_null data sid tid s entries Hlen Hev Hnone) as Hres.
  assert (Fail TypeError ∈ build_script data team_id_map) as Hfail.
  { apply (build_script_resolved _ _ sid tid s entries); try done.
    rewrite Hres. do 2 right. left. }
  assert (rows_for tid s (script_rows (build_script data team_id_map)) = []) as Hrows.
  { rewrite (build_script_rows _ _ _ sid) by done.
    rewrite decide_True by apply Hrep.
    rewrite (resolved_rows_reported _ _ _ _ _ Hrep Hne), Hres. done. }
  destruct (build_conference_history env data team_id_map w) as [[[]|e] w'] eqn:Hrun.
  - apply build_conference_history_run in Hrun as (_ & _ & Hok & _).
    rewrite Forall_forall in Hok. by destruct (Hok _ Hfail).
  - destruct (build_conference_history_raised _ _ _ _ _ _ Hrun)
      as (done_ & rest & Hscript & Hi & _).
    pose proof (build_script_fails_justified data team_id_map) as Hall.
    rewrite Forall_forall in Hall.
    destruct (Hall (Fail e)) as [-> _].
    { rewrite Hscript. apply elem_of_app. right. left. }
    exists w'. split; [done|]. rewrite Hi, inserts_for_build.
    rewrite Hscript, script_rows_app, rows_for_app in Hrows.
    by apply app_eq_nil in Hrows as [? _].
Qed.

(** C5. The claim fails on duplicates that include a null conference id:
    team T reports a null conference id and the conference 1 in 2010 and is
    gone afterwards. The resolver logs the warning of the fallback, then the
    sort of the reported ids raises [TypeError] outside any [try]: the
    resolver stops, no insert is sent for (T, 2010) and the history holds no
    record. *)
Theorem null_duplicate_raises_before_insert :
  ∃ w', build_conference_history example_env example_data_null example_map example_world
        = (Raise TypeError, w') ∧
    find_eventual_conference "T" 2010 example_data_null = None ∧
    inserts_for 10 2010 (issued example_world w') = [] ∧
    warned example_world w' = [NoEventual "T" 2010] ∧
    tbl_history w' = [].
Proof. eexists. split_and!; by vm_compute. Qed.

(** ** The last season *)

(** X23. The last season has no future: for a team reported in 2025 the
    forward scan finds nothing, so the duplicates of a mapped team in 2025
    always go to the fallback. If one of the reported conference ids is
    null, the sort raises [TypeError] and the resolver stops without an
    insert for the team; on a run that completes there is one insert, with
    the smallest conference id reported, and the warning of the fallback is
    logged. *)
Theorem last_season_duplicates_fall_back env data team_id_map w sid tid entries :
  mapped team_id_map sid tid →
  reported data sid 2025 entries → (2 ≤ length entries)%nat →
  find_eventual_conference sid 2025 data = None ∧
  (None ∈ conferenceId <$> entries →
     ∃ w', build_conference_history env data team_id_map w = (Raise TypeError, w') ∧
       inserts_for tid 2025 (issued w w') = []) ∧
  (∀ w', build_conference_history env data team_id_map w = (Ok tt, w') →
     ∃ m, Some m ∈ conferenceId <$> entries ∧
       (∀ c, c ∈ conferenceId <$> entries → ∃ z, c = Some z ∧ m ≤ z) ∧
       inserts_for tid 2025 (issued w w') = [HistoryRow tid 2025 (Some m) true] ∧
       NoEventual sid 2025 ∈ warned w w').
Proof.
  intros Hmap Hrep Hlen.
  pose proof (find_eventual_conference_last_season sid 2025 data ltac:(lia)) as Hev.
  split_and!; [done| |].
  - intros Hnone. by apply (null_fallback_raises _ _ _ _ sid tid 2025 entries).
  - intros w' Hrun.
    destruct (fallback_records_smallest _ _ _ _ _ _ _ _ _ Hrun Hmap Hrep Hlen Hev)
      as (m & Hm & Hmin & Hins & Hwarn & _).
    by exists m.
Qed.

Lemma last_season_duplicates_fall_back_witness :
  find_eventual_conference "T" 2025 example_data_2025 = None ∧
  (None ∈ conferenceId <$> [example_team "T" 2; example_team "T" 1] →
     ∃ w', build_conference_history example_env example_data_2025 example_map
             example_world = (Raise TypeError, w') ∧
       inserts_for 10 2025 (issued example_world w') = []) ∧
  (∀ w', build_conference_history example_env example_data_2025 example_map
           example_world = (Ok tt, w') →
     ∃ m, Some m ∈ conferenceId <$> [example_team "T" 2; example_team "T" 1] ∧
       (∀ c, c ∈ conferenceId <$> [example_team "T" 2; example_team "T" 1] →
          ∃ z, c = Some z ∧ m ≤ z) ∧
       inserts_for 10 2025 (issued example_world w') = [HistoryRow 10 2025 (Some m) true] ∧
       NoEventual "T" 2025 ∈ warned example_world w').
Proof.
  apply (last_season_duplicates_fall_back example_env example_data_2025 example_map
           example_world "T" 10 [example_team "T" 2; example_team "T" 1]).
  - apply example_mapped. by vm_compute; left.
  - split; [lia|]. eexists. split; by vm_compute.
  - cbn. lia.
Defined.

(** ** What the forward scan reads *)

(** X10. The forward scan for a team reads, of the seasons after
    [start_season] up to 2025, whether the season has a snapshot and which
    entries the team has in it, and nothing else: two collections of
    snapshots that have the same seasons in that range and give the team the
    same entries in each of them yield the same result, whatever they hold
    for the season itself, the seasons before it, the seasons after 2025, and
    for the other teams of a season both hold. *)
Theorem find_eventual_conference_reads_future_only sid start data data' :
  (∀ s, start < s ≤ 2025 → data !! s = None ↔ data' !! s = None) →
  (∀ s teams teams', start < s ≤ 2025 →
     data !! s = Some teams → data' !! s = Some teams' →
     entries_of sid teams = entries_of sid teams') →
  find_eventual_conference sid start data = find_eventual_conference sid start data'.
Proof.
  intros Hseasons Hentries. unfold find_eventual_conference. apply scan_future_ext.
  intros s Hs. unfold range in Hs. apply elem_of_seqZ in Hs.
  assert (start < s ≤ 2025) as Hin by lia.
  specialize (Hseasons s Hin). specialize (Hentries s).
  destruct (data !! s) as [teams|], (data' !! s) as [teams'|]; cbn.
  - f_equal. by apply Hentries.
  - exfalso. by destruct Hseasons as [_ H]; specialize (H eq_refl).
  - exfalso. by destruct Hseasons as [H _]; specialize (H eq_refl).
  - done.
Qed.

Lemma find_eventual_conference_reads_future_only_witness :
  find_eventual_conference "T" 2010 example_data =
  find_eventual_conference "T" 2010 example_data_others.
Proof.
  apply (find_eventual_conference_reads_future_only "T" 2010 example_data
           example_data_others).
  - intros s Hs. unfold example_data, example_data_others.
    destruct (decide (s = 2011)) as [->|?]; [done|].
    destruct (decide (s = 2012)) as [->|?]; [done|].
    rewrite !lookup_insert_ne by lia. done.
  - intros s teams teams' Hs. unfold example_data, example_data_others.
    destruct (decide (s = 2011)) as [->|?]; [by intros [= <-] [= <-]|].
    destruct (decide (s = 2012)) as [->|?]; [by intros [= <-] [= <-]|].
    rewrite !lookup_insert_ne by lia. done.
Defined.

(** Whether a season has a snapshot matters: a season in which the team
    has no entry ends the scan, a season without snapshot is passed over. *)
Lemma find_eventual_conference_season_presence_matters :
  find_eventual_conference "T" 2010
    (<[2011 := [example_team "U" 1]]> (<[2012 := [example_team "T" 7]]> ∅)) = None ∧
  find_eventual_conference "T" 2010 (<[2012 := [example_team "T" 7]]> ∅) = Some 7.
Proof. split; by vm_compute. Qed.

(** ** Every rejected call is answered in the log *)

Lemma rejected_app env n l1 l2 :
  rejected env n (l1 ++ l2) = (rejected env n l1 + rejected env (n + length l1) l2)%nat.
Proof.
  revert n. induction l1 as [|r l1 IH]; intros n; cbn [rejected app length].
  - by rewrite Nat.add_0_r.
  - rewrite IH. replace (S n + length l1)%nat with (n + S (length l1))%nat by lia. lia.
Qed.

Lemma accounted_refl env w : accounted env w w.
Proof.
  exists [], []. rewrite !app_nil_r. split_and!; try done. by intros ?%elem_of_nil.
Qed.

Lemma accounted_trans env w1 w2 w3 :
  accounted env w1 w2 → accounted env w2 w3 → accounted env w1 w3.
Proof.
  intros (l1 & e1 & Hs1 & He1 & Hr1 & Hf1) (l2 & e2 & Hs2 & He2 & Hr2 & Hf2).
  exists (l1 ++ l2), (e1 ++ e2). split_and!.
  - by rewrite Hs2, Hs1, <- app_assoc.
  - by rewrite He2, He1, <- app_assoc.
  - rewrite rejected_app, length_app. rewrite Hs1, length_app in Hr2. lia.
  - intros [?|?]%elem_of_app; done.
Qed.

(** A step that sends nothing and logs no error. *)
Lemma accounted_quiet env w w' :
  sent w' = sent w → errors (logger w') = errors (logger w) → accounted env w w'.
Proof.
  intros Hs He. exists [], []. rewrite !app_nil_r. split_and!; try done.
  by intros ?%elem_of_nil.
Qed.

Lemma for_each_accounted {A} env (body : A → M unit) (l : list A) w w' :
  (∀ x w0 w1, body x w0 = (Ok tt, w1) → accounted env w0 w1) →
  for_each l body w = (Ok tt, w') → accounted env w w'.
Proof.
  intros Hbody. revert w. induction l as [|x l IH]; intros w.
  - intros [= <-]. apply accounted_refl.
  - cbn [for_each]. unfold bind. destruct (body x w) as [[[]|e] w1] eqn:Hx; [|done].
    intros Hrest. eapply accounted_trans; [by eapply Hbody | by apply IH].
Qed.

Lemma for_fold_accounted {A S} env (body : A → S → M S) (l : list A) (s s' : S) w w' :
  (∀ x s0 s1 w0 w1, body x s0 w0 = (Ok s1, w1) → accounted env w0 w1) →
  for_fold l s body w = (Ok s', w') → accounted env w w'.
Proof.
  intros Hbody. revert s w. induction l as [|x l IH]; intros s w.
  - intros [= <- <-]. apply accounted_refl.
  - cbn [for_fold]. unfold bind. destruct (body x s w) as [[s1|e] w1] eqn:Hx; [|done].
    intros Hrest. eapply accounted_trans; [by eapply Hbody | by eapply IH].
Qed.

Ltac solve_accounted l errs :=
  exists l, errs; cbn; rewrite ?app_nil_r, <- ?app_assoc;
  split_and!;
  [ reflexivity
  | reflexivity
  | cbn [rejected rejected_at];
    rewrite ?length_app in *; cbn [length] in *; rewrite ?Nat.add_1_r in *;
    repeat match goal with
           | H : datastore_down _ _ _ = _ |- _ => rewrite H; clear H
           | H : teams_endpoint _ _ _ = _ |- _ => rewrite H; clear H
           | H : conferences_endpoint _ _ = _ |- _ => rewrite H; clear H
           end;
    cbn; lia
  | set_solver ].

Lemma upsert_conference_accounted env conf w w1 :
  try_except (upsert_conference env conf ;; stat "conferences_processed")
    (λ _, error (UpsertConferenceFailed (conf_name conf))) w = (Ok tt, w1) →
  accounted env w w1.
Proof.
  unfold upsert_conference, set_conferences. unfold_prims.
  destruct (datastore_down env _ _) eqn:Hd; cbn; intros [= <-].
  - solve_accounted [UpsertConference conf] [UpsertConferenceFailed (conf_name conf)].
  - solve_accounted [UpsertConference conf] (@nil message).
Qed.

Lemma fetch_teams_for_season_accounted env season w teams w1 :
  fetch_teams_for_season env season w = (Ok teams, w1) → accounted env w w1.
Proof.
  unfold fetch_teams_for_season, get_teams. unfold_prims.
  destruct (teams_endpoint env _ season) eqn:Hd; cbn; intros [= <- <-].
  - solve_accounted [GetTeams season] (@nil message).
  - solve_accounted [GetTeams season] [FetchTeamsFailed season].
Qed.

Lemma upsert_one_team_accounted env item w w1 :
  upsert_one_team env item w = (Ok tt, w1) → accounted env w w1.
Proof.
  destruct item as [source_id [last_season team]].
  unfold upsert_one_team, upsert_team, set_teams. unfold_prims.
  destruct (datastore_down env _ _) eqn:Hd; cbn; intros [= <-].
  - solve_accounted [UpsertTeam source_id (school team) last_season]
      [UpsertTeamFailed (school team) source_id].
  - solve_accounted [UpsertTeam source_id (school team) last_season] (@nil message).
Qed.

Lemma clear_history_accounted env w w1 :
  try_except (delete_history env) (λ _, error ClearHistoryFailed) w = (Ok tt, w1) →
  accounted env w w1.
Proof.
  unfold_prims. destruct (datastore_down env _ _) eqn:Hd; cbn; intros [= <-].
  - solve_accounted [DeleteHistory] [ClearHistoryFailed].
  - solve_accounted [DeleteHistory] (@nil message).
Qed.

Lemma insert_resolved_accounted env source_id team_id season conference_id w w1 :
  insert_resolved env source_id team_id season conference_id w = (Ok tt, w1) →
  accounted env w w1.
Proof.
  unfold_prims. unfold rows_for. cbn [h_team_id h_season].
  destruct (datastore_down env _ _) eqn:Hd; cbn.
  - intros [= <-].
    solve_accounted [InsertHistory (HistoryRow team_id season conference_id true)]
      [InsertHistoryFailed source_id season].
  - destruct (filter _ (tbl_history w)); cbn; intros [= <-].
    + solve_accounted [InsertHistory (HistoryRow team_id season conference_id true)]
        (@nil message).
    + solve_accounted [InsertHistory (HistoryRow team_id season conference_id true)]
        [InsertHistoryFailed source_id season].
Qed.

Lemma fill_gap_accounted env tid s w w1 :
  fill_gap env tid s w = (Ok tt, w1) → accounted env w w1.
Proof.
  unfold_prims. unfold rows_for. cbn [h_team_id h_season].
  destruct (datastore_down env (length (sent w)) _) eqn:Hd1; cbn.
  { intros [= <-]. solve_accounted [SelectHistory tid s] [InsertGapFailed tid s]. }
  destruct (filter _ (tbl_history w)) as [|r rs] eqn:Hr; cbn.
  2:{ intros [= <-]. solve_accounted [SelectHistory tid s] (@nil message). }
  destruct (datastore_down env _ (InsertHistory _)) eqn:Hd2; cbn.
  { intros [= <-].
    solve_accounted [SelectHistory tid s; InsertHistory (HistoryRow tid s None false)]
      [InsertGapFailed tid s]. }
  rewrite ?Hr. cbn. intros [= <-].
  solve_accounted [SelectHistory tid s; InsertHistory (HistoryRow tid s None false)]
    (@nil message).
Qed.

Lemma fetch_conferences_accounted env w conferences w1 :
  fetch_conferences env w = (Ok conferences, w1) → accounted env w w1.
Proof.
  unfold fetch_conferences, get_conferences. unfold_prims.
  destruct (conferences_endpoint env _) eqn:Hd; cbn; [|done]. intros [= <- <-].
  solve_accounted [GetConferences] (@nil message).
Qed.

Lemma get_team_id_map_accounted env w team_id_map w1 :
  get_team_id_map env w = (Ok team_id_map, w1) → accounted env w w1.
Proof.
  unfold get_team_id_map, select_teams. unfold_prims.
  destruct (datastore_down env _ _) eqn:Hd; cbn; [done|]. intros [= <- <-].
  solve_accounted [SelectTeams] (@nil message).
Qed.

Lemma validate_data_accounted env w w1 :
  validate_data env w = (Ok tt, w1) → accounted env w w1.
Proof.
  unfold validate_data, select_history_conferences, select_conferences,
    select_gap_records, count_teams, count_history. unfold_prims.
  destruct (datastore_down env _ SelectHistoryConferences) eqn:H1; cbn; [done|].
  destruct (datastore_down env _ SelectConferences) eqn:H2; cbn; [done|].
  destruct (decide _); cbn;
    (destruct (datastore_down env _ SelectGapRecords) eqn:H3; cbn; [done|]);
    (destruct (datastore_down env _ CountTeams) eqn:H4; cbn; [done|]);
    (destruct (datastore_down env _ CountHistory) eqn:H5; cbn; [done|]);
    intros [= <-];
    solve_accounted [SelectHistoryConferences; SelectConferences; SelectGapRecords;
                     CountTeams; CountHistory] (@nil message).
Qed.

Lemma upsert_conferences_accounted env conferences w w1 :
  upsert_conferences env conferences w = (Ok tt, w1) → accounted env w w1.
Proof.
  apply for_each_accounted. intros conf w0 w2. apply upsert_conference_accounted.
Qed.

Lemma collect_all_seasons_data_accounted env w collected w1 :
  collect_all_seasons_data env w = (Ok collected, w1) → accounted env w w1.
Proof.
  apply for_fold_accounted. intros season [d m] s1 w0 w2.
  unfold collect_season, bind.
  destruct (fetch_teams_for_season env season w0) as [[teams|e] w3] eqn:Hf; [|done].
  apply fetch_teams_for_season_accounted in Hf.
  destruct teams; unfold ret; by intros [= <- <-].
Qed.

Lemma upsert_teams_accounted env all_teams_map w w1 :
  upsert_teams env all_teams_map w = (Ok tt, w1) → accounted env w w1.
Proof.
  rewrite upsert_teams_loop. apply for_each_accounted.
  intros item w0 w2. apply upsert_one_team_accounted.
Qed.

Lemma run_script_accounted env script w w1 :
  run_script env script w = (Ok tt, w1) → accounted env w w1.
Proof.
  apply for_each_accounted. intros a w0 w2. destruct a; cbn.
  - unfold warning, set_logger. intros [= <-]. by apply accounted_quiet.
  - unfold stat, set_logger. intros [= <-]. by apply accounted_quiet.
  - apply insert_resolved_accounted.
  - done.
Qed.

Lemma build_conference_history_accounted env data team_id_map w w1 :
  build_conference_history env data team_id_map w = (Ok tt, w1) → accounted env w w1.
Proof.
  rewrite build_conference_history_script. unfold bind.
  destruct (try_except (delete_history env) _ w) as [[[]|e] w0] eqn:Hclear; [|done].
  intros Hrun. eapply accounted_trans.
  - by eapply clear_history_accounted.
  - by eapply run_script_accounted.
Qed.

Lemma fill_gap_years_accounted env data team_id_map w w1 :
  fill_gap_years env data team_id_map w = (Ok tt, w1) → accounted env w w1.
Proof.
  rewrite fill_gap_years_script. apply for_each_accounted.
  intros key w0 w2. apply fill_gap_accounted.
Qed.

(** In a completed run every rejected call is answered by an error in the
    log, and the fatal error is not logged. *)
Lemma main_accounted env w w' :
  main env w = (Ok tt, w') → accounted env w w'.
Proof.
  intros (cs & w0 & w1 & data & atm & w2 & w3 & team_id_map & w4 & w5 & w6
          & H0 & H1 & H2 & H3 & H4 & H5 & H6 & H7)%main_phases.
  apply fetch_conferences_accounted in H0.
  apply upsert_conferences_accounted in H1.
  apply collect_all_seasons_data_accounted in H2.
  apply upsert_teams_accounted in H3.
  apply get_team_id_map_accounted in H4.
  apply build_conference_history_accounted in H5.
  apply fill_gap_years_accounted in H6.
  apply validate_data_accounted in H7.
  repeat (eapply accounted_trans; [eassumption|]). apply accounted_refl.
Qed.

(** ** What escapes the run *)

Lemma accounted_errors env w w' :
  accounted env w w' →
  ∃ errs, errors (logger w') = errors (logger w) ++ errs ∧ FatalError ∉ errs.
Proof. intros (l & errs & _ & He & _ & Hf). by exists errs. Qed.

Lemma fetch_conferences_raised env w e w1 :
  fetch_conferences env w = (Raise e, w1) →
  e = RequestFailed GetConferences ∧
  conferences_endpoint env (length (sent w)) = None ∧
  errors (logger w1) = errors (logger w) ++ [FetchConferencesFailed].
Proof.
  unfold fetch_conferences, get_conferences. unfold_prims.
  destruct (conferences_endpoint env _); cbn; [done|]. by intros [= <- <-].
Qed.

Lemma get_team_id_map_raised env w e w1 :
  get_team_id_map env w = (Raise e, w1) →
  e = RequestFailed SelectTeams ∧
  datastore_down env (length (sent w)) SelectTeams = true ∧
  errors (logger w1) = errors (logger w).
Proof.
  unfold get_team_id_map, select_teams. unfold_prims.
  destruct (datastore_down env _ _); cbn; [|done]. by intros [= <- <-].
Qed.

Lemma validate_data_raised env w e w1 :
  validate_data env w = (Raise e, w1) →
  ∃ q n, q ∈ validation_queries ∧ datastore_down env n q = true ∧
    e = RequestFailed q ∧ errors (logger w1) = errors (logger w).
Proof.
  unfold validate_data, select_history_conferences, select_conferences,
    select_gap_records, count_teams, count_history, validation_queries. unfold_prims.
  destruct (datastore_down env _ SelectHistoryConferences) eqn:H1; cbn.
  { intros [= <- <-]. eexists _, _. split_and!; [|done|done|done]. set_solver. }
  destruct (datastore_down env _ SelectConferences) eqn:H2; cbn.
  { intros [= <- <-]. eexists _, _. split_and!; [|done|done|done]. set_solver. }
  destruct (decide _); cbn;
    (destruct (datastore_down env _ SelectGapRecords) eqn:H3; cbn;
     [intros [= <- <-]; eexists _, _; split_and!; [|done|done|done]; set_solver|]);
    (destruct (datastore_down env _ CountTeams) eqn:H4; cbn;
     [intros [= <- <-]; eexists _, _; split_and!; [|done|done|done]; set_solver|]);
    (destruct (datastore_down env _ CountHistory) eqn:H5; cbn;
     [intros [= <- <-]; eexists _, _; split_and!; [|done|done|done]; set_solver|]);
    done.
Qed.

Lemma validation_queries_unguarded q : q ∈ validation_queries → q ∈ unguarded_queries.
Proof. unfold validation_queries, unguarded_queries. set_solver. Qed.

(** An exception that escapes [main] was logged as fatal, last of all, and
    is one of three: the failed request for the conferences, a query sent
    without a guard that the datastore rejected, or the [TypeError] of the
    fallback on a null duplicate. *)
Lemma main_raised env w e w' :
  main env w = (Raise e, w') →
  last (failed w w') = Some FatalError ∧
  ((e = RequestFailed GetConferences ∧
    conferences_endpoint env (length (sent w)) = None) ∨
   (∃ q n, q ∈ unguarded_queries ∧ datastore_down env n q = true ∧
      e = RequestFailed q) ∨
   (e = TypeError ∧ run_null_duplicate env w)).
Proof.
  unfold main, try_except.
  destruct (bind (fetch_conferences env) _ w) as [[[]|e0] wf] eqn:Hinner; [done|].
  unfold bind at 1. unfold error, raise, set_logger. intros [= <- <-].
  assert ((∃ errs, errors (logger wf) = errors (logger w) ++ errs) ∧
          ((e0 = RequestFailed GetConferences ∧
            conferences_endpoint env (length (sent w)) = None) ∨
           (∃ q n, q ∈ unguarded_queries ∧ datastore_down env n q = true ∧
              e0 = RequestFailed q) ∨
           (e0 = TypeError ∧ run_null_duplicate env w))) as [[errs He] Hkind].
  2:{ split; [|done]. unfold failed. cbn. rewrite He, <- app_assoc, drop_app_length.
      by rewrite last_snoc. }
  revert Hinner. unfold bind.
  destruct (fetch_conferences env w) as [[cs|e1] w0] eqn:H0.
  2:{ intros [= <- <-]. apply fetch_conferences_raised in H0 as (-> & Hnone & He).
      split; [by eexists | by left]. }
  destruct (upsert_conferences_total env cs w0) as [w1 H1]. rewrite H1.
  destruct (collect_all_seasons_data_run env w1) as (data & atm & w2 & H2 & _).
  rewrite H2.
  destruct (upsert_teams_total env atm w2) as [w3 H3]. rewrite H3.
  pose proof (accounted_errors _ _ _ (fetch_conferences_accounted _ _ _ _ H0))
    as (e0' & He0 & _).
  pose proof (accounted_errors _ _ _ (upsert_conferences_accounted _ _ _ _ H1))
    as (e1' & He1 & _).
  pose proof (accounted_errors _ _ _ (collect_all_seasons_data_accounted _ _ _ _ H2))
    as (e2' & He2 & _).
  pose proof (accounted_errors _ _ _ (upsert_teams_accounted _ _ _ _ H3))
    as (e3' & He3 & _).
  destruct (get_team_id_map env w3) as [[team_id_map|e4] w4] eqn:H4.
  2:{ intros [= <- <-]. apply get_team_id_map_raised in H4 as (-> & Hdown & He4).
      split.
      - eexists. rewrite He4, He3, He2, He1, He0, <- !app_assoc. done.
      - right. left. exists SelectTeams, (length (sent w3)).
        split_and!; try done. unfold unguarded_queries. left. }
  pose proof (accounted_errors _ _ _ (get_team_id_map_accounted _ _ _ _ H4))
    as (e4' & He4 & _).
  destruct (build_conference_history env data team_id_map w4) as [[[]|e5] w5] eqn:H5.
  2:{ intros [= <- <-].
      destruct (build_conference_history_raised _ _ _ _ _ _ H5)
        as (done_ & rest & Hscript & _ & _ & e5' & He5 & _).
      pose proof (build_script_fails_justified data team_id_map) as Hall.
      rewrite Forall_forall in Hall.
      destruct (Hall (Fail e5)) as [-> Hnull].
      { rewrite Hscript. apply elem_of_app. right. left. }
      split.
      - eexists. rewrite He5, He4, He3, He2, He1, He0, <- !app_assoc. done.
      - right. right. split; [done|].
        by exists cs, w0, w1, data, atm, w2, w3, team_id_map, w4. }
  pose proof (accounted_errors _ _ _ (build_conference_history_accounted _ _ _ _ _ H5))
    as (e5' & He5 & _).
  destruct (fill_gap_years_appends env data team_id_map w5) as (w6 & ? & H6 & _).
  rewrite H6.
  pose proof (accounted_errors _ _ _ (fill_gap_years_accounted _ _ _ _ _ H6))
    as (e6' & He6 & _).
  destruct (validate_data env w6) as [[[]|e7] w7] eqn:H7; [done|].
  intros [= <- <-].
  apply validate_data_raised in H7 as (q & n & Hq & Hdown & -> & He7).
  split.
  - eexists. rewrite He7, He6, He5, He4, He3, He2, He1, He0, <- !app_assoc. done.
  - right. left. exists q, n. split_and!; try done.
    by apply validation_queries_unguarded.
Qed.

(** C8 (as amended). No failure of a guarded call is fatal. In a run that
    completes, every call that the API or the datastore rejects (an upsert
    of a conference or of a team, the fetch of a season, the clearing of
    the history, an insert of the resolver, a query or an insert of the gap
    filler) is answered by an error in the log, and the fatal error is not
    logged. An exception that does escape is logged by [main] as the fatal
    error, last of all, and raised again; it is the failed request for the
    conferences at startup, a query sent without a guard (the team ids, the
    validation) that the datastore rejected, or the [TypeError] of the
    fallback on a null duplicate. So once the API has answered the request
    for the conferences and as long as the queries sent without a guard are
    answered, the run completes, that [TypeError] apart. *)
Theorem guarded_failures_are_not_fatal env w :
  (∀ w', main env w = (Ok tt, w') →
     (rejected env (length (sent w)) (issued w w') ≤ length (failed w w'))%nat ∧
     FatalError ∉ failed w w') ∧
  (∀ e w', main env w = (Raise e, w') →
     last (failed w w') = Some FatalError ∧
     ((e = RequestFailed GetConferences ∧
       conferences_endpoint env (length (sent w)) = None) ∨
      (∃ q n, q ∈ unguarded_queries ∧ datastore_down env n q = true ∧
         e = RequestFailed q) ∨
      (e = TypeError ∧ run_null_duplicate env w))) ∧
  (conferences_endpoint env (length (sent w)) ≠ None →
   (∀ n r, r ∈ unguarded_queries → datastore_down env n r = false) →
   ∃ w', main env w = (Ok tt, w') ∨
         (main env w = (Raise TypeError, w') ∧ run_null_duplicate env w)).
Proof.
  split_and!.
  - intros w' (l & errs & Hs & He & Hr & Hf)%main_accounted.
    by rewrite (issued_app _ _ _ Hs), (failed_app _ _ _ He).
  - apply main_raised.
  - intros Hstart Hup.
    destruct (main env w) as [[[]|e] w'] eqn:Hrun; [exists w'; by left|].
    destruct (main_raised _ _ _ _ Hrun) as [_ [[_ Hnone]|[(q & n & Hq & Hdown & _)|[-> Hnull]]]].
    + done.
    + by rewrite (Hup n q Hq) in Hdown.
    + exists w'. by right.
Qed.

Lemma example_flaky_run :
  main example_env_flaky example_world = (Ok tt, example_flaky).
Proof. by vm_compute. Qed.

Lemma example_aborted_run :
  main example_env_select_down example_world
  = (Raise (RequestFailed SelectTeams), example_aborted).
Proof. by vm_compute. Qed.

Lemma guarded_failures_are_not_fatal_witness :
  (rejected example_env_flaky (length (sent example_world))
     (issued example_world example_flaky) = 7%nat ∧
   failed example_world example_flaky =
     [UpsertConferenceFailed "Two"; FetchTeamsFailed 2010; UpsertTeamFailed None "G";
      UpsertTeamFailed None "T"; UpsertTeamFailed None "D"; ClearHistoryFailed;
      InsertHistoryFailed "V" 2009]) ∧
  ((rejected example_env_flaky (length (sent example_world))
      (issued example_world example_flaky)
    ≤ length (failed example_world example_flaky))%nat ∧
   FatalError ∉ failed example_world example_flaky) ∧
  last (failed example_world example_aborted) = Some FatalError.
Proof.
  split; [split; by vm_compute|]. split.
  - apply (proj1 (guarded_failures_are_not_fatal example_env_flaky example_world)).
    exact example_flaky_run.
  - apply (proj1 (proj2 (guarded_failures_are_not_fatal example_env_select_down
                           example_world))
             (RequestFailed SelectTeams) example_aborted).
    exact example_aborted_run.
Defined.
